(** * TextArena / clembench integration: the game master's turn loop

    A shallow embedding of
      - [clem_observation_wrapper.py] (the per-player observation cursor),
      - [ta_master.py] (the game master: observe, step, round bookkeeping,
        end of game),
      - [submasters.py] (single-player and two-player outcome metrics),
      - [master.py] (selection of master and scorer class),
    followed by the properties proved about them.

    Python objects are modelled as records, dicts as [gmap], the set of
    players that acted as a [gset], exceptions as the left summand of
    [result], and the methods of the game master as computations in a
    state-and-exception monad over the game master's fields. *)

From Stdlib Require Import ZArith QArith String Ascii List Lia.
From stdpp Require Import base option list gmap sets strings pretty.

Close Scope Q_scope.
Open Scope Z_scope.
Open Scope string_scope.

(** ** Exceptions and results *)

Inductive exn :=
  | KeyError (key : string)
  | AttributeError (attr : string)
  | TypeError (msg : string)
  | ValueError (msg : string)
  | AssertionError (msg : string)
  | EnvError (msg : string)
  | ModelError (msg : string).

(** [inl e]: the call raised [e]; [inr a]: the call returned [a]. *)
Definition result (A : Type) : Type := exn + A.

Definition raise {A} (e : exn) : result A := inl e.
Definition ret {A} (a : A) : result A := inr a.

Definition rbind {A B} (r : result A) (k : A → result B) : result B :=
  match r with
  | inl e => inl e
  | inr a => k a
  end.

(** ** Python values that cross the environment boundary *)

(** The values found in the reward details and handed to [log_key]. *)
Inductive PyVal :=
  | PyNone
  | PyBool (b : bool)
  | PyNum (q : Q)
  | PyStr (s : string).

(** Python truthiness, as used by [if x:]. *)
Definition truthy (v : PyVal) : bool :=
  match v with
  | PyNone => false
  | PyBool b => b
  | PyNum q => negb (Qeq_bool q 0)
  | PyStr s => negb (String.eqb s "")
  end.

(** Modelled from the spec: the kind of an event.  The enumeration
    [textarena.core.ObservationType] is not part of the repository; the
    code only ever compares a kind with [ObservationType.PLAYER_ACTION]. *)
Inductive ObservationType := NARRATION | PLAYER_ACTION | SYSTEM.

Definition ObservationType_eqb (a b : ObservationType) : bool :=
  match a, b with
  | NARRATION, NARRATION | PLAYER_ACTION, PLAYER_ACTION | SYSTEM, SYSTEM => true
  | _, _ => false
  end.

#[global] Instance ObservationType_eq_dec : EqDecision ObservationType.
Proof. solve_decision. Defined.

(** An observation is the tuple [(sender_id, message, observation_type)]. *)
Definition Observation : Type := Z * string * ObservationType.

Definition obs_sender (ob : Observation) : Z := ob.1.1.
Definition obs_message (ob : Observation) : string := ob.1.2.
Definition obs_type (ob : Observation) : ObservationType := ob.2.

(** What [env.close()] returns: [rewards[0]] maps a player id to its numeric
    reward, [rewards[1]] maps a player id to its details dict. *)
Definition Rewards : Type := gmap Z Q * gmap Z (gmap string PyVal).

(** The [info] of [env.step()]: [None] stands for a falsy info, [Some s] for
    a truthy one whose [str(info)] is [s]. *)
Definition Info : Type := option string.

(** ** The environment interface

    The environment is an external collaborator: the game master reads
    [env.state.observations], [env.state.current_player_id] and
    [env.state.role_mapping], and calls [reset], [step] and [close]. *)
Class Env (E : Type) := {
  observations : E → gmap Z (list Observation);
  current_player_id : E → Z;
  role_mapping : E → gmap Z string;
  env_reset : nat → Z → E → result E;
  env_step : string → E → result (bool * Info * E);
  env_close : E → result (Rewards * E);
}.

(** ** Strings *)

Definition nl : string := String "010"%char "".

(** Python's [needle in s] on strings. *)
Fixpoint contains (needle s : string) : bool :=
  String.prefix needle s ||
  match s with
  | EmptyString => false
  | String _ s' => contains needle s'
  end.

Fixpoint join (ls : list string) : string :=
  match ls with
  | [] => ""
  | l :: ls' => l +:+ join ls'
  end.

(** ** clem_observation_wrapper.py *)

Record Context := { role : string; content : string }.

Record ClemObservationWrapper (E : Type) := {
  wrapped : E;
  logged_observation_count : gmap Z nat;
}.
Arguments wrapped {E} _.
Arguments logged_observation_count {E} _.

Section Wrapper.
Context {E : Type} `{Env E}.
(** [textarena.agents.basic_agents.STANDARD_GAME_PROMPT] *)
Variable STANDARD_GAME_PROMPT : string.

(** [{ i: 0 for i in range(num_players) }] *)
Definition zero_counts (num_players : nat) : gmap Z nat :=
  list_to_map ((λ i : nat, (Z.of_nat i, 0%nat)) <$> seq 0 num_players).

Definition ClemObservationWrapper_init (env : E) (num_players : nat)
  : ClemObservationWrapper E :=
  {| wrapped := env; logged_observation_count := zero_counts num_players |}.

(** [self.env.state.role_mapping.get(sender_id, f"Player {sender_id}")] *)
Definition sender_name_of (roles : gmap Z string) (sender_id : Z) : string :=
  default ("Player " +:+ pretty sender_id) (roles !! sender_id).

(** The [for sender_id, message, observation_type in observations] loop;
    [content] is the string built so far. *)
Fixpoint convert_loop (roles : gmap Z string) (player_id : Z)
    (obs : list Observation) (content : string) : string :=
  match obs with
  | [] => content
  | (sender_id, message, observation_type) :: rest =>
      if negb (ObservationType_eqb observation_type PLAYER_ACTION) then
        let sender_name := sender_name_of roles sender_id in
        convert_loop roles player_id rest
          (content +:+ ("[" +:+ sender_name +:+ "] " +:+ message +:+ nl))
      else if (sender_id =? player_id)%Z then
        convert_loop roles player_id rest content
      else
        let sender_name := sender_name_of roles sender_id in
        convert_loop roles player_id rest
          (content +:+ ("[" +:+ sender_name +:+ "] " +:+ message +:+ nl))
  end.

Definition lookup_or_KeyError {V} (m : gmap Z V) (k : Z) : result V :=
  match m !! k with
  | Some v => ret v
  | None => raise (KeyError (pretty k))
  end.

(** The local variable [observations]: the slice of the player's log from
    the cursor on. *)
Definition unseen (count : nat) (log : list Observation) : list Observation :=
  drop count log.

Definition _convert_obs_to_context (player_id : Z) (w : ClemObservationWrapper E)
  : result (Context * ClemObservationWrapper E) :=
  rbind (lookup_or_KeyError (logged_observation_count w) player_id) (λ count,
  let content := if (count =? 0)%nat then STANDARD_GAME_PROMPT +:+ nl +:+ nl else "" in
  rbind (lookup_or_KeyError (observations (wrapped w)) player_id) (λ log,
  let obs := unseen count log in
  let w' := {| wrapped := wrapped w;
               logged_observation_count :=
                 <[player_id := (count + length obs)%nat]> (logged_observation_count w) |} in
  let content := convert_loop (role_mapping (wrapped w)) player_id obs content in
  ret ({| role := "user"; content := content |}, w'))).

Definition observation (player_id : Z) (w : ClemObservationWrapper E) :=
  _convert_obs_to_context player_id w.

End Wrapper.

(** ** The state-and-exception monad of the game master's methods *)

Definition M (S A : Type) : Type := S → result (A * S).

Definition mret {S A} (a : A) : M S A := λ s, inr (a, s).
Definition mraise {S A} (e : exn) : M S A := λ _, inl e.
Definition mbind {S A B} (c : M S A) (k : A → M S B) : M S B :=
  λ s, match c s with
       | inl e => inl e
       | inr (a, s') => k a s'
       end.
Definition mget {S} : M S S := λ s, inr (s, s).
Definition mmodify {S} (f : S → S) : M S unit := λ s, inr (tt, f s).
Definition mlift {S A} (r : result A) : M S A :=
  λ s, match r with inl e => inl e | inr a => inr (a, s) end.

Notation "'do' x <- c ; k" := (mbind c (λ x, k))
  (at level 10, x name, c at level 100, k at level 200).
Notation "'do_' c ; k" := (mbind c (λ _, k))
  (at level 10, c at level 100, k at level 200).

(** ** ta_master.py: data *)

Record TextArenaPlayer := {
  ta_id : Z;
  name : string;
  game_role : string;
  custom_response : list string;
  model_name : string;
  (** the memory kept by clemcore's [Player]: contexts and responses *)
  messages : list Context;
}.

(** The values of [players_by_id]: the string ["GM"] at key [-1] and the
    player objects. *)
Inductive Slot :=
  | GMName (s : string)
  | APlayer (p : TextArenaPlayer).

(** Values handed to [log_key]. *)
Inductive LogVal :=
  | LVal (v : PyVal)
  | LReward (r : gmap Z Q)
  | LDetails (d : gmap Z (gmap string PyVal)).

(** What the game master records through clemcore's recorder. *)
Inductive LogRecord :=
  | LogPlayer (player_name role model : string)
  | LogToSelf (type_ value : string)
  | LogEvent (from_ to : string) (msg_type msg_content : string)
  | LogKey (key : string) (value : LogVal)
  | LogNextRound
  | LogGameEnd.

(** The calls made on the environment, newest first. *)
Inductive EnvCall :=
  | CallReset (num_players : nat) (seed : Z)
  | CallStep (action : string)
  | CallClose.

Definition is_close (c : EnvCall) : bool :=
  match c with CallClose => true | _ => false end.

Definition close_calls (cs : list EnvCall) : nat :=
  length (filter (λ c, is_close c = true) cs).

(** A Python dict whose iteration order is used: keys in insertion order. *)
Abbreviation odict V := (list (Z * V)).

Fixpoint odict_get {V} (d : odict V) (k : Z) : option V :=
  match d with
  | [] => None
  | (k', v) :: d' => if (k' =? k)%Z then Some v else odict_get d' k
  end.

(** [d[k] = v]: an existing key keeps its position. *)
Fixpoint odict_set {V} (d : odict V) (k : Z) (v : V) : odict V :=
  match d with
  | [] => [(k, v)]
  | (k', v') :: d' =>
      if (k' =? k)%Z then (k', v) :: d' else (k', v') :: odict_set d' k v
  end.

Record TextArenaGameMaster (E : Type) := {
  env : ClemObservationWrapper E;
  players_by_id : odict Slot;
  request_violation : bool;
  played_in_round : gset Z;
  last_player : option Z;
  started : bool;
  done : bool;
  checked_observations : gmap Z nat;
  (** kept by clemcore's [GameMaster] and its recorder *)
  violated_request_count : nat;
  current_round : nat;
  interactions : list LogRecord;
  (** the calls made on [env] so far *)
  env_calls : list EnvCall;
}.
Arguments env {E} _.
Arguments players_by_id {E} _.
Arguments request_violation {E} _.
Arguments played_in_round {E} _.
Arguments last_player {E} _.
Arguments started {E} _.
Arguments done {E} _.
Arguments checked_observations {E} _.
Arguments violated_request_count {E} _.
Arguments current_round {E} _.
Arguments interactions {E} _.
Arguments env_calls {E} _.

Section Setters.
Context {E : Type}.
Local Abbreviation GM := (TextArenaGameMaster E).

Definition set_env (x : ClemObservationWrapper E) (g : GM) : GM :=
  {| env := x; players_by_id := players_by_id g;
     request_violation := request_violation g;
     played_in_round := played_in_round g; last_player := last_player g;
     started := started g; done := done g;
     checked_observations := checked_observations g;
     violated_request_count := violated_request_count g;
     current_round := current_round g; interactions := interactions g;
     env_calls := env_calls g |}.

Definition set_players_by_id (x : odict Slot) (g : GM) : GM :=
  {| env := env g; players_by_id := x;
     request_violation := request_violation g;
     played_in_round := played_in_round g; last_player := last_player g;
     started := started g; done := done g;
     checked_observations := checked_observations g;
     violated_request_count := violated_request_count g;
     current_round := current_round g; interactions := interactions g;
     env_calls := env_calls g |}.

Definition set_request_violation (x : bool) (g : GM) : GM :=
  {| env := env g; players_by_id := players_by_id g;
     request_violation := x;
     played_in_round := played_in_round g; last_player := last_player g;
     started := started g; done := done g;
     checked_observations := checked_observations g;
     violated_request_count := violated_request_count g;
     current_round := current_round g; interactions := interactions g;
     env_calls := env_calls g |}.

Definition set_played_in_round (x : gset Z) (g : GM) : GM :=
  {| env := env g; players_by_id := players_by_id g;
     request_violation := request_violation g;
     played_in_round := x; last_player := last_player g;
     started := started g; done := done g;
     checked_observations := checked_observations g;
     violated_request_count := violated_request_count g;
     current_round := current_round g; interactions := interactions g;
     env_calls := env_calls g |}.

Definition set_last_player (x : option Z) (g : GM) : GM :=
  {| env := env g; players_by_id := players_by_id g;
     request_violation := request_violation g;
     played_in_round := played_in_round g; last_player := x;
     started := started g; done := done g;
     checked_observations := checked_observations g;
     violated_request_count := violated_request_count g;
     current_round := current_round g; interactions := interactions g;
     env_calls := env_calls g |}.

Definition set_done (x : bool) (g : GM) : GM :=
  {| env := env g; players_by_id := players_by_id g;
     request_violation := request_violation g;
     played_in_round := played_in_round g; last_player := last_player g;
     started := started g; done := x;
     checked_observations := checked_observations g;
     violated_request_count := violated_request_count g;
     current_round := current_round g; interactions := interactions g;
     env_calls := env_calls g |}.

Definition set_checked_observations (x : gmap Z nat) (g : GM) : GM :=
  {| env := env g; players_by_id := players_by_id g;
     request_violation := request_violation g;
     played_in_round := played_in_round g; last_player := last_player g;
     started := started g; done := done g;
     checked_observations := x;
     violated_request_count := violated_request_count g;
     current_round := current_round g; interactions := interactions g;
     env_calls := env_calls g |}.

Definition set_violated_request_count (x : nat) (g : GM) : GM :=
  {| env := env g; players_by_id := players_by_id g;
     request_violation := request_violation g;
     played_in_round := played_in_round g; last_player := last_player g;
     started := started g; done := done g;
     checked_observations := checked_observations g;
     violated_request_count := x;
     current_round := current_round g; interactions := interactions g;
     env_calls := env_calls g |}.

Definition set_current_round (x : nat) (g : GM) : GM :=
  {| env := env g; players_by_id := players_by_id g;
     request_violation := request_violation g;
     played_in_round := played_in_round g; last_player := last_player g;
     started := started g; done := done g;
     checked_observations := checked_observations g;
     violated_request_count := violated_request_count g;
     current_round := x; interactions := interactions g;
     env_calls := env_calls g |}.

Definition set_interactions (x : list LogRecord) (g : GM) : GM :=
  {| env := env g; players_by_id := players_by_id g;
     request_violation := request_violation g;
     played_in_round := played_in_round g; last_player := last_player g;
     started := started g; done := done g;
     checked_observations := checked_observations g;
     violated_request_count := violated_request_count g;
     current_round := current_round g; interactions := x;
     env_calls := env_calls g |}.

Definition set_env_calls (x : list EnvCall) (g : GM) : GM :=
  {| env := env g; players_by_id := players_by_id g;
     request_violation := request_violation g;
     played_in_round := played_in_round g; last_player := last_player g;
     started := started g; done := done g;
     checked_observations := checked_observations g;
     violated_request_count := violated_request_count g;
     current_round := current_round g; interactions := interactions g;
     env_calls := x |}.

(** clemcore's recorder: each call appends a record; [log_next_round]
    also advances the round counter and [count_request_violation] the
    violation counter. *)
Definition record (r : LogRecord) : M GM unit :=
  mmodify (λ g, set_interactions (interactions g ++ [r]) g).

Definition log_next_round : M GM unit :=
  do_ mmodify (λ g, set_current_round (S (current_round g)) g);
  record LogNextRound.

Definition count_request_violation : M GM unit :=
  mmodify (λ g, set_violated_request_count (S (violated_request_count g)) g).

Definition log_key (key : string) (value : LogVal) : M GM unit :=
  record (LogKey key value).

Definition log_to_self (type_ value : string) : M GM unit :=
  record (LogToSelf type_ value).

Definition log_event (from_ to msg_type msg_content : string) : M GM unit :=
  record (LogEvent from_ to msg_type msg_content).

Definition log_game_end : M GM unit := record LogGameEnd.

End Setters.

(** ** ta_master.py: methods *)

Definition INVALID_MOVE_MARKER : string := "attempted an invalid move".

Record PlayerSpec := {
  spec_role : string;
  spec_custom_response : option (list string);
}.

Section GameMaster.
Context {E : Type} `{Env E}.
Local Abbreviation GM := (TextArenaGameMaster E).

(** [textarena.agents.basic_agents.STANDARD_GAME_PROMPT] *)
Variable STANDARD_GAME_PROMPT : string.
(** The response of a player's model (or its programmatic response), given
    the player with the context already in its memory. *)
Variable generate_response : TextArenaPlayer → result string.
(** ["\n".join(f"{key}: {value}" for key, value in player_rewards.items())] *)
Variable render_rewards : gmap string PyVal → string.
(** The abstract method [_on_after_game]: the subclasses in submasters.py
    read the rewards and the game master and log keys. *)
Variable _on_after_game : GM → Rewards → result (list (string * LogVal)).

(** *** TextArenaPlayer *)

Definition remember (c : Context) (p : TextArenaPlayer) : TextArenaPlayer :=
  {| ta_id := ta_id p; name := name p; game_role := game_role p;
     custom_response := custom_response p; model_name := model_name p;
     messages := messages p ++ [c] |}.

Definition rename (n : string) (p : TextArenaPlayer) : TextArenaPlayer :=
  {| ta_id := ta_id p; name := n; game_role := game_role p;
     custom_response := custom_response p; model_name := model_name p;
     messages := messages p |}.

(** [perceive_context]; [key] is where the player object sits in
    [players_by_id], so that the change of its memory is seen there. *)
Definition perceive_context (key : Z) (p : TextArenaPlayer) (context : Context)
  : M GM TextArenaPlayer :=
  do_ mmodify (λ g, set_played_in_round ({[ta_id p]} ∪ played_in_round g) g);
  do_ mmodify (set_last_player (Some (ta_id p)));
  (* super().perceive_context(context, log_event=True, memorize=True) *)
  do_ log_event "GM" (name p) "send message" (content context);
  let p' := remember context p in
  do_ mmodify (λ g, set_players_by_id (odict_set (players_by_id g) key (APlayer p')) g);
  mret p'.

(** [player(context)], clemcore's [Player.__call__]: perceive the context,
    produce the response, remember it. *)
Definition player_call (key : Z) (p : TextArenaPlayer) (context : Context)
  : M GM string :=
  do p1 <- perceive_context key p context;
  do response <- mlift (generate_response p1);
  let p2 := remember {| role := "assistant"; content := response |} p1 in
  do_ mmodify (λ g, set_players_by_id (odict_set (players_by_id g) key (APlayer p2)) g);
  do_ log_event (name p) "GM" "get message" response;
  mret response.

(** *** TextArenaGameMaster *)

Definition TextArenaGameMaster_init (w : ClemObservationWrapper E) : GM :=
  {| env := w;
     players_by_id := [(-1, GMName "GM")];
     request_violation := false;
     played_in_round := ∅;
     last_player := None;
     started := false;
     done := false;
     checked_observations := ∅;
     violated_request_count := 0;
     current_round := 0;
     interactions := [];
     env_calls := [] |}.

Definition _dummy_player_specs (n_players : nat) : list PlayerSpec :=
  (λ i : nat, {| spec_role := "Player " +:+ pretty i;
                 spec_custom_response := None |}) <$> seq 0 n_players.

Definition add_player (player : TextArenaPlayer) (player_id : Z) : M GM unit :=
  let player := rename ("Player " +:+ pretty player_id) player in
  do_ mmodify (λ g, set_players_by_id (odict_set (players_by_id g) player_id (APlayer player)) g);
  do_ record (LogPlayer (name player) (game_role player) (model_name player));
  mmodify (λ g, set_checked_observations (<[player_id := 0%nat]> (checked_observations g)) g).

Definition new_player (spec : PlayerSpec) (model : string) (player_id : Z)
  : TextArenaPlayer :=
  {| ta_id := player_id; name := ""; game_role := spec_role spec;
     custom_response :=
       match spec_custom_response spec with
       | Some (r :: rs) => r :: rs
       | _ => ["No custom response specified."]
       end;
     model_name := model; messages := [] |}.

(** [for player_id, (player_spec, player_model) in enumerate(zip(...))] *)
Fixpoint add_players (player_id : nat) (pairs : list (PlayerSpec * string))
  : M GM unit :=
  match pairs with
  | [] => mret tt
  | (spec, model) :: rest =>
      do_ add_player (new_player spec model (Z.of_nat player_id)) (Z.of_nat player_id);
      add_players (S player_id) rest
  end.

Definition call_env_reset (num_players : nat) (seed : Z) : M GM unit :=
  do_ mmodify (λ g, set_env_calls (CallReset num_players seed :: env_calls g) g);
  do g <- mget;
  do e' <- mlift (env_reset num_players seed (wrapped (env g)));
  mmodify (set_env {| wrapped := e';
                      logged_observation_count := logged_observation_count (env g) |}).

(** [setup]; [made] is the environment returned by [ta.make(env_id)], the
    hooks [_on_before_reset] and [_on_before_game] are the default [pass]. *)
Definition setup (made : E) (player_models : list string)
    (player_specs : option (list PlayerSpec)) (seed : Z) : result (unit * GM) :=
  let num_players := length player_models in
  let g0 := TextArenaGameMaster_init (ClemObservationWrapper_init made num_players) in
  (do_ mmodify (λ g : GM,
         {| env := env g; players_by_id := players_by_id g;
            request_violation := request_violation g;
            played_in_round := played_in_round g; last_player := last_player g;
            started := true; done := done g;
            checked_observations := checked_observations g;
            violated_request_count := violated_request_count g;
            current_round := current_round g; interactions := interactions g;
            env_calls := env_calls g |});
   do_ call_env_reset num_players seed;
   let specs := match player_specs with
                | Some (s :: ss) => s :: ss
                | _ => _dummy_player_specs num_players
                end in
   add_players 0 (zip specs player_models)) g0.

Definition has_started : M GM bool := do g <- mget; mret (started g).
Definition is_done : M GM bool := do g <- mget; mret (done g).

Definition get_current_player : M GM Slot :=
  do g <- mget;
  let cur := current_player_id (wrapped (env g)) in
  match odict_get (players_by_id g) cur with
  | Some s => mret s
  | None => mraise (KeyError (pretty cur))
  end.

Definition get_context_for (player : Slot) : M GM Context :=
  match player with
  | GMName _ => mraise (AttributeError "ta_id")
  | APlayer p =>
      do g <- mget;
      do cw <- mlift (observation STANDARD_GAME_PROMPT (ta_id p) (env g));
      do_ mmodify (set_env cw.2);
      mret cw.1
  end.

Definition observe : M GM (Slot * Context) :=
  do player <- get_current_player;
  do context <- get_context_for player;
  mret (player, context).

Definition _start_next_round : M GM bool :=
  do g <- mget;
  mret ((Z.of_nat (size (played_in_round g))
           =? Z.of_nat (length (players_by_id g)) - 1)%Z
        && negb (request_violation g)).

Definition _prepare_next_round : M GM unit :=
  do_ mmodify (set_played_in_round ∅);
  log_next_round.

(** The [for observation in last_observations] loop. *)
Fixpoint check_loop (last_observations : list Observation) : M GM bool :=
  match last_observations with
  | [] => mret false
  | observation :: rest =>
      if contains INVALID_MOVE_MARKER (obs_message observation) then
        do_ count_request_violation;
        mret true
      else check_loop rest
  end.

Definition _check_move_validity : M GM bool :=
  do g <- mget;
  let player_id := current_player_id (wrapped (env g)) in
  do checked <- mlift (lookup_or_KeyError (checked_observations g) player_id);
  do log <- mlift (lookup_or_KeyError (observations (wrapped (env g))) player_id);
  let last_observations := drop checked log in
  do_ mmodify (λ g, set_checked_observations
                      (<[player_id := length log]> (checked_observations g)) g);
  check_loop last_observations.

Definition call_env_step (action : string) : M GM (bool * Info) :=
  do_ mmodify (λ g, set_env_calls (CallStep action :: env_calls g) g);
  do g <- mget;
  do r <- mlift (env_step action (wrapped (env g)));
  do_ mmodify (set_env {| wrapped := r.2;
                         logged_observation_count := logged_observation_count (env g) |});
  mret r.1.

Definition call_env_close : M GM Rewards :=
  do_ mmodify (λ g, set_env_calls (CallClose :: env_calls g) g);
  do g <- mget;
  do r <- mlift (env_close (wrapped (env g)));
  do_ mmodify (set_env {| wrapped := r.2;
                         logged_observation_count := logged_observation_count (env g) |});
  mret r.1.

(** [for player_id in self.players_by_id]: the loop writes the numeric
    reward into the player's details dict, which [rewards[1]] shares. *)
Fixpoint reward_loop (ps : odict Slot) (numeric : gmap Z Q)
    (details : gmap Z (gmap string PyVal)) : M GM (gmap Z (gmap string PyVal)) :=
  match ps with
  | [] => mret details
  | (player_id, _) :: rest =>
      if (player_id =? -1)%Z then reward_loop rest numeric details
      else
        do player_rewards <- mlift (lookup_or_KeyError details player_id);
        do r <- mlift (lookup_or_KeyError numeric player_id);
        let player_rewards := <["reward" := PyNum r]> player_rewards in
        do_ log_to_self "rewards" (render_rewards player_rewards);
        reward_loop rest numeric (<[player_id := player_rewards]> details)
  end.

Fixpoint log_keys (kvs : list (string * LogVal)) : M GM unit :=
  match kvs with
  | [] => mret tt
  | (k, v) :: rest => do_ log_key k v; log_keys rest
  end.

(** [rewards[1][self.last_player]] *)
Definition last_player_details (rewards : Rewards) : M GM (gmap string PyVal) :=
  do g <- mget;
  match last_player g with
  | None => mraise (KeyError "None")
  | Some lp => mlift (lookup_or_KeyError rewards.2 lp)
  end.

Definition dict_item (d : gmap string PyVal) (k : string) : M GM PyVal :=
  match d !! k with
  | Some v => mret v
  | None => mraise (KeyError k)
  end.

(** [_after_game]; the version stamp written into the recorder's meta
    information is left out. *)
Definition _after_game : M GM unit :=
  do rewards <- call_env_close;
  do d <- last_player_details rewards;
  do reason <- dict_item d "reason";
  do last_message <-
    match reason with
    | PyStr s => mret ("[GAME] " +:+ s)
    | _ => mraise (TypeError "can only concatenate str")
    end;
  do d <- last_player_details rewards;
  do last_move_invalid <- dict_item d "invalid_move";
  do_ (if truthy last_move_invalid then count_request_violation else mret tt);
  do cur <- get_current_player;
  do to <-
    match cur with
    | GMName _ => mraise (AttributeError "name")
    | APlayer p => mret (name p)
    end;
  do_ log_event "GM" to "send message" last_message;
  do g <- mget;
  do details <- reward_loop (players_by_id g) rewards.1 rewards.2;
  do_ log_key "ta_reward" (LReward rewards.1);
  do_ log_key "ta_reward_details" (LDetails details);
  do g <- mget;
  do kvs <- mlift (_on_after_game g (rewards.1, details));
  do_ log_keys kvs;
  log_game_end.

Definition step (response : string) : M GM (bool * Info) :=
  do_ mmodify (set_request_violation false);
  do di <- call_env_step response;
  do v <- _check_move_validity;
  do_ mmodify (set_request_violation v);
  do_ mmodify (set_done di.1);
  do_ (match di.2 with
       | Some s => log_to_self "info" s
       | None => mret tt
       end);
  do_ (if negb di.1 then
         do b <- _start_next_round;
         if b then _prepare_next_round else mret tt
       else _after_game);
  mret di.

(** One pass through the body of the [while not done] loop of [play]. *)
Definition play_turn : M GM (bool * Info) :=
  do g <- mget;
  let key := current_player_id (wrapped (env g)) in
  do pc <- observe;
  do response <-
    match pc.1 with
    | GMName _ => mraise (TypeError "'str' object is not callable")
    | APlayer p => player_call key p pc.2
    end;
  step response.

(** [play]: the loop runs for at most [fuel] turns; the result tells
    whether the loop was left ([done] became true). *)
Fixpoint play (fuel : nat) : M GM bool :=
  match fuel with
  | O => mret false
  | S fuel' =>
      do di <- play_turn;
      if di.1 then mret true else play fuel'
  end.

End GameMaster.

(** ** submasters.py *)

(** A Python dict with string keys, in insertion order. *)
Abbreviation sdict V := (list (string * V)).

Fixpoint sdict_get {V} (d : sdict V) (k : string) : option V :=
  match d with
  | [] => None
  | (k', v) :: d' => if String.eqb k' k then Some v else sdict_get d' k
  end.

Fixpoint sdict_set {V} (d : sdict V) (k : string) (v : V) : sdict V :=
  match d with
  | [] => [(k, v)]
  | (k', v') :: d' =>
      if String.eqb k' k then (k', v) :: d' else (k', v') :: sdict_set d' k v
  end.

Definition PyInt (z : Z) : PyVal := PyNum (inject_Z z).

Section Submasters.
Context {E : Type} `{Env E}.
Local Abbreviation GM := (TextArenaGameMaster E).

(** [clemcore.clemgame.metrics.METRIC_ABORTED] and its siblings *)
Variables METRIC_ABORTED METRIC_SUCCESS METRIC_LOSE : string.

Definition reward_for_player (rewards : Rewards) (player_id : Z) : result Q :=
  match rewards.1 !! player_id with
  | None => raise (AssertionError "Player ID not found in rewards!")
  | Some numeric_reward =>
      match rewards.2 !! player_id with
      | None => raise (AssertionError "Player ID not found in other_rewards!")
      | Some _ => ret numeric_reward
      end
  end.

(** [TextArenaGameMaster.prepare_metrics] *)
Definition prepare_metrics : sdict Z :=
  sdict_set (sdict_set (sdict_set [] METRIC_ABORTED 0) METRIC_SUCCESS 0)
            METRIC_LOSE 0.

(** [SinglePlayerMaster.prepare_metrics] *)
Definition SinglePlayerMaster_prepare_metrics (numeric_reward : option Q)
  : sdict Z :=
  let metrics := prepare_metrics in
  match numeric_reward with
  | None => metrics
  | Some r =>
      if truthy (PyNum r) then
        if Qeq_bool r (inject_Z (-1)) then
          sdict_set (sdict_set metrics METRIC_ABORTED 1) METRIC_LOSE 1
        else if Qeq_bool r (inject_Z 1) then
          sdict_set metrics METRIC_SUCCESS 1
        else metrics
      else metrics
  end.

(** [SinglePlayerMaster._on_after_game]: the keys it logs, in order. *)
Definition SinglePlayerMaster_on_after_game (g : GM) (rewards : Rewards)
  : result (list (string * LogVal)) :=
  rbind (reward_for_player rewards 0) (λ numeric_reward,
  let metrics := SinglePlayerMaster_prepare_metrics (Some numeric_reward) in
  ret (("numeric_reward", LVal (PyNum numeric_reward))
       :: ((λ kv : string * Z, (kv.1, LVal (PyInt kv.2))) <$> metrics))).

(** [TwoPlayerMaster._on_after_game] *)
Definition TwoPlayerMaster_on_after_game (g : GM) (rewards : Rewards)
  : result (list (string * LogVal)) :=
  match last_player g with
  | None => raise (KeyError "None")
  | Some lp =>
      rbind (lookup_or_KeyError rewards.2 lp) (λ d,
      match d !! "invalid_move" with
      | None => raise (KeyError "invalid_move")
      | Some last_move_invalid =>
          if truthy last_move_invalid then
            ret [(METRIC_ABORTED, LVal (PyInt 1));
                 (METRIC_SUCCESS, LVal (PyInt 0));
                 (METRIC_LOSE, LVal (PyInt 1))]
          else
            ret [(METRIC_ABORTED, LVal (PyInt 0));
                 (METRIC_SUCCESS, LVal (PyInt 1));
                 (METRIC_LOSE, LVal (PyInt 0))]
      end)
  end.

End Submasters.

(** The last value logged under [key]; clemcore keeps the logged keys in a
    dict, so a later [log_key] with the same key replaces the earlier one. *)
Fixpoint logged_value (key : string) (rs : list LogRecord) : option LogVal :=
  match rs with
  | [] => None
  | r :: rs' =>
      match logged_value key rs' with
      | Some v => Some v
      | None =>
          match r with
          | LogKey k v => if String.eqb k key then Some v else None
          | _ => None
          end
      end
  end.

(** ** master.py *)

Record GameSpec := {
  spec_master : option string;
  spec_scorer : option string;
  spec_players : option Z;
}.

(** The names that [globals()] of master.py resolves. *)
Inductive PyGlobal :=
  | MasterClass (cls : string)
  | ScorerClass (cls : string)
  | OtherObject.

Definition master_globals : sdict PyGlobal :=
  [ ("GameBenchmark", OtherObject); ("GameSpec", OtherObject);
    ("BENCH_SCORE", OtherObject); ("generate_instances", OtherObject);
    ("os", OtherObject);
    ("TextArenaGameMaster", MasterClass "TextArenaGameMaster");
    ("METRIC_ABORTED", OtherObject); ("METRIC_SUCCESS", OtherObject);
    ("METRIC_LOSE", OtherObject); ("Dict", OtherObject);
    ("logging", OtherObject); ("logger", OtherObject);
    ("reward_for_player", OtherObject);
    ("SinglePlayerMaster", MasterClass "SinglePlayerMaster");
    ("MinesweeperMaster", MasterClass "MinesweeperMaster");
    ("WordleMaster", MasterClass "WordleMaster");
    ("TwoPlayerMaster", MasterClass "TwoPlayerMaster");
    ("BattleshipMaster", MasterClass "BattleshipMaster");
    ("WordChainsMaster", MasterClass "WordChainsMaster");
    ("GameScorer", OtherObject); ("np", OtherObject); ("abc", OtherObject);
    ("module_logger", OtherObject); ("init_metrics", OtherObject);
    ("TextArenaScorer", ScorerClass "TextArenaScorer");
    ("SinglePlayerScorer", ScorerClass "SinglePlayerScorer");
    ("TwoPlayerScorer", ScorerClass "TwoPlayerScorer");
    ("HangmanScorer", ScorerClass "HangmanScorer");
    ("WordChainsScorer", ScorerClass "WordChainsScorer");
    ("BattleshipScorer", ScorerClass "BattleshipScorer");
    ("List", OtherObject); ("Tuple", OtherObject);
    ("Message", OtherObject); ("Observations", OtherObject);
    ("TextArenaBenchmark", OtherObject) ].

Record TextArenaBenchmark := {
  master_class : PyGlobal;
  scorer_class : PyGlobal;
}.

Definition players_of (game_spec : GameSpec) : result Z :=
  match spec_players game_spec with
  | Some n => ret n
  | None => raise (KeyError "players")
  end.

Definition select_master (game_spec : GameSpec) : result string :=
  match spec_master game_spec with
  | Some master => ret master
  | None =>
      rbind (players_of game_spec) (λ players,
      if (players =? 1)%Z then ret "SinglePlayerMaster"
      else if (players =? 2)%Z then ret "TwoPlayerMaster"
      else raise (ValueError
        "Multi-player games require a specified 'master' in the game spec."))
  end.

Definition select_scorer (game_spec : GameSpec) : result string :=
  match spec_scorer game_spec with
  | Some scorer => ret scorer
  | None =>
      rbind (players_of game_spec) (λ players,
      if (players =? 1)%Z then ret "SinglePlayerScorer"
      else if (players =? 2)%Z then ret "TwoPlayerScorer"
      else raise (ValueError
        "Multi-player games require a specified 'scorer' in the game spec."))
  end.

Definition globals_item (k : string) : result PyGlobal :=
  match sdict_get master_globals k with
  | Some o => ret o
  | None => raise (KeyError k)
  end.

(** [TextArenaBenchmark.__init__] up to the choice of the two classes; the
    look-up of the instance file that follows is left out. *)
Definition TextArenaBenchmark_init (game_spec : GameSpec)
  : result TextArenaBenchmark :=
  rbind (select_master game_spec) (λ master,
  rbind (select_scorer game_spec) (λ scorer,
  rbind (globals_item master) (λ mc,
  rbind (globals_item scorer) (λ sc,
  ret {| master_class := mc; scorer_class := sc |})))).

(** [create_game_master]: a game master exists only for a benchmark that was
    constructed, and only its [setup] resets an environment. *)
Definition create_game_master (b : TextArenaBenchmark) : PyGlobal :=
  master_class b.

(** ** A scripted environment

    An environment whose moves are laid down in advance: each entry of the
    script says what the next [step] returns, who is the current player
    afterwards and which observations it appends to which player's log.
    Like TextArena's [close], its [close] hands out the stored rewards. *)

Record Move := {
  mv_done : bool;
  mv_info : Info;
  mv_next : Z;
  mv_append : list (Z * Observation);
}.

Record Scripted := {
  sc_observations : gmap Z (list Observation);
  sc_current : Z;
  sc_roles : gmap Z string;
  sc_script : list Move;
  sc_rewards : Rewards;
}.

Definition append_to (o : gmap Z (list Observation)) (a : Z * Observation)
  : gmap Z (list Observation) :=
  <[a.1 := (default [] (o !! a.1) ++ [a.2])%list]> o.

Definition scripted_step (action : string) (e : Scripted)
  : result (bool * Info * Scripted) :=
  match sc_script e with
  | [] => raise (EnvError "no move left")
  | m :: rest =>
      ret (mv_done m, mv_info m,
           {| sc_observations := foldl append_to (sc_observations e) (mv_append m);
              sc_current := mv_next m;
              sc_roles := sc_roles e;
              sc_script := rest;
              sc_rewards := sc_rewards e |})
  end.

Definition scripted_reset (num_players : nat) (seed : Z) (e : Scripted)
  : result Scripted :=
  ret {| sc_observations :=
           sc_observations e
           ∪ list_to_map ((λ i : nat, (Z.of_nat i, [])) <$> seq 0 num_players);
         sc_current := sc_current e;
         sc_roles := sc_roles e;
         sc_script := sc_script e;
         sc_rewards := sc_rewards e |}.

#[global] Instance Scripted_Env : Env Scripted := {|
  observations := sc_observations;
  current_player_id := sc_current;
  role_mapping := sc_roles;
  env_reset := scripted_reset;
  env_step := scripted_step;
  env_close := λ e, ret (sc_rewards e, e);
|}.

(** ** Notions used to state the properties *)

(** An event is an agent's own action when its kind is [PLAYER_ACTION] and
    its sender is the agent itself. *)
Definition own_action (player_id : Z) (ob : Observation) : Prop :=
  obs_type ob = PLAYER_ACTION ∧ obs_sender ob = player_id.

#[global] Instance own_action_dec player_id ob : Decision (own_action player_id ob).
Proof. unfold own_action. apply _. Defined.

(** The events of a slice that are visible to an agent. *)
Definition visible_to (player_id : Z) (obs : list Observation) : list Observation :=
  filter (λ ob, ¬ own_action player_id ob) obs.

(** The line ["[<role-name>] <message>"]. *)
Definition render_line (roles : gmap Z string) (ob : Observation) : string :=
  "[" +:+ sender_name_of roles (obs_sender ob) +:+ "] " +:+ obs_message ob +:+ nl.

Definition preamble (prompt : string) (count : nat) : string :=
  if (count =? 0)%nat then prompt +:+ nl +:+ nl else "".

(** [needle] occurs in [s]. *)
Definition substring_of (needle s : string) : Prop :=
  ∃ before after, s = before +:+ needle +:+ after.

Section Runs.
Context {E : Type} `{Env E}.
Variable STANDARD_GAME_PROMPT : string.

(** The environment only ever appends to a log. *)
Definition append_only (e e' : E) : Prop :=
  ∀ p l, observations e !! p = Some l →
         ∃ l', observations e' !! p = Some (l ++ l')%list.

Definition cursor (w : ClemObservationWrapper E) (p : Z) : nat :=
  default 0%nat (logged_observation_count w !! p).

Definition log_of (w : ClemObservationWrapper E) (p : Z) : list Observation :=
  default [] (observations (wrapped w) !! p).

(** The slice a call of [observation] for [p] takes from the log. *)
Definition new_events (w : ClemObservationWrapper E) (p : Z) : list Observation :=
  unseen (cursor w p) (log_of w p).

(** What happens to a wrapper in a session: the environment moves, or an
    agent is given its observation. *)
Inductive label :=
  | LEnv
  | LObs (p : Z) (slice : list Observation) (ctx : Context).

Inductive wstep : ClemObservationWrapper E → label → ClemObservationWrapper E → Prop :=
  | wstep_env w e' :
      append_only (wrapped w) e' →
      wstep w LEnv {| wrapped := e';
                      logged_observation_count := logged_observation_count w |}
  | wstep_obs w p ctx w' :
      observation STANDARD_GAME_PROMPT p w = inr (ctx, w') →
      wstep w (LObs p (new_events w p) ctx) w'.

Inductive run : ClemObservationWrapper E → list label → ClemObservationWrapper E → Prop :=
  | run_nil w : run w [] w
  | run_snoc w tr w1 l w2 :
      run w tr w1 → wstep w1 l w2 → run w (tr ++ [l])%list w2.

(** The slices handed to [a] in a trace, oldest first. *)
Fixpoint deliveries (a : Z) (tr : list label) : list (list Observation) :=
  match tr with
  | [] => []
  | LObs p slice _ :: tr' =>
      if decide (p = a) then slice :: deliveries a tr' else deliveries a tr'
  | LEnv :: tr' => deliveries a tr'
  end.

(** What holds of every state a session reaches: the slices handed to
    [a] so far are the log of [a] up to its cursor. *)
Definition delivered_prefix (a : Z) (tr : list label)
    (w : ClemObservationWrapper E) : Prop :=
  (cursor w a ≤ length (log_of w a))%nat ∧
  concat (deliveries a tr) = take (cursor w a) (log_of w a).

End Runs.

(** Some event of a window carries the invalid-move marker. *)
Definition has_invalid_move (window : list Observation) : bool :=
  existsb (λ ob, contains INVALID_MOVE_MARKER (obs_message ob)) window.

Definition is_agent (s : Slot) : bool :=
  match s with APlayer _ => true | GMName _ => false end.

(** The agents of a session: the player objects held in [players_by_id]. *)
Definition num_agents {E} (g : TextArenaGameMaster E) : nat :=
  length (filter (λ kv, is_agent kv.2 = true) (players_by_id g)).

(** The entries of [players_by_id] that are not agents. *)
Definition gm_entries {E} (g : TextArenaGameMaster E) : nat :=
  length (filter (λ kv, is_agent kv.2 = false) (players_by_id g)).

(** The game master after the recorder took [extra] more records. *)
Definition logs {E} (extra : list LogRecord) (g : TextArenaGameMaster E)
  : TextArenaGameMaster E :=
  set_interactions (interactions g ++ extra) g.

(** The session is in progress. *)
Definition in_progress {E} (g : TextArenaGameMaster E) : Prop :=
  started g = true ∧ done g = false.

(** The game master after the environment took the step and the move was
    checked, before the round bookkeeping. *)
Definition after_check {E} `{Env E} (g : TextArenaGameMaster E) (response : string) (d : bool) (info : Info)
    (e' : E) (c : nat) (log : list Observation) : TextArenaGameMaster E :=
  let v := has_invalid_move (drop c log) in
  logs (match info with Some s => [LogToSelf "info" s] | None => [] end)
    {| env := {| wrapped := e';
                 logged_observation_count := logged_observation_count (env g) |};
       players_by_id := players_by_id g;
       request_violation := v;
       played_in_round := played_in_round g;
       last_player := last_player g;
       started := started g;
       done := d;
       checked_observations :=
         <[current_player_id e' := length log]> (checked_observations g);
       violated_request_count :=
         if v then S (violated_request_count g) else violated_request_count g;
       current_round := current_round g;
       interactions := interactions g;
       env_calls := CallStep response :: env_calls g |}.

(** The game master after [env.close()] returned and the last move's
    [invalid_move] entry [v] was looked at, before anything is logged. *)
Definition after_close {E} `{Env E} (g : TextArenaGameMaster E) (e'' : E)
    (v : PyVal) : TextArenaGameMaster E :=
  {| env := {| wrapped := e'';
               logged_observation_count := logged_observation_count (env g) |};
     players_by_id := players_by_id g;
     request_violation := request_violation g;
     played_in_round := played_in_round g;
     last_player := last_player g;
     started := started g;
     done := done g;
     checked_observations := checked_observations g;
     violated_request_count :=
       if truthy v then S (violated_request_count g) else violated_request_count g;
     current_round := current_round g;
     interactions := interactions g;
     env_calls := CallClose :: env_calls g |}.

Definition as_log_key (kv : string * LogVal) : LogRecord := LogKey kv.1 kv.2.

(** The value of [_start_next_round] in a state. *)
Definition round_complete {E} (g : TextArenaGameMaster E) : bool :=
  (Z.of_nat (size (played_in_round g))
     =? Z.of_nat (length (players_by_id g)) - 1)%Z
  && negb (request_violation g).

(** The state [_prepare_next_round] leaves. *)
Definition next_round {E} (g : TextArenaGameMaster E) : TextArenaGameMaster E :=
  logs [LogNextRound]
    (set_current_round (S (current_round g)) (set_played_in_round ∅ g)).


(** The game master once the agent [p], found at [key], was handed the
    context [ctx] (the wrapper being [w1] by then): what [perceive_context]
    leaves. *)
Definition after_perceive {E} (g : TextArenaGameMaster E)
    (w1 : ClemObservationWrapper E) (key : Z) (p : TextArenaPlayer)
    (ctx : Context) : TextArenaGameMaster E :=
  {| env := w1;
     players_by_id := odict_set (players_by_id g) key (APlayer (remember ctx p));
     request_violation := request_violation g;
     played_in_round := {[ta_id p]} ∪ played_in_round g;
     last_player := Some (ta_id p);
     started := started g;
     done := done g;
     checked_observations := checked_observations g;
     violated_request_count := violated_request_count g;
     current_round := current_round g;
     interactions :=
       interactions g ++ [LogEvent "GM" (name p) "send message" (content ctx)];
     env_calls := env_calls g |}.

(** The game master once the agent's response was produced and remembered. *)
Definition after_response {E} (gp : TextArenaGameMaster E) (key : Z)
    (p : TextArenaPlayer) (ctx : Context) (response : string)
  : TextArenaGameMaster E :=
  logs [LogEvent (name p) "GM" "get message" response]
    (set_players_by_id
       (odict_set (players_by_id gp) key
          (APlayer (remember {| role := "assistant"; content := response |}
                             (remember ctx p))))
       gp).


(** ** Further notions: what [setup] builds *)

(** The specs [setup] works with: the given ones, or the dummy ones when
    none (or an empty list) is given. *)
Definition effective_specs (player_specs : option (list PlayerSpec))
    (num_players : nat) : list PlayerSpec :=
  match player_specs with
  | Some (s :: ss) => s :: ss
  | _ => _dummy_player_specs num_players
  end.

(** The player object [setup] creates for [player_id]. *)
Definition setup_player (spec : PlayerSpec) (model : string) (player_id : nat)
  : TextArenaPlayer :=
  rename ("Player " +:+ pretty (Z.of_nat player_id))
         (new_player spec model (Z.of_nat player_id)).

(** The entries the loop of [setup] adds to [players_by_id], in order. *)
Fixpoint setup_players (player_id : nat) (pairs : list (PlayerSpec * string))
  : odict Slot :=
  match pairs with
  | [] => []
  | (spec, model) :: rest =>
      (Z.of_nat player_id, APlayer (setup_player spec model player_id))
      :: setup_players (S player_id) rest
  end.

Definition count_of (b : bool) : nat := if b then 1%nat else 0%nat.


(** Every player object sits under its own [ta_id], and every member of the
    acted-set is the key of a player. *)
Definition roster_ids_ok {E} (g : TextArenaGameMaster E) : Prop :=
  (∀ k p, odict_get (players_by_id g) k = Some (APlayer p) → ta_id p = k) ∧
  (∀ i, i ∈ played_in_round g →
        ∃ p, odict_get (players_by_id g) i = Some (APlayer p)).


(** The keys of [players_by_id] the reward loop of [_after_game] visits. *)
Definition rewarded_keys (ps : odict Slot) : list Z :=
  filter (λ k, k ≠ -1) ps.*1.


(** ** metrics.py *)

(** The values of the metrics dict of [init_metrics]: an int, [np.nan], or
    the product [numeric_reward * 100] (a float product, kept as it is
    written). *)
Inductive MetricVal :=
  | MInt (z : Z)
  | MNaN
  | MTimes100 (numeric_reward : Q).

Section Metrics.
(** [clemcore.clemgame.metrics]: the metric names *)
Variables METRIC_ABORTED METRIC_SUCCESS METRIC_LOSE BENCH_SCORE : string.

Definition init_metrics (numeric_reward : option Q) : sdict MetricVal :=
  let metrics :=
    sdict_set
      (sdict_set
         (sdict_set (sdict_set [] METRIC_ABORTED (MInt 0)) METRIC_SUCCESS (MInt 0))
         METRIC_LOSE (MInt 0))
      BENCH_SCORE MNaN in
  match numeric_reward with
  | None => metrics
  | Some r =>
      if Qeq_bool r (inject_Z (-1)) then
        sdict_set (sdict_set metrics METRIC_ABORTED (MInt 1)) METRIC_LOSE (MInt 1)
      else if Qeq_bool r (inject_Z 1) then
        sdict_set (sdict_set metrics METRIC_SUCCESS (MInt 1)) BENCH_SCORE (MInt 100)
      else
        sdict_set metrics BENCH_SCORE (MTimes100 r)
  end.

(** What a scorer returns as bench score: [np.nan], a number times 100, or
    a string repeated 100 times (Python's [*] on a str). *)
Inductive Score :=
  | ScoreNaN
  | ScoreTimes100 (q : Q)
  | ScoreRepeat100 (s : string).

(** [value == 1] *)
Definition eq_one (v : LogVal) : bool :=
  match v with
  | LVal (PyNum q) => Qeq_bool q (inject_Z 1)
  | LVal (PyBool b) => b
  | _ => false
  end.

(** [value * 100] *)
Definition times100 (v : LogVal) : result Score :=
  match v with
  | LVal (PyNum q) => ret (ScoreTimes100 q)
  | LVal (PyBool b) => ret (ScoreTimes100 (inject_Z (if b then 1 else 0)))
  | LVal (PyStr s) => ret (ScoreRepeat100 s)
  | _ => raise (TypeError "unsupported operand type(s) for *")
  end.

(** [TextArenaScorer.get_auxiliaries]: the interaction keys found in the
    episode's interactions, with their values. *)
Definition get_auxiliaries (interaction_keys : list string)
    (episode_interactions : string → option LogVal) : sdict LogVal :=
  foldl (λ aux key,
           match episode_interactions key with
           | Some v => sdict_set aux key v
           | None => aux
           end) [] interaction_keys.

Definition aux_item (auxiliaries : sdict LogVal) (key : string) : result LogVal :=
  match sdict_get auxiliaries key with
  | Some v => ret v
  | None => raise (KeyError key)
  end.

(** [SinglePlayerScorer.interaction_keys] *)
Definition SinglePlayerScorer_interaction_keys : list string :=
  [METRIC_SUCCESS; METRIC_ABORTED; METRIC_LOSE; "numeric_reward"; "ta_reward"].

(** [SinglePlayerScorer.compute_bench_score]: the episode scores it logs and
    the bench score it returns. *)
Definition SinglePlayerScorer_compute_bench_score (auxiliaries : sdict LogVal)
  : result (list (string * LogVal) * Score) :=
  rbind (aux_item auxiliaries "numeric_reward") (λ nr,
  rbind (aux_item auxiliaries "ta_reward") (λ tr,
  let logged := [("Numeric Reward", nr); ("ta_reward", tr)] in
  rbind (aux_item auxiliaries METRIC_ABORTED) (λ aborted,
  if eq_one aborted then ret (logged, ScoreNaN)
  else
    rbind (aux_item auxiliaries METRIC_LOSE) (λ lose,
    if eq_one lose then ret (logged, ScoreNaN)
    else
      rbind (aux_item auxiliaries "numeric_reward") (λ nr',
      rbind (times100 nr') (λ score, ret (logged, score))))))).

(** [TextArenaScorer.compute_episode_scores] of a single-player scorer: the
    bench score that is logged under [BENCH_SCORE]. *)
Definition SinglePlayerScorer_compute_episode_scores
    (episode_interactions : string → option LogVal) : result Score :=
  let auxiliaries :=
    get_auxiliaries SinglePlayerScorer_interaction_keys episode_interactions in
  rbind (SinglePlayerScorer_compute_bench_score auxiliaries) (λ r, ret r.2).

End Metrics.

(** ** submasters.py: the Minesweeper master's first move *)

Section Minesweeper.
Context {E : Type} `{Env E}.
Variable STANDARD_GAME_PROMPT : string.
Variable render_rewards : gmap string PyVal → string.
Variable _on_after_game :
  TextArenaGameMaster E → Rewards → result (list (string * LogVal)).

(** [f"[{x} {y}]"] for the centre cell *)
Definition faux_response (rows cols : Z) : string :=
  let x := (rows / 2)%Z in
  let y := (cols / 2)%Z in
  "[" +:+ pretty x +:+ " " +:+ pretty y +:+ "]".

(** [MinesweeperMaster._on_before_game]; [rows] and [cols] are the
    environment's board size. *)
Definition MinesweeperMaster_on_before_game (rows cols : Z)
  : M (TextArenaGameMaster E) unit :=
  let faux_response := faux_response rows cols in
  do g <- mget;
  let key := current_player_id (wrapped (env g)) in
  do pc <- observe STANDARD_GAME_PROMPT;
  match pc.1 with
  | GMName _ => mraise (AttributeError "perceive_context")
  | APlayer p =>
      do p1 <- perceive_context key p pc.2;
      (* player.perceive_response(faux_response) *)
      let p2 := remember {| role := "assistant"; content := faux_response |} p1 in
      do_ mmodify (λ g, set_players_by_id
                          (odict_set (players_by_id g) key (APlayer p2)) g);
      do_ log_event (name p) "GM" "get message" faux_response;
      do_ step render_rewards _on_after_game faux_response;
      mret tt
  end.

End Minesweeper.


(** Whether the numeric reward is the integer [z] ([numeric_reward == z];
    [None] equals no number). *)
Definition reward_is (numeric_reward : option Q) (z : Z) : bool :=
  match numeric_reward with
  | Some r => Qeq_bool r (inject_Z z)
  | None => false
  end.

Definition flag (b : bool) : Z := if b then 1 else 0.


(** ** instancegenerator.py *)

(** [s.endswith(suffix)] and [s[:-k]] *)
Definition endswith (s suffix : string) : bool :=
  let n := String.length s in
  let m := String.length suffix in
  (m <=? n)%nat && String.eqb (String.substring (n - m) m s) suffix.

Definition drop_last (k : nat) (s : string) : string :=
  String.substring 0 (String.length s - k) s.

Definition SEED : Z := 525119131.

(** The values found in a game instance. *)
Inductive ConfigVal :=
  | CfgStr (s : string)
  | CfgBool (b : bool)
  | CfgInt (z : Z)
  | CfgKwargs (kw : sdict PyVal)
  | CfgPlayerSpecs (ps : list PlayerSpec).

(** A game instance is a dict; an experiment, as clemcore's
    [add_experiment] makes it, has a name and a list of game instances. *)
Abbreviation GameInstance := (sdict ConfigVal).

Record Experiment := {
  exp_name : string;
  game_instances : list GameInstance;
}.

(** An entry of TextArena's [ENV_REGISTRY]. *)
Record EnvSpec := {
  reg_entry_point : string;
  reg_kwargs : sdict PyVal;
}.

(** The [experiments] entry of a game configuration: absent (or [None]), a
    list of names, a dict of environment settings by name, or anything
    else. *)
Inductive Experiments :=
  | ExpNone
  | ExpList (names : list string)
  | ExpDict (configs : sdict (sdict PyVal))
  | ExpOther (v : PyVal).

(** [bool(experiments)], [isinstance(experiments, list)] *)
Definition exp_truthy (experiments : Experiments) : bool :=
  match experiments with
  | ExpNone => false
  | ExpList [] => false
  | ExpList (_ :: _) => true
  | ExpDict [] => false
  | ExpDict (_ :: _) => true
  | ExpOther v => truthy v
  end.

Definition exp_is_list (experiments : Experiments) : bool :=
  match experiments with
  | ExpList _ => true
  | _ => false
  end.

(** [experiment_name not in experiments], for a list *)
Definition not_listed (experiment_name : string) (experiments : Experiments)
  : bool :=
  match experiments with
  | ExpList names => negb (bool_decide (experiment_name ∈ names))
  | _ => false
  end.

(** [for key, value in d.items(): target[key] = value] *)
Definition sdict_update {V} (target d : sdict V) : sdict V :=
  foldl (λ t kv, sdict_set t kv.1 kv.2) target d.

(** [f"{game_name}"] for a name that may be [None] *)
Definition str_of_name (game_name : option string) : string :=
  match game_name with
  | Some s => s
  | None => "None"
  end.

(** [generate_config]; [entry_point] and [player_specs] are the generator's
    attributes. *)
Definition generate_config (entry_point : string)
    (player_specs : option (list PlayerSpec)) (kwargs : sdict ConfigVal)
  : sdict ConfigVal :=
  let config := sdict_update [("entry_point", CfgStr entry_point)] kwargs in
  match player_specs with
  | Some (s :: ss) => sdict_set config "player_specs" (CfgPlayerSpecs (s :: ss))
  | _ => config
  end.

(** The body of the loop of [TextArenaInstanceGenerator.generate_instances]
    for game id [i]. *)
Definition game_instance_of (config : sdict ConfigVal) (seed i : Z)
  : GameInstance :=
  let game_instance := [("game_id", CfgInt i)] in
  let game_instance := sdict_update game_instance config in
  sdict_set game_instance "seed" (CfgInt (seed + i)).

(** [TextArenaInstanceGenerator.generate_instances]: the game instances it
    adds to the experiment. *)
Definition TextArenaInstanceGenerator_generate_instances
    (n_instances : Z) (config : sdict ConfigVal) (seed : Z)
  : list GameInstance :=
  game_instance_of config seed <$> seqZ 0 n_instances.

Section InstanceGenerator.
(** [textarena.envs.registration.ENV_REGISTRY] *)
Variable ENV_REGISTRY : sdict EnvSpec.

(** One pass of the loop over the registry: the experiments so far, with
    the one for [ta_game] added if it is taken. *)
Definition registry_step (entry_point : string) (experiments : Experiments)
    (n_instances : Z) (player_specs : option (list PlayerSpec)) (seed : Z)
    (acc : list Experiment) (entry : string * EnvSpec) : list Experiment :=
  let ta_game := entry.1 in
  if String.eqb (reg_entry_point entry.2) entry_point && endswith ta_game "-raw"
  then
    let experiment_name := drop_last 4 ta_game in
    if exp_is_list experiments && not_listed experiment_name experiments
    then acc
    else
      let config :=
        generate_config entry_point player_specs
          [("env_id", CfgStr ta_game);
           ("env_specs", CfgKwargs (reg_kwargs entry.2))] in
      acc ++ [{| exp_name := experiment_name;
                 game_instances :=
                   TextArenaInstanceGenerator_generate_instances
                     n_instances config seed |}]
  else acc.

Definition dict_step (entry_point : string) (game_name : option string)
    (n_instances : Z) (player_specs : option (list PlayerSpec)) (seed : Z)
    (acc : list Experiment) (entry : string * sdict PyVal) : list Experiment :=
  let experiment_name := entry.1 in
  let config :=
    generate_config entry_point player_specs
      [("env_id", CfgStr (str_of_name game_name +:+ "-" +:+ experiment_name));
       ("register_env", CfgBool true);
       ("env_specs", CfgKwargs entry.2)] in
  acc ++ [{| exp_name := experiment_name;
             game_instances :=
               TextArenaInstanceGenerator_generate_instances
                 n_instances config seed |}].

(** [on_generate] on a fresh generator: the experiments it leaves in
    [self.instances]. *)
Definition on_generate (seed : Z) (entry_point game_name : option string)
    (experiments : Experiments) (n_instances : option Z)
    (player_specs : option (list PlayerSpec)) : result (list Experiment) :=
  match entry_point with
  | None =>
      raise (AssertionError "entry_point must be specified in the game config!")
  | Some entry_point =>
      let n_instances := default 1%Z n_instances in
      if negb (exp_truthy experiments) || exp_is_list experiments then
        ret (foldl (registry_step entry_point experiments n_instances
                      player_specs seed) [] ENV_REGISTRY)
      else
        match experiments with
        | ExpDict configs =>
            ret (foldl (dict_step entry_point game_name n_instances
                          player_specs seed) [] configs)
        | _ =>
            raise (ValueError
              "experiments must be either None, a list of experiment_name levels, or a dict of experiment configs.")
        end
  end.

(** A game entry of clemgame.json, as far as the generator reads it. *)
Record GameConfig := {
  cfg_entry_point : option string;
  cfg_game_name : option string;
  cfg_experiments : Experiments;
  cfg_n_instances : option Z;
  cfg_player_specs : option (list PlayerSpec);
  cfg_instances : option string;
}.

(** The module-level function [generate_instances]: the name of the file written
    and the experiments stored in it. *)
Definition generate_instances (game : GameConfig)
  : result (string * list Experiment) :=
  match cfg_instances game with
  | None => raise (KeyError "instances")
  | Some instances =>
      let filename := instances +:+ ".json" in
      rbind (on_generate SEED (cfg_entry_point game) (cfg_game_name game)
               (cfg_experiments game) (cfg_n_instances game)
               (cfg_player_specs game))
            (λ experiments, ret (filename, experiments))
  end.

End InstanceGenerator.


(** The entry [generate_config] adds for the player specs, if any. *)
Definition player_specs_entry (player_specs : option (list PlayerSpec))
  : sdict ConfigVal :=
  match player_specs with
  | Some (s :: ss) => [("player_specs", CfgPlayerSpecs (s :: ss))]
  | _ => []
  end.


(** The game instances of an experiment, written out: the entries [fixed]
    of the config between the game id and the seed. *)
Definition instances_of (fixed : sdict ConfigVal)
    (player_specs : option (list PlayerSpec)) (n_instances seed : Z)
  : list GameInstance :=
  (λ i, ("game_id", CfgInt i) :: fixed ++ player_specs_entry player_specs
        ++ [("seed", CfgInt (seed + i))])%list
  <$> seqZ 0 n_instances.

(** The experiment generated for an entry of the [experiments] dict, and
    for a registry entry named [name-raw]. *)
Definition dict_experiment (entry_point : string) (game_name : option string)
    (n_instances : Z) (player_specs : option (list PlayerSpec)) (seed : Z)
    (entry : string * sdict PyVal) : Experiment :=
  {| exp_name := entry.1;
     game_instances :=
       instances_of
         [("entry_point", CfgStr entry_point);
          ("env_id", CfgStr (str_of_name game_name +:+ "-" +:+ entry.1));
          ("register_env", CfgBool true);
          ("env_specs", CfgKwargs entry.2)]
         player_specs n_instances seed |}.

Definition registry_experiment (entry_point : string) (n_instances : Z)
    (player_specs : option (list PlayerSpec)) (seed : Z)
    (name : string) (spec : EnvSpec) : Experiment :=
  {| exp_name := name;
     game_instances :=
       instances_of
         [("entry_point", CfgStr entry_point);
          ("env_id", CfgStr (name +:+ "-raw"));
          ("env_specs", CfgKwargs (reg_kwargs spec))]
         player_specs n_instances seed |}.


(** ** get_game_info.py: the commands found in a prompt *)

(** [s.find(c, start)] for a one-character [c] and [start >= 0]: the index
    of the first occurrence at or after [start]; [None] stands for -1. *)
Fixpoint find_from (c : ascii) (s : string) (start : nat) : option nat :=
  match s with
  | EmptyString => None
  | String a s' =>
      match start with
      | O => if Ascii.eqb a c then Some 0%nat else S <$> find_from c s' 0
      | S start' => S <$> find_from c s' start'
      end
  end.

(** [s.count(c)] for a one-character [c] *)
Fixpoint count_char (c : ascii) (s : string) : nat :=
  match s with
  | EmptyString => 0
  | String a s' => (if Ascii.eqb a c then 1 else 0) + count_char c s'
  end.

(** The [while start != -1] loop of [create_game_info], run for at most
    [fuel] passes; [None]: the fuel did not suffice. *)
Fixpoint commands_loop (fuel : nat) (prompt : string) (start : option nat)
    (commands : list string) : option (list string) :=
  match fuel with
  | O => None
  | S fuel' =>
      match start with
      | None => Some commands
      | Some start =>
          match find_from "]" prompt start with
          | Some end_ =>
              let command := String.substring start (end_ + 1 - start) prompt in
              let commands :=
                if bool_decide (command ∈ commands) then commands
                else (commands ++ [command])%list in
              commands_loop fuel' prompt (find_from "[" prompt end_) commands
          | None => Some commands
          end
      end
  end.

(** The substrings of the prompt enclosed in square brackets, as
    [create_game_info] collects them. *)
Definition possible_commands (prompt : string) : option (list string) :=
  commands_loop (S (String.length prompt)) prompt (find_from "[" prompt 0) [].


(** A command: an opening bracket, a body without closing bracket, and a
    closing bracket. *)
Definition bracketed (command : string) : Prop :=
  ∃ body, command = "[" +:+ body +:+ "]" ∧ count_char "]" body = 0%nat.


(** ** submasters.py: the Battleship master's cell counts *)

(** [sep.join(ls)] *)
Fixpoint join_with (sep : string) (ls : list string) : string :=
  match ls with
  | [] => ""
  | l :: ls' =>
      match ls' with
      | [] => l
      | _ :: _ => l +:+ sep +:+ join_with sep ls'
      end
  end.

Record CellCounts := {
  hits : Z;
  misses : Z;
  water : Z;
  remaining_ship_cells : Z;
}.

(** A player's board as a string: the rows joined by newlines; a board is
    given by its cells as they render under [f"{cell}"]. *)
Definition board_string (board : list (list string)) : string :=
  join_with nl (join <$> board).

(** The counts [BattleshipMaster._on_after_game] logs for one board;
    [grid_size] is the environment's. *)
Definition cell_counts_of (grid_size : Z) (board : list (list string))
  : CellCounts :=
  let board := board_string board in
  let hits := Z.of_nat (count_char "X" board) in
  let misses := Z.of_nat (count_char "O" board) in
  let water := Z.of_nat (count_char "~" board) in
  let remaining_ships := (grid_size ^ 2 - (hits + misses + water))%Z in
  {| hits := hits; misses := misses; water := water;
     remaining_ship_cells := remaining_ships |}.

(** The number of cells of a board that show [mark], and that show none of
    the three marks counted. *)
Definition cells_showing (mark : string) (board : list (list string)) : Z :=
  Z.of_nat (length (filter (λ cell, cell = mark) (concat board))).

Definition cells_unmarked (board : list (list string)) : Z :=
  Z.of_nat (length (filter (λ cell, cell ∉ ["X"; "O"; "~"]) (concat board))).


(** ** metrics.py: the two-player scorer *)

(** [TwoPlayerScorer.interaction_keys] *)
Definition TwoPlayerScorer_interaction_keys : list string := ["ta_reward"].

(** [TwoPlayerScorer.compute_bench_score]: the episode scores it logs - one
    per auxiliary, in the dict's order - and the bench score it returns. *)
Definition TwoPlayerScorer_compute_bench_score (auxiliaries : sdict LogVal)
  : result (list (string * LogVal) * Score) :=
  rbind
    (foldl (λ acc key,
              rbind acc (λ logged,
              rbind (aux_item auxiliaries key) (λ v,
              ret (logged ++ [(key, v)])%list)))
           (ret []) auxiliaries.*1)
    (λ logged, ret (logged, ScoreNaN)).

(** [compute_episode_scores] of a two-player scorer: the episode scores
    logged before the bench score, and the bench score. *)
Definition TwoPlayerScorer_compute_episode_scores
    (episode_interactions : string → option LogVal)
  : result (list (string * LogVal) * Score) :=
  let auxiliaries :=
    get_auxiliaries TwoPlayerScorer_interaction_keys episode_interactions in
  TwoPlayerScorer_compute_bench_score auxiliaries.


(** The round markers among the records of a log. *)
Definition is_round_mark (r : LogRecord) : bool :=
  match r with
  | LogNextRound => true
  | _ => false
  end.

Definition round_marks (rs : list LogRecord) : nat :=
  length (filter (λ r, is_round_mark r = true) rs).


(** ** get_game_info.py: the status counts *)

(** An entry of the game info file, as far as [get_stats] reads it: the
    number of players (['unknown'] when the entry has none, here [None]) and
    the status. *)
Record GameInfo := {
  info_num_players : option Z;
  info_status : option string;
}.

(** [if status not in counts: counts[status] = 0], followed - after the
    other initialisations - by [counts[status] += 1] *)
Definition bump (counts : gmap string nat) (status : string)
  : gmap string nat :=
  let counts :=
    if decide (is_Some (counts !! status)) then counts
    else <[status := 0%nat]> counts in
  <[status := S (default 0%nat (counts !! status))]> counts.

(** One pass of the loop of [get_stats] over the entries. *)
Definition stats_step
    (acc : gmap (option Z) (gmap string nat) * gmap string nat)
    (info : GameInfo)
  : result (gmap (option Z) (gmap string nat) * gmap string nat) :=
  let num_players := info_num_players info in
  match info_status info with
  | None => raise (KeyError "status")
  | Some status =>
      let status_counts :=
        if decide (is_Some (acc.1 !! num_players)) then acc.1
        else <[num_players := ∅]> acc.1 in
      let by_status := default ∅ (status_counts !! num_players) in
      ret (<[num_players := bump by_status status]> status_counts,
           bump acc.2 status)
  end.

(** [get_stats] up to the printing: [status_counts] and [total_counts]. *)
Definition get_stats (game_info : list GameInfo)
  : result (gmap (option Z) (gmap string nat) * gmap string nat) :=
  foldl (λ acc info, rbind acc (λ a, stats_step a info)) (ret (∅, ∅)) game_info.

(** The number of entries with a given status, and with a given number of
    players and status. *)
Definition with_status (status : string) (game_info : list GameInfo) : nat :=
  length (filter (λ info, info_status info = Some status) game_info).

Definition with_players_and_status (num_players : option Z) (status : string)
    (game_info : list GameInfo) : nat :=
  length (filter (λ info, info_num_players info = num_players
                          ∧ info_status info = Some status) game_info).


(** The records made by [log_to_self], and the game-end records of a log. *)
Definition is_to_self (r : LogRecord) : bool :=
  match r with
  | LogToSelf _ _ => true
  | _ => false
  end.

Definition is_game_end (r : LogRecord) : bool :=
  match r with
  | LogGameEnd => true
  | _ => false
  end.

Definition game_ends (rs : list LogRecord) : nat :=
  length (filter (λ r, is_game_end r = true) rs).


(** ** Sessions used as examples

    A two-player session of three moves (the third ends the episode), a
    single-player session whose only move is rejected and ends the episode,
    and an environment that passes the turn on after rejecting a move. *)

Definition ex_prompt : string := "You are playing a game.".
Definition ex_render : gmap string PyVal → string := λ _, "".
Definition ex_respond : TextArenaPlayer → result string := λ _, inr "move".
Definition ex_hook : TextArenaGameMaster Scripted → Rewards
                     → result (list (string * LogVal)) := λ _ _, inr [].

Definition ex_details (reason : string) (invalid : bool) : gmap string PyVal :=
  {[ "reason" := PyStr reason; "invalid_move" := PyBool invalid ]}.

Definition ex_two_env : Scripted :=
  {| sc_observations := {[ 0 := [(-1, "Your turn", NARRATION)]; 1 := [] ]};
     sc_current := 0;
     sc_roles := {[ -1 := "GAME" ]};
     sc_script :=
       [ {| mv_done := false; mv_info := None; mv_next := 1;
            mv_append := [(0, (0, "move-x", PLAYER_ACTION));
                          (1, (0, "move-x", PLAYER_ACTION))] |};
         {| mv_done := false; mv_info := None; mv_next := 0;
            mv_append := [(0, (1, "move-y", PLAYER_ACTION));
                          (1, (1, "move-y", PLAYER_ACTION))] |};
         {| mv_done := true; mv_info := Some "game over"; mv_next := 0;
            mv_append := [(0, (-1, "Player 0 wins", SYSTEM));
                          (1, (-1, "Player 0 wins", SYSTEM))] |};
         {| mv_done := true; mv_info := Some "game over"; mv_next := 0;
            mv_append := [] |} ];
     sc_rewards :=
       ({[ 0 := inject_Z 1; 1 := inject_Z (-1) ]},
        {[ 0 := ex_details "Player 0 wins" false;
           1 := ex_details "Player 0 wins" false ]}) |}.

Definition ex_default : TextArenaGameMaster Scripted :=
  TextArenaGameMaster_init (ClemObservationWrapper_init ex_two_env 0).

(** The game master a computation leaves, [ex_default] when it raises. *)
Definition state_of {A} (r : result (A * TextArenaGameMaster Scripted))
  : TextArenaGameMaster Scripted :=
  match r with
  | inr (_, g) => g
  | inl _ => ex_default
  end.

Definition ex_two : TextArenaGameMaster Scripted :=
  Eval vm_compute in state_of (setup ex_two_env ["model-a"; "model-b"] None 7).

(** The two-player session just before the second player's action is
    stepped: both players have been handed a context in this round. *)
Definition ex_two_before_second_step : TextArenaGameMaster Scripted :=
  Eval vm_compute in
    state_of
      ((do_ play_turn ex_prompt ex_respond ex_render ex_hook;
        do pc <- observe ex_prompt;
        match pc.1 with
        | APlayer p => player_call ex_respond 1 p pc.2
        | GMName _ => mraise (TypeError "'str' object is not callable")
        end) ex_two).

Definition ex_two_finished : TextArenaGameMaster Scripted :=
  Eval vm_compute in
    state_of (play ex_prompt ex_respond ex_render ex_hook 3 ex_two).

Definition ex_one_env : Scripted :=
  {| sc_observations := {[ 0 := [(-1, "Guess the word", NARRATION)] ]};
     sc_current := 0;
     sc_roles := ∅;
     sc_script :=
       [ {| mv_done := true; mv_info := None; mv_next := 0;
            mv_append :=
              [(0, (0, "xyzzy", PLAYER_ACTION));
               (0, (-1, "Player 0 attempted an invalid move. Reason: not a word",
                    SYSTEM))] |} ];
     sc_rewards :=
       ({[ 0 := inject_Z (-1) ]},
        {[ 0 := ex_details "Invalid Move: not a word" true ]}) |}.

Definition ex_single_hook : TextArenaGameMaster Scripted → Rewards
                            → result (list (string * LogVal)) :=
  SinglePlayerMaster_on_after_game "Aborted" "Success" "Lose".

Definition ex_one : TextArenaGameMaster Scripted :=
  Eval vm_compute in state_of (setup ex_one_env ["model-a"] None 7).

(** The single-player session with the player's answer made, not yet
    stepped. *)
Definition ex_one_before_step : TextArenaGameMaster Scripted :=
  Eval vm_compute in
    state_of
      ((do pc <- observe ex_prompt;
        match pc.1 with
        | APlayer p => player_call ex_respond 0 p pc.2
        | GMName _ => mraise (TypeError "'str' object is not callable")
        end) ex_one).

Definition ex_one_finished : TextArenaGameMaster Scripted :=
  Eval vm_compute in
    state_of (step ex_render ex_single_hook "move" ex_one_before_step).

Definition ex_one_finished_plain : TextArenaGameMaster Scripted :=
  Eval vm_compute in
    state_of (step ex_render ex_hook "move" ex_one_before_step).

(** An environment that rejects player 0's move, says so in player 0's log
    and passes the turn to player 1. *)
Definition ex_pass_env : Scripted :=
  {| sc_observations := {[ 0 := []; 1 := [] ]};
     sc_current := 0;
     sc_roles := ∅;
     sc_script :=
       [ {| mv_done := false; mv_info := None; mv_next := 1;
            mv_append :=
              [(0, (-1, "Player 0 attempted an invalid move.", SYSTEM))] |} ];
     sc_rewards := (∅, ∅) |}.

Definition ex_pass : TextArenaGameMaster Scripted :=
  Eval vm_compute in state_of (setup ex_pass_env ["model-a"; "model-b"] None 7).

Definition ex_pass_stepped : TextArenaGameMaster Scripted :=
  Eval vm_compute in state_of (step ex_render ex_hook "bad" ex_pass).

(** The wrapper of the two-player session, and what the first call of
    [observation] for player 0 returns. *)
Definition ex_w0 : ClemObservationWrapper Scripted :=
  ClemObservationWrapper_init ex_two_env 2.

Definition ex_ctx0 : Context :=
  Eval vm_compute in
    match observation ex_prompt 0 ex_w0 with
    | inr (c, _) => c
    | inl _ => {| role := ""; content := "" |}
    end.

Definition ex_w1 : ClemObservationWrapper Scripted :=
  Eval vm_compute in
    match observation ex_prompt 0 ex_w0 with
    | inr (_, w) => w
    | inl _ => ex_w0
    end.


Definition ex_two_after_first_turn : TextArenaGameMaster Scripted :=
  Eval vm_compute in
    state_of (play_turn ex_prompt ex_respond ex_render ex_hook ex_two).

Definition ex_two_stepped_again : TextArenaGameMaster Scripted :=
  Eval vm_compute in
    state_of (step ex_render ex_hook "again" ex_two_finished).

Definition ex_marker_event : Observation :=
  (-1, "Player 0 attempted an invalid move. Reason: not a word", SYSTEM).

Definition ex_one_log : list Observation :=
  [(-1, "Guess the word", NARRATION); (0, "xyzzy", PLAYER_ACTION);
   ex_marker_event].


(** The single-player session after the environment has taken the answer,
    before the game master has looked at the new events; the same after
    [_check_move_validity], and after [_after_game]. *)
Definition ex_one_env_stepped : TextArenaGameMaster Scripted :=
  Eval vm_compute in state_of (call_env_step "move" ex_one_before_step).

Definition ex_one_checked : TextArenaGameMaster Scripted :=
  Eval vm_compute in state_of (_check_move_validity ex_one_env_stepped).

Definition ex_one_after_game : TextArenaGameMaster Scripted :=
  Eval vm_compute in state_of (_after_game ex_render ex_hook ex_one_env_stepped).


(** A single-player board game whose first move is accepted and does not
    end the episode; the session [setup] returns, and the same after the
    Minesweeper master's move before the game on an 8 x 8 board. *)
Definition ex_mine_env : Scripted :=
  {| sc_observations := {[ 0 := [(-1, "Reveal a cell", NARRATION)] ]};
     sc_current := 0;
     sc_roles := {[ -1 := "GAME" ]};
     sc_script :=
       [ {| mv_done := false; mv_info := None; mv_next := 0;
            mv_append := [(0, (0, "[4 4]", PLAYER_ACTION));
                          (0, (-1, "Revealed", SYSTEM))] |};
         {| mv_done := true; mv_info := None; mv_next := 0;
            mv_append := [(0, (0, "[0 0]", PLAYER_ACTION));
                          (0, (-1, "Boom", SYSTEM))] |} ];
     sc_rewards :=
       ({[ 0 := 0%Q ]}, {[ 0 := ex_details "You hit a mine" false ]}) |}.

Definition ex_mine : TextArenaGameMaster Scripted :=
  Eval vm_compute in state_of (setup ex_mine_env ["model-a"] None 7).

Definition ex_mine_opened : TextArenaGameMaster Scripted :=
  Eval vm_compute in
    state_of (MinesweeperMaster_on_before_game ex_prompt ex_render
                ex_single_hook 8 8 ex_mine).

(** The Minesweeper session with the player's next answer made, not yet
    stepped, and after that step, which ends the episode with reward 0. *)
Definition ex_mine_before_last_step : TextArenaGameMaster Scripted :=
  Eval vm_compute in
    state_of
      ((do pc <- observe ex_prompt;
        match pc.1 with
        | APlayer p => player_call ex_respond 0 p pc.2
        | GMName _ => mraise (TypeError "'str' object is not callable")
        end) ex_mine_opened).

Definition ex_mine_finished : TextArenaGameMaster Scripted :=
  Eval vm_compute in
    state_of (step ex_render ex_single_hook "move" ex_mine_before_last_step).

(** The two-player session before its last step, under the two-player
    master's hook, and after it. *)
Definition ex_two_hook : TextArenaGameMaster Scripted → Rewards
                         → result (list (string * LogVal)) :=
  TwoPlayerMaster_on_after_game "Aborted" "Success" "Lose".

Definition ex_two_before_last_step : TextArenaGameMaster Scripted :=
  Eval vm_compute in
    state_of
      ((do_ play_turn ex_prompt ex_respond ex_render ex_two_hook;
        do_ play_turn ex_prompt ex_respond ex_render ex_two_hook;
        do pc <- observe ex_prompt;
        match pc.1 with
        | APlayer p => player_call ex_respond 0 p pc.2
        | GMName _ => mraise (TypeError "'str' object is not callable")
        end) ex_two).

Definition ex_two_scored : TextArenaGameMaster Scripted :=
  Eval vm_compute in
    state_of (step ex_render ex_two_hook "move" ex_two_before_last_step).


(** A registry with two Wordle settings and one Hangman setting, and a game
    entry that asks for two instances of the plain Wordle setting. *)
Definition ex_wordle : string := "textarena.envs.Wordle.env:WordleEnv".

Definition ex_registry : sdict EnvSpec :=
  [ ("Wordle-v0",
     {| reg_entry_point := ex_wordle; reg_kwargs := [("hardcore", PyBool false)] |});
    ("Wordle-v0-raw",
     {| reg_entry_point := ex_wordle; reg_kwargs := [("hardcore", PyBool false)] |});
    ("Wordle-v0-hardcore-raw",
     {| reg_entry_point := ex_wordle; reg_kwargs := [("hardcore", PyBool true)] |});
    ("Hangman-v0-raw",
     {| reg_entry_point := "textarena.envs.Hangman.env:HangmanEnv";
        reg_kwargs := [] |}) ].

Definition ex_game : GameConfig :=
  {| cfg_entry_point := Some ex_wordle;
     cfg_game_name := Some "ta_wordle";
     cfg_experiments := ExpList ["Wordle-v0"];
     cfg_n_instances := Some 2%Z;
     cfg_player_specs := None;
     cfg_instances := Some "in_wordle" |}.

Definition ex_generated : list Experiment :=
  Eval vm_compute in
    match generate_instances ex_registry ex_game with
    | inr (_, experiments) => experiments
    | inl _ => []
    end.


(** A board of 2 x 2 cells: a hit, water, a miss and a ship cell. *)
Definition ex_board : list (list string) := [["X"; "~"]; ["O"; "A"]].

(** The two-player session's log as episode interactions. *)
Definition ex_two_episode : string → option LogVal :=
  λ key, logged_value key (interactions ex_two_scored).

Definition ex_command_prompt : string :=
  "Type [guess] or [quit]; a guess looks like [guess] [word".


(** Three entries of a game info file. *)
Definition ex_game_info : list GameInfo :=
  [ {| info_num_players := Some 1%Z; info_status := Some "included" |};
    {| info_num_players := Some 2%Z; info_status := Some "included" |};
    {| info_num_players := None; info_status := Some "excluded" |} ].


(** The session of [ex_pass] after one pass of the loop of [play]: player 0
    was handed its context and answered, the environment rejected the move
    and passed the turn on. *)
Definition ex_pass_played : TextArenaGameMaster Scripted :=
  Eval vm_compute in
    state_of (play_turn ex_prompt ex_respond ex_render ex_hook ex_pass).

(** A single-player game that is lost on a valid last move: the reward is
    -1, the move is not marked invalid and no marker is written. *)
Definition ex_lost_env : Scripted :=
  {| sc_observations := {[ 0 := [(-1, "Guess the word", NARRATION)] ]};
     sc_current := 0;
     sc_roles := ∅;
     sc_script :=
       [ {| mv_done := true; mv_info := None; mv_next := 0;
            mv_append :=
              [(0, (0, "crane", PLAYER_ACTION));
               (0, (-1, "Out of guesses", SYSTEM))] |} ];
     sc_rewards :=
       ({[ 0 := inject_Z (-1) ]},
        {[ 0 := ex_details "Out of guesses" false ]}) |}.

Definition ex_lost : TextArenaGameMaster Scripted :=
  Eval vm_compute in state_of (setup ex_lost_env ["model-a"] None 7).

Definition ex_lost_before_step : TextArenaGameMaster Scripted :=
  Eval vm_compute in
    state_of
      ((do pc <- observe ex_prompt;
        match pc.1 with
        | APlayer p => player_call ex_respond 0 p pc.2
        | GMName _ => mraise (TypeError "'str' object is not callable")
        end) ex_lost).

Definition ex_lost_finished : TextArenaGameMaster Scripted :=
  Eval vm_compute in
    state_of (step ex_render ex_single_hook "move" ex_lost_before_step).

(** A single-player game whose last move is marked invalid while the
    reward is 0. *)
Definition ex_flagged_env : Scripted :=
  {| sc_observations := {[ 0 := [(-1, "Guess the word", NARRATION)] ]};
     sc_current := 0;
     sc_roles := ∅;
     sc_script :=
       [ {| mv_done := true; mv_info := None; mv_next := 0;
            mv_append :=
              [(0, (0, "xyzzy", PLAYER_ACTION));
               (0, (-1, "Player 0 attempted an invalid move. Reason: not a word",
                    SYSTEM))] |} ];
     sc_rewards :=
       ({[ 0 := 0%Q ]},
        {[ 0 := ex_details "Invalid Move: not a word" true ]}) |}.

Definition ex_flagged : TextArenaGameMaster Scripted :=
  Eval vm_compute in state_of (setup ex_flagged_env ["model-a"] None 7).

Definition ex_flagged_before_step : TextArenaGameMaster Scripted :=
  Eval vm_compute in
    state_of
      ((do pc <- observe ex_prompt;
        match pc.1 with
        | APlayer p => player_call ex_respond 0 p pc.2
        | GMName _ => mraise (TypeError "'str' object is not callable")
        end) ex_flagged).

Definition ex_flagged_finished : TextArenaGameMaster Scripted :=
  Eval vm_compute in
    state_of (step ex_render ex_single_hook "move" ex_flagged_before_step).


(** * Properties *)

Lemma ObservationType_eqb_eq a b : ObservationType_eqb a b = true ↔ a = b.
Proof. destruct a, b; simpl; split; congruence. Qed.

(** ** Strings *)

Lemma append_cons ch (a b : string) : String ch a +:+ b = String ch (a +:+ b).
Proof. reflexivity. Qed.

Lemma append_nil_l (b : string) : "" +:+ b = b.
Proof. reflexivity. Qed.

Lemma append_assoc (a b c : string) : (a +:+ b) +:+ c = a +:+ (b +:+ c).
Proof.
  induction a as [|ch a IH]; [done |]. rewrite !append_cons. congruence.
Qed.

Lemma append_nil_r (a : string) : a +:+ "" = a.
Proof.
  induction a as [|ch a IH]; [done |]. rewrite append_cons. congruence.
Qed.

Lemma prefix_app (n s : string) :
  String.prefix n s = true ↔ ∃ after, s = n +:+ after.
Proof.
  revert s. induction n as [|c n IH]; intros s; simpl.
  - destruct s; split; eauto.
  - destruct s as [|d s].
    + split; [done | intros [after Ha]; discriminate].
    + simpl. destruct (ascii_dec c d) as [Heq|Hne]; [subst d |].
      * rewrite IH. split; intros [after Ha]; exists after.
        -- rewrite append_cons. congruence.
        -- rewrite append_cons in Ha. congruence.
      * split; [done |]. intros [after Ha].
        rewrite append_cons in Ha. congruence.
Qed.

Lemma contains_spec (needle s : string) :
  contains needle s = true ↔ substring_of needle s.
Proof.
  induction s as [|c s IH].
  - cbn [contains]. rewrite orb_false_r, prefix_app. split.
    + intros [after Ha]. by exists "", after.
    + intros [[|b before] [after Ha]]; [by exists after | discriminate].
  - cbn [contains]. rewrite orb_true_iff, prefix_app, IH. split.
    + intros [[after Ha] | [before [after Ha]]].
      * by exists "", after.
      * exists (String c before), after. rewrite append_cons. by rewrite Ha.
    + intros [[|b before] [after Ha]].
      * left. by exists after.
      * right. rewrite append_cons in Ha. injection Ha as -> ->.
        by exists before, after.
Qed.

Lemma join_app (xs ys : list string) : join (xs ++ ys) = join xs +:+ join ys.
Proof.
  induction xs as [|x xs IH]; simpl; [done |].
  by rewrite IH, append_assoc.
Qed.

(** ** The observation wrapper *)

Section WrapperFacts.
Context {E : Type} `{Env E}.
Variable STANDARD_GAME_PROMPT : string.

Lemma convert_loop_lines roles player_id obs content0 :
  convert_loop roles player_id obs content0
  = content0 +:+ join (render_line roles <$> visible_to player_id obs).
Proof.
  revert content0. induction obs as [|[[sender message] kind] obs IH];
    intros content0.
  - simpl. by rewrite append_nil_r.
  - unfold visible_to. rewrite filter_cons. fold (visible_to player_id obs).
    cbn [convert_loop].
    destruct (decide (¬ own_action player_id (sender, message, kind)))
      as [Hvis|Hown].
    + assert (convert_loop roles player_id obs
                (content0 +:+ render_line roles (sender, message, kind))
              = content0 +:+ join (render_line roles <$>
                  ((sender, message, kind) :: visible_to player_id obs)))
        as Hgoal.
      { rewrite IH. cbn [fmap list_fmap join]. by rewrite append_assoc. }
      destruct kind; simpl; try exact Hgoal.
      destruct (Z.eqb_spec sender player_id) as [->|Hne]; [|exact Hgoal].
      exfalso. apply Hvis. by split.
    + apply dec_stable in Hown. destruct Hown as [Hk Hs].
      unfold obs_type, obs_sender in Hk, Hs. simpl in Hk, Hs. subst.
      simpl. rewrite Z.eqb_refl. apply IH.
Qed.

(** What a call returns, in full. *)
Lemma observation_returns player_id (w : ClemObservationWrapper E) count log :
  logged_observation_count w !! player_id = Some count →
  observations (wrapped w) !! player_id = Some log →
  observation STANDARD_GAME_PROMPT player_id w
  = inr ({| role := "user";
            content := preamble STANDARD_GAME_PROMPT count
                       +:+ join (render_line (role_mapping (wrapped w))
                                   <$> visible_to player_id (drop count log)) |},
         {| wrapped := wrapped w;
            logged_observation_count :=
              <[player_id := (count + length (drop count log))%nat]>
                (logged_observation_count w) |}).
Proof.
  intros Hc Hl. unfold observation, _convert_obs_to_context, lookup_or_KeyError.
  rewrite Hc. simpl. rewrite Hl. simpl. unfold ret, unseen.
  by rewrite convert_loop_lines.
Qed.

Lemma observation_inv player_id (w : ClemObservationWrapper E) ctx w' :
  observation STANDARD_GAME_PROMPT player_id w = inr (ctx, w') →
  ∃ count log,
    logged_observation_count w !! player_id = Some count ∧
    observations (wrapped w) !! player_id = Some log.
Proof.
  unfold observation, _convert_obs_to_context, lookup_or_KeyError.
  destruct (logged_observation_count w !! player_id) as [count|]; [|done].
  simpl. destruct (observations (wrapped w) !! player_id) as [log|]; [|done].
  eauto.
Qed.

End WrapperFacts.

Section RunFacts.
Context {E : Type} `{Env E}.
Variable STANDARD_GAME_PROMPT : string.
Local Abbreviation W := (ClemObservationWrapper E).
Local Abbreviation wstep' := (wstep STANDARD_GAME_PROMPT).
Local Abbreviation run' := (run STANDARD_GAME_PROMPT).

Lemma deliveries_app a tr1 tr2 :
  deliveries a (tr1 ++ tr2) = (deliveries a tr1 ++ deliveries a tr2)%list.
Proof.
  induction tr1 as [|[|p slice ctx] tr1 IH]; simpl; [done | done |].
  destruct (decide (p = a)); simpl; by rewrite IH.
Qed.

Lemma visible_to_concat a (ss : list (list Observation)) :
  concat (visible_to a <$> ss) = visible_to a (concat ss).
Proof.
  induction ss as [|s0 ss IH]; [done |].
  rewrite fmap_cons. cbn [concat]. rewrite IH.
  unfold visible_to. by rewrite filter_app.
Qed.

Lemma zero_counts_lookup n p c : zero_counts n !! p = Some c → c = 0%nat.
Proof.
  unfold zero_counts. intros Hl.
  apply elem_of_list_to_map_2, list_elem_of_fmap in Hl.
  destruct Hl as [i [Hi _]]. congruence.
Qed.

(** One step seen from agent [a]. *)
Lemma wstep_obs_inv (w w' : W) p slice ctx :
  wstep' w (LObs p slice ctx) w' →
  ∃ count log,
    logged_observation_count w !! p = Some count ∧
    observations (wrapped w) !! p = Some log ∧
    slice = drop count log ∧
    wrapped w' = wrapped w ∧
    logged_observation_count w'
      = <[p := (count + length (drop count log))%nat]> (logged_observation_count w) ∧
    content ctx = preamble STANDARD_GAME_PROMPT count
                  +:+ join (render_line (role_mapping (wrapped w))
                              <$> visible_to p slice).
Proof.
  inversion 1 as [|w0 p0 ctx0 w0' Hobs]; subst.
  destruct (observation_inv _ _ _ _ _ Hobs) as (count & log & Hc & Hl).
  rewrite (observation_returns _ _ _ _ _ Hc Hl) in Hobs.
  injection Hobs as <- <-. exists count, log.
  unfold new_events, cursor, log_of, unseen. rewrite Hc, Hl. simpl.
  by repeat split.
Qed.

Lemma wstep_cursor_mono (w w' : W) l a :
  wstep' w l w' → (cursor w a ≤ cursor w' a)%nat.
Proof.
  destruct l as [|p slice ctx].
  - inversion 1; subst. done.
  - intros Hs. apply wstep_obs_inv in Hs
      as (count & log & Hc & Hl & _ & _ & Hcnt & _).
    unfold cursor. rewrite Hcnt.
    destruct (decide (p = a)) as [->|Hne].
    + rewrite lookup_insert_eq, Hc. simpl. lia.
    + by rewrite lookup_insert_ne.
Qed.

Lemma wstep_delivered_prefix (w w' : W) tr l a :
  delivered_prefix a tr w → wstep' w l w' →
  delivered_prefix a (tr ++ [l]) w'.
Proof.
  intros [Hle Hpre] Hs. unfold delivered_prefix.
  rewrite deliveries_app, concat_app.
  destruct l as [|p slice ctx].
  - inversion Hs as [w0 e' Happ|]; subst. simpl. rewrite app_nil_r.
    unfold cursor, log_of in *. simpl.
    destruct (observations (wrapped w) !! a) as [l0|] eqn:Hl0; simpl in *.
    + destruct (Happ _ _ Hl0) as [l' ->]. simpl.
      rewrite length_app. split; [lia |].
      by rewrite take_app_le.
    + assert (default 0%nat (logged_observation_count w !! a) = 0%nat) as Hz
        by lia.
      rewrite Hz in *. split; [lia |]. rewrite Hpre. reflexivity.
  - apply wstep_obs_inv in Hs
      as (count & log & Hc & Hl & -> & Hw & Hcnt & _).
    unfold cursor, log_of in *. rewrite Hw, Hcnt. simpl.
    destruct (decide (p = a)) as [->|Hne].
    + rewrite lookup_insert_eq. rewrite Hc, Hl in *. simpl in *.
      rewrite length_drop, app_nil_r, Hpre, take_drop.
      replace (count + (length log - count))%nat with (length log) by lia.
      split; [lia |]. by rewrite firstn_all.
    + rewrite lookup_insert_ne by done. rewrite app_nil_r. done.
Qed.

Lemma run_delivered_prefix (e : E) n tr (w : W) a :
  run' (ClemObservationWrapper_init e n) tr w → delivered_prefix a tr w.
Proof.
  remember (ClemObservationWrapper_init e n) as w0 eqn:Hw0.
  induction 1 as [w|w tr w1 l w2 Hrun IH Hstep].
  - subst w. unfold delivered_prefix, cursor. simpl.
    destruct (zero_counts n !! a) as [c|] eqn:Hc; simpl.
    + apply zero_counts_lookup in Hc as ->. split; [lia | done].
    + split; [lia | done].
  - eapply wstep_delivered_prefix; eauto.
Qed.

End RunFacts.

Section WrapperClaims.
Context {E : Type} `{Env E}.
Variable STANDARD_GAME_PROMPT : string.
Local Abbreviation W := (ClemObservationWrapper E).
Local Abbreviation wstep' := (wstep STANDARD_GAME_PROMPT).
Local Abbreviation run' := (run STANDARD_GAME_PROMPT).

Lemma concat_nil_Forall {A} (ls : list (list A)) :
  concat ls = [] ↔ Forall (λ s, s = []) ls.
Proof.
  induction ls as [|s0 ls IH]; simpl.
  - split; [constructor | done].
  - split.
    + intros [-> Hrest]%app_eq_nil. constructor; [done | by apply IH].
    + inversion 1; subst. simpl. by apply IH.
Qed.


(** C6: a call of [observation] for an agent leaves out the events that
    are the agent's own actions and renders every other event of the
    slice as the line made of the sender's role name in brackets and the
    message, the role name looked up in the role mapping and, failing
    that, ["Player <id>"]. *)
Theorem observation_hides_own_actions (w : W) player_id count log :
  logged_observation_count w !! player_id = Some count →
  observations (wrapped w) !! player_id = Some log →
  ∃ ctx w',
    observation STANDARD_GAME_PROMPT player_id w = inr (ctx, w') ∧
    content ctx
      = preamble STANDARD_GAME_PROMPT count
        +:+ join (render_line (role_mapping (wrapped w))
                    <$> visible_to player_id (drop count log)) ∧
    (∀ ob, ob ∈ visible_to player_id (drop count log)
           ↔ ob ∈ drop count log
             ∧ ¬ (obs_type ob = PLAYER_ACTION ∧ obs_sender ob = player_id)) ∧
    (∀ ob, render_line (role_mapping (wrapped w)) ob
           = "[" +:+ default ("Player " +:+ pretty (obs_sender ob))
                             (role_mapping (wrapped w) !! obs_sender ob)
                 +:+ "] " +:+ obs_message ob +:+ nl).
Proof.
  intros Hc Hl. eexists _, _.
  split; [by apply observation_returns |].
  split; [done |]. split; [|done].
  intros ob. unfold visible_to. rewrite list_elem_of_filter.
  unfold own_action. tauto.
Qed.


End WrapperClaims.

(** ** The game master *)

Section GameMasterFacts.
Context {E : Type} `{Env E}.
Local Abbreviation GM := (TextArenaGameMaster E).
Variable STANDARD_GAME_PROMPT : string.
Variable generate_response : TextArenaPlayer → result string.
Variable render_rewards : gmap string PyVal → string.
Variable _on_after_game : GM → Rewards → result (list (string * LogVal)).
Local Abbreviation step' := (step render_rewards _on_after_game).
Local Abbreviation _after_game' := (_after_game render_rewards _on_after_game).
Local Abbreviation play_turn' :=
  (play_turn STANDARD_GAME_PROMPT generate_response render_rewards _on_after_game).
Local Abbreviation play' :=
  (play STANDARD_GAME_PROMPT generate_response render_rewards _on_after_game).

Lemma has_invalid_move_spec window :
  has_invalid_move window = true
  ↔ ∃ ob, ob ∈ window ∧ substring_of INVALID_MOVE_MARKER (obs_message ob).
Proof.
  unfold has_invalid_move. rewrite existsb_exists.
  split; intros [ob [Hin Hc]]; exists ob.
  - split; [by apply list_elem_of_In | by apply contains_spec].
  - split; [by apply list_elem_of_In | by apply contains_spec].
Qed.

Lemma check_loop_run window (g : GM) :
  check_loop window g
  = inr (has_invalid_move window,
         if has_invalid_move window
         then set_violated_request_count (S (violated_request_count g)) g
         else g).
Proof.
  induction window as [|ob window IH]; [done |].
  cbn [check_loop has_invalid_move existsb].
  destruct (contains INVALID_MOVE_MARKER (obs_message ob)); [done |].
  exact IH.
Qed.

Lemma _check_move_validity_run (g : GM) c log :
  let p := current_player_id (wrapped (env g)) in
  checked_observations g !! p = Some c →
  observations (wrapped (env g)) !! p = Some log →
  _check_move_validity g
  = inr (has_invalid_move (drop c log),
         let g1 := set_checked_observations
                     (<[p := length log]> (checked_observations g)) g in
         if has_invalid_move (drop c log)
         then set_violated_request_count (S (violated_request_count g1)) g1
         else g1).
Proof.
  intros p Hc Hl. unfold _check_move_validity, mbind, mget, mlift, mmodify,
    lookup_or_KeyError. fold p. rewrite Hc, Hl. simpl.
  by rewrite check_loop_run.
Qed.

Lemma _check_move_validity_inv (g g' : GM) v :
  _check_move_validity g = inr (v, g') →
  ∃ c log,
    checked_observations g !! current_player_id (wrapped (env g)) = Some c ∧
    observations (wrapped (env g)) !! current_player_id (wrapped (env g))
      = Some log.
Proof.
  unfold _check_move_validity, mbind, mget, mlift, mmodify, lookup_or_KeyError.
  destruct (checked_observations g !! _) as [c|]; [|done].
  destruct (observations (wrapped (env g)) !! _) as [log|]; [|done].
  eauto.
Qed.

Lemma logs_nil (g : GM) : logs [] g = g.
Proof. destruct g. unfold logs, set_interactions. simpl. by rewrite app_nil_r. Qed.

Lemma logs_logs a b (g : GM) : logs b (logs a g) = logs (a ++ b) g.
Proof. unfold logs, set_interactions. simpl. by rewrite app_assoc. Qed.

Lemma step_unfold (g : GM) response d info e' c log :
  env_step response (wrapped (env g)) = inr (d, info, e') →
  checked_observations g !! current_player_id e' = Some c →
  observations e' !! current_player_id e' = Some log →
  step' response g
  = (do_ (if negb d then
            do b <- _start_next_round;
            if b then _prepare_next_round else mret tt
          else _after_game');
     mret (d, info)) (after_check g response d info e' c log).
Proof.
  intros Hstep Hc Hl.
  unfold step. unfold mbind at 1. unfold mmodify at 1.
  unfold mbind at 1. unfold call_env_step, mbind, mmodify, mget, mlift.
  simpl. rewrite Hstep. simpl.
  erewrite _check_move_validity_run by (simpl; eauto). simpl.
  unfold after_check.
  destruct (has_invalid_move (drop c log)), info as [s|]; simpl;
    unfold log_to_self, record, mmodify, mret; simpl;
    rewrite ?logs_nil; reflexivity.
Qed.

Lemma mbind_inv {A B} (c : M GM A) (k : A → M GM B) g b g' :
  mbind c k g = inr (b, g') →
  ∃ a g1, c g = inr (a, g1) ∧ k a g1 = inr (b, g').
Proof.
  unfold mbind. destruct (c g) as [e|[a g1]]; [done |]. eauto.
Qed.

Lemma record_run r (g : GM) : record r g = inr (tt, logs [r] g).
Proof. reflexivity. Qed.

Lemma reward_loop_logs ps numeric details (g g' : GM) details' :
  reward_loop render_rewards ps numeric details g = inr (details', g') →
  ∃ extra, g' = logs extra g.
Proof.
  revert details g. induction ps as [|[player_id slot] ps IH];
    intros details g; cbn [reward_loop].
  - intros [= <- <-]. exists []. by rewrite logs_nil.
  - destruct (player_id =? -1)%Z; [apply IH |].
    intros (pr & g1 & Hpr & Hk)%mbind_inv.
    apply mbind_inv in Hk as (r & g2 & Hr & Hk).
    apply mbind_inv in Hk as (u & g3 & Hlog & Hk).
    apply IH in Hk as [extra ->].
    unfold mlift in Hpr, Hr.
    destruct (lookup_or_KeyError details player_id); [done |].
    destruct (lookup_or_KeyError numeric player_id); [done |].
    injection Hpr as <- <-. injection Hr as <- <-.
    unfold log_to_self in Hlog. rewrite record_run in Hlog.
    injection Hlog as _ <-.
    eexists. by rewrite logs_logs.
Qed.

Lemma log_keys_run kvs (g : GM) :
  log_keys kvs g = inr (tt, logs (as_log_key <$> kvs) g).
Proof.
  revert g. induction kvs as [|[k v] kvs IH]; intros g; cbn [log_keys].
  - by rewrite logs_nil.
  - unfold mbind, log_key. rewrite record_run, IH.
    by rewrite logs_logs.
Qed.

(** What [_after_game] did when it returns. *)
Lemma _after_game_inv (g g' : GM) u :
  _after_game' g = inr (u, g') →
  ∃ rewards e'' lp d v details kvs extra,
    env_close (wrapped (env g)) = inr (rewards, e'') ∧
    last_player g = Some lp ∧
    rewards.2 !! lp = Some d ∧
    d !! "invalid_move" = Some v ∧
    _on_after_game (logs extra (after_close g e'' v)) (rewards.1, details)
      = inr kvs ∧
    g' = logs (extra ++ (as_log_key <$> kvs) ++ [LogGameEnd])
              (after_close g e'' v).
Proof.
  unfold _after_game.
  intros (rewards & g1 & Hclose & Hk)%mbind_inv.
  unfold call_env_close, mbind, mmodify, mget, mlift, mret in Hclose.
  simpl in Hclose.
  destruct (env_close (wrapped (env g))) as [|[rw e'']] eqn:Hec; [done |].
  simpl in Hclose. injection Hclose as <- <-.
  apply mbind_inv in Hk as (d & g2 & Hd & Hk).
  unfold last_player_details, mbind, mget, mlift in Hd. simpl in Hd.
  destruct (last_player g) as [lp|] eqn:Hlp; [|done].
  unfold lookup_or_KeyError in Hd.
  destruct (rw.2 !! lp) as [d0|] eqn:Hd0; [|done].
  injection Hd as <- <-.
  apply mbind_inv in Hk as (reason & g3 & Hreason & Hk).
  unfold dict_item in Hreason.
  destruct (d0 !! "reason") as [rv|]; [|done]. injection Hreason as <- <-.
  apply mbind_inv in Hk as (last_message & g4 & Hmsg & Hk).
  destruct rv as [| | |msg]; try done. injection Hmsg as <- <-.
  apply mbind_inv in Hk as (d1 & g5 & Hd1 & Hk).
  unfold last_player_details, mbind, mget, mlift in Hd1. simpl in Hd1.
  rewrite Hlp in Hd1. unfold lookup_or_KeyError in Hd1. rewrite Hd0 in Hd1.
  injection Hd1 as <- <-.
  apply mbind_inv in Hk as (v & g6 & Hv & Hk).
  unfold dict_item in Hv.
  destruct (d0 !! "invalid_move") as [v0|] eqn:Hv0; [|done].
  injection Hv as <- <-.
  apply mbind_inv in Hk as (u1 & g7 & Hcount & Hk).
  assert (g7 = after_close g e'' v0) as ->.
  { unfold after_close. destruct (truthy v0).
    - unfold count_request_violation, mmodify in Hcount.
      by injection Hcount as _ <-.
    - by injection Hcount as _ <-. }
  clear Hcount.
  apply mbind_inv in Hk as (cur & g8 & Hcur & Hk).
  unfold get_current_player, mbind, mget in Hcur.
  destruct (odict_get _ _) as [slot|]; [|done]. injection Hcur as <- <-.
  apply mbind_inv in Hk as (to & g9 & Hto & Hk).
  destruct slot as [|p]; [done |]. injection Hto as <- <-.
  apply mbind_inv in Hk as (u2 & g10 & Hev & Hk).
  unfold log_event in Hev. rewrite record_run in Hev. injection Hev as _ <-.
  apply mbind_inv in Hk as (gg & g11 & Hget & Hk).
  injection Hget as <- <-.
  apply mbind_inv in Hk as (details & g12 & Hloop & Hk).
  apply reward_loop_logs in Hloop as [extra1 ->].
  apply mbind_inv in Hk as (u3 & g13 & Hk1 & Hk).
  unfold log_key in Hk1. rewrite record_run in Hk1. injection Hk1 as _ <-.
  apply mbind_inv in Hk as (u4 & g14 & Hk2 & Hk).
  unfold log_key in Hk2. rewrite record_run in Hk2. injection Hk2 as _ <-.
  apply mbind_inv in Hk as (gh & g15 & Hget & Hk).
  injection Hget as <- <-.
  apply mbind_inv in Hk as (kvs & g16 & Hhook & Hk).
  unfold mlift in Hhook.
  destruct (_on_after_game _ _) as [|kvs0] eqn:Hh; [done |].
  injection Hhook as <- <-.
  apply mbind_inv in Hk as (u5 & g17 & Hkeys & Hk).
  rewrite log_keys_run in Hkeys. injection Hkeys as _ <-.
  unfold log_game_end in Hk. rewrite record_run in Hk. injection Hk as _ <-.
  exists rw, e'', lp, d0, v0, details, kvs0.
  eexists. split; [done |]. split; [done |]. split; [done |].
  split; [done |].
  rewrite ?logs_logs in *.
  split; [exact Hh |].
  by rewrite <- !app_assoc.
Qed.

Lemma roster_length (g : GM) :
  length (players_by_id g) = (num_agents g + gm_entries g)%nat.
Proof.
  unfold num_agents, gm_entries.
  induction (players_by_id g) as [|[k slot] ps IH]; [done |].
  rewrite !filter_cons. destruct slot; simpl; lia.
Qed.

Lemma round_bookkeeping_run (gc : GM) :
  (do b <- _start_next_round;
   if b then _prepare_next_round else mret tt) gc
  = inr (tt, if round_complete gc then next_round gc else gc).
Proof.
  unfold _start_next_round, mbind, mget, mret. simpl.
  fold (round_complete gc). destruct (round_complete gc); [|done].
  reflexivity.
Qed.

(** A step that returns, taken apart. *)
Lemma step_inv (g g' : GM) response r :
  step' response g = inr (r, g') →
  ∃ d info e' c log,
    env_step response (wrapped (env g)) = inr (d, info, e') ∧
    checked_observations g !! current_player_id e' = Some c ∧
    observations e' !! current_player_id e' = Some log ∧
    r = (d, info) ∧
    let gc := after_check g response d info e' c log in
    if d then _after_game' gc = inr (tt, g')
    else g' = if round_complete gc then next_round gc else gc.
Proof.
  intros Hstep. pose proof Hstep as Hstep0. unfold step in Hstep.
  apply mbind_inv in Hstep as (u & g1 & Hreset & Hk).
  injection Hreset as _ <-.
  apply mbind_inv in Hk as (di & g2 & Hcall & Hk).
  unfold call_env_step, mbind, mmodify, mget, mlift, mret in Hcall.
  simpl in Hcall.
  destruct (env_step response (wrapped (env g))) as [|[[d info] e']] eqn:Hes;
    [done |].
  simpl in Hcall. injection Hcall as <- <-.
  apply mbind_inv in Hk as (v & g3 & Hcheck & _).
  apply _check_move_validity_inv in Hcheck as (c & log & Hc & Hl).
  simpl in Hc, Hl.
  exists d, info, e', c, log. split; [done |]. split; [done |].
  split; [done |].
  rewrite (step_unfold _ _ _ _ _ _ _ Hes Hc Hl) in Hstep0.
  apply mbind_inv in Hstep0 as (u2 & g4 & Hbook & Hret).
  injection Hret as <- <-. split; [done |]. simpl.
  destruct d; simpl in Hbook.
  - by destruct u2.
  - rewrite round_bookkeeping_run in Hbook. by injection Hbook as <-.
Qed.

(** *** What [setup] establishes *)

Lemma odict_set_fresh {V} (d : odict V) k v :
  (∀ k' v', (k', v') ∈ d → k' ≠ k) → odict_set d k v = (d ++ [(k, v)])%list.
Proof.
  induction d as [|[k0 v0] d IH]; intros Hfresh; simpl; [done |].
  destruct (Z.eqb_spec k0 k) as [->|Hne].
  - exfalso. by eapply (Hfresh k v0); [apply list_elem_of_here |].
  - rewrite IH; [done |]. intros k' v' Hin.
    apply (Hfresh k' v'). by apply list_elem_of_further.
Qed.

Lemma add_players_roster pairs i (g g' : GM) u :
  (∀ k s, (k, s) ∈ players_by_id g → (k < Z.of_nat i)%Z) →
  add_players i pairs g = inr (u, g') →
  gm_entries g' = gm_entries g ∧
  num_agents g' = (num_agents g + length pairs)%nat ∧
  started g' = started g ∧ done g' = done g.
Proof.
  revert i g. induction pairs as [|[spec model] pairs IH]; intros i g Hkeys.
  - intros [= _ <-]. simpl. repeat split; try done; lia.
  - cbn [add_players]. intros (u1 & g1 & Hadd & Hrest)%mbind_inv.
    assert (g1 = logs [LogPlayer ("Player " +:+ pretty (Z.of_nat i))
                         (spec_role spec) model]
                   (set_checked_observations
                      (<[Z.of_nat i := 0%nat]> (checked_observations g))
                      (set_players_by_id
                         (players_by_id g
                          ++ [(Z.of_nat i,
                               APlayer (rename ("Player " +:+ pretty (Z.of_nat i))
                                          (new_player spec model (Z.of_nat i))))])
                         g))) as ->.
    { unfold add_player, mbind, mmodify, record in Hadd. simpl in Hadd.
      injection Hadd as _ <-.
      rewrite odict_set_fresh; [by destruct g |].
      intros k' v' Hin Heq. apply Hkeys in Hin. lia. }
    apply IH in Hrest.
    + destruct Hrest as (Hgm & Hag & Hst & Hdn).
      rewrite Hgm, Hag, Hst, Hdn. unfold gm_entries, num_agents. simpl.
      rewrite !filter_app, !length_app. simpl. repeat split; try done; lia.
    + simpl. intros k s [Hin | Hin]%elem_of_app.
      * apply Hkeys in Hin. lia.
      * apply list_elem_of_singleton in Hin. injection Hin as -> _. lia.
Qed.

(** A session that [setup] returns is in progress, holds exactly one
    entry of [players_by_id] that is not an agent (the game master's own),
    and has one agent per model when the player specs are the default. *)
Lemma setup_roster made player_models player_specs seed u (g : GM) :
  setup made player_models player_specs seed = inr (u, g) →
  in_progress g ∧
  gm_entries g = 1%nat ∧
  (player_specs = None → num_agents g = length player_models).
Proof.
  unfold setup. intros (u1 & g1 & Hstart & Hk)%mbind_inv.
  injection Hstart as _ <-.
  apply mbind_inv in Hk as (u2 & g2 & Hreset & Hadd).
  unfold call_env_reset, mbind, mmodify, mget, mlift in Hreset.
  simpl in Hreset.
  destruct (env_reset _ _ _) as [|e1]; [done |].
  simpl in Hreset. injection Hreset as _ <-.
  apply add_players_roster in Hadd.
  - destruct Hadd as (Hgm & Hag & Hst & Hdn). simpl in *.
    split; [by split |]. split; [done |].
    intros ->. rewrite Hag. unfold num_agents. simpl.
    rewrite length_zip_with. unfold _dummy_player_specs.
    rewrite length_fmap, length_seq. lia.
  - simpl. intros k s Hin. apply list_elem_of_singleton in Hin.
    injection Hin as -> _. lia.
Qed.

(** C1: in a session in progress, a step for which the environment
    returns [done = false] completes the round - the acted-set is emptied
    and the round counter goes up by one - exactly when the acted-set has
    as many members as there are agents and the step raised no violation
    flag; otherwise, and in particular when the flag was raised, the
    acted-set and the round counter are left as they were. *)
Theorem round_completes_iff_all_acted (g : GM) response info e' c log :
  in_progress g →
  gm_entries g = 1%nat →
  env_step response (wrapped (env g)) = inr (false, info, e') →
  checked_observations g !! current_player_id e' = Some c →
  observations e' !! current_player_id e' = Some log →
  ∃ g',
    step' response g = inr ((false, info), g') ∧
    ((played_in_round g' = ∅ ∧ current_round g' = S (current_round g))
     ↔ (size (played_in_round g) = num_agents g
        ∧ request_violation g' = false)) ∧
    (request_violation g' = true ∨ size (played_in_round g) ≠ num_agents g →
     played_in_round g' = played_in_round g
     ∧ current_round g' = current_round g).
Proof.
  intros _ Hgm Hes Hc Hl.
  rewrite (step_unfold _ _ _ _ _ _ _ Hes Hc Hl). cbn [negb].
  unfold mbind at 1. rewrite round_bookkeeping_run.
  set (gc := after_check g response false info e' c log).
  eexists. split; [reflexivity |].
  assert (played_in_round gc = played_in_round g) as Hp by done.
  assert (current_round gc = current_round g) as Hr by done.
  assert (length (players_by_id gc) = S (num_agents g)) as Hn.
  { change (players_by_id gc) with (players_by_id g).
    rewrite roster_length, Hgm. lia. }
  assert (round_complete gc = true
          ↔ size (played_in_round g) = num_agents g
            ∧ request_violation gc = false) as Hrc.
  { unfold round_complete. rewrite Hp, Hn, andb_true_iff, Z.eqb_eq,
      negb_true_iff. split; intros [? ?]; split; (lia || done). }
  destruct (round_complete gc) eqn:Hb.
  - change (played_in_round (next_round gc)) with (∅ : gset Z).
    change (current_round (next_round gc)) with (S (current_round gc)).
    change (request_violation (next_round gc)) with (request_violation gc).
    rewrite Hr. destruct Hrc as [Hrc _]. destruct (Hrc eq_refl) as [Hsz Hv].
    split; [done |]. intros [Hv' | Hne]; [congruence | done].
  - rewrite Hp, Hr. split; [|done].
    split; [intros [_ ?]; lia |].
    intros Hall. apply Hrc in Hall. done.
Qed.

(** What [step] makes of the violation flag: it first resets the flag and
    then sets it from the window of the agent that is the environment's
    current agent after the step: the flag is true exactly when one of
    the events of that agent's log past its checked cursor has a message
    containing the marker; the cursor moves to the end of that log, and
    the flag does not depend on its value before the step. *)
Theorem violation_flag_of_current_agent_window
    (g g' : GM) response r d info e' c log :
  env_step response (wrapped (env g)) = inr (d, info, e') →
  checked_observations g !! current_player_id e' = Some c →
  observations e' !! current_player_id e' = Some log →
  step' response g = inr (r, g') →
  (request_violation g' = true
   ↔ ∃ ob, ob ∈ drop c log
           ∧ substring_of "attempted an invalid move" (obs_message ob)) ∧
  checked_observations g' !! current_player_id e' = Some (length log) ∧
  (∀ b r2 g2, step' response (set_request_violation b g) = inr (r2, g2) →
              request_violation g2 = request_violation g').
Proof.
  intros Hes Hc Hl Hstep.
  assert (∀ b r2 g2,
            step' response (set_request_violation b g) = inr (r2, g2) →
            request_violation g2 = has_invalid_move (drop c log)
            ∧ checked_observations g2 !! current_player_id e'
              = Some (length log)) as Hflag.
  { intros b r2 g2 H2. apply step_inv in H2
      as (d2 & info2 & e2 & c2 & log2 & Hes2 & Hc2 & Hl2 & -> & Hrest).
    simpl in Hes2, Hc2. rewrite Hes in Hes2. injection Hes2 as <- <- <-.
    rewrite Hc in Hc2. injection Hc2 as <-.
    rewrite Hl in Hl2. injection Hl2 as <-.
    simpl in Hrest. destruct d.
    - apply _after_game_inv in Hrest
        as (rw & e'' & lp & d0 & v & details & kvs & extra & _ & _ & _ & _ & _ & ->).
      simpl. by rewrite lookup_insert_eq.
    - subst g2. destruct (round_complete _); simpl;
        by rewrite lookup_insert_eq. }
  assert (set_request_violation (request_violation g) g = g) as Hid
    by (by destruct g).
  pose proof (Hflag (request_violation g) r g') as Hg.
  rewrite Hid in Hg. destruct (Hg Hstep) as [Hv Hck].
  split; [by rewrite Hv, has_invalid_move_spec |].
  split; [done |].
  intros b r2 g2 H2. destruct (Hflag b r2 g2 H2) as [-> _]. done.
Qed.

Lemma close_calls_close cs : close_calls (CallClose :: cs) = S (close_calls cs).
Proof. unfold close_calls. by rewrite filter_cons_True. Qed.

Lemma close_calls_step a cs : close_calls (CallStep a :: cs) = close_calls cs.
Proof. unfold close_calls. by rewrite filter_cons_False. Qed.

Lemma step_effects (g g' : GM) response r :
  step' response g = inr (r, g') →
  done g' = r.1 ∧
  env_calls g'
    = ((if r.1 then [CallClose] else []) ++ CallStep response :: env_calls g)%list ∧
  last_player g' = last_player g ∧
  (r.1 = true → played_in_round g' = played_in_round g
                ∧ current_round g' = current_round g) ∧
  (violated_request_count g ≤ violated_request_count g')%nat.
Proof.
  intros (d & info & e' & c & log & Hes & Hc & Hl & -> & Hrest)%step_inv.
  simpl in Hrest. destruct d; simpl.
  - apply _after_game_inv in Hrest
      as (rw & e'' & lp & d0 & v & details & kvs & extra & _ & _ & _ & _ & _ & ->).
    simpl. repeat split; try done.
    destruct (truthy v), (has_invalid_move (drop c log)); lia.
  - subst g'. destruct (round_complete _); simpl;
      (repeat split; try done);
      destruct (has_invalid_move (drop c log)); lia.
Qed.

(** C5: when the final step returns [done = true] and the rewards handed
    out by [close()] mark the last actor's move as invalid, the request
    violation is counted, while the acted-set and the round counter stay
    as they are. *)
Theorem final_invalid_move_is_counted
    (g g' : GM) response info e' rewards e'' lp d v :
  env_step response (wrapped (env g)) = inr (true, info, e') →
  env_close e' = inr (rewards, e'') →
  last_player g = Some lp →
  rewards.2 !! lp = Some d →
  d !! "invalid_move" = Some v →
  truthy v = true →
  step' response g = inr ((true, info), g') →
  (violated_request_count g < violated_request_count g')%nat ∧
  played_in_round g' = played_in_round g ∧
  current_round g' = current_round g ∧
  done g' = true.
Proof.
  intros Hes Hclose Hlp Hd Hv Htruthy Hstep.
  apply step_inv in Hstep
    as (d2 & info2 & e2 & c & log & Hes2 & Hc & Hl & [= <- <-] & Hrest).
  rewrite Hes in Hes2. injection Hes2 as <-.
  simpl in Hrest.
  apply _after_game_inv in Hrest
    as (rw & e3 & lp3 & d3 & v3 & details & kvs & extra
        & Hclose3 & Hlp3 & Hd3 & Hv3 & _ & ->).
  simpl in Hclose3, Hlp3.
  rewrite Hclose in Hclose3. injection Hclose3 as <- <-.
  rewrite Hlp in Hlp3. injection Hlp3 as <-.
  rewrite Hd in Hd3. injection Hd3 as <-.
  rewrite Hv in Hv3. injection Hv3 as <-.
  simpl. rewrite Htruthy.
  repeat split; try done.
  destruct (has_invalid_move (drop c log)); lia.
Qed.

(** One pass through the loop of [play] that returns, taken apart. *)
Lemma play_turn_inv (g g' : GM) r :
  play_turn' g = inr (r, g') →
  let key := current_player_id (wrapped (env g)) in
  ∃ p ctx w1 response,
    odict_get (players_by_id g) key = Some (APlayer p) ∧
    observation STANDARD_GAME_PROMPT (ta_id p) (env g) = inr (ctx, w1) ∧
    perceive_context key p ctx (set_env w1 g)
      = inr (remember ctx p, after_perceive g w1 key p ctx) ∧
    generate_response (remember ctx p) = inr response ∧
    step' response (after_response (after_perceive g w1 key p ctx)
                                   key p ctx response)
      = inr (r, g').
Proof.
  intros Hturn key. unfold play_turn in Hturn.
  apply mbind_inv in Hturn as (g0 & g1 & Hget & Hk).
  injection Hget as <- <-. fold key in Hk.
  apply mbind_inv in Hk as (pc & g2 & Hobs & Hk).
  unfold observe in Hobs.
  apply mbind_inv in Hobs as (slot & g3 & Hcur & Hobs).
  unfold get_current_player, mbind, mget in Hcur. fold key in Hcur.
  destruct (odict_get (players_by_id g) key) as [slot0|] eqn:Hslot; [|done].
  injection Hcur as <- <-.
  apply mbind_inv in Hobs as (ctx & g4 & Hctx & Hret).
  injection Hret as <- <-.
  destruct slot0 as [|p]; [done |].
  unfold get_context_for, mbind, mget, mlift, mmodify, mret in Hctx.
  destruct (observation STANDARD_GAME_PROMPT (ta_id p) (env g))
    as [|[ctx0 w1]] eqn:Hob; [done |].
  simpl in Hctx. injection Hctx as <- <-.
  apply mbind_inv in Hk as (response & g5 & Hcall & Hstep).
  simpl in Hcall. unfold player_call in Hcall.
  apply mbind_inv in Hcall as (p1 & g6 & Hperc & Hcall).
  assert (perceive_context key p ctx0 (set_env w1 g)
          = inr (remember ctx0 p, after_perceive g w1 key p ctx0)) as Hpc
    by reflexivity.
  rewrite Hpc in Hperc. injection Hperc as <- <-.
  apply mbind_inv in Hcall as (resp & g7 & Hgen & Hcall).
  unfold mlift in Hgen.
  destruct (generate_response (remember ctx0 p)) as [|resp0] eqn:Hg; [done |].
  injection Hgen as <- <-.
  apply mbind_inv in Hcall as (u & g8 & Hmod & Hcall).
  injection Hmod as _ <-.
  apply mbind_inv in Hcall as (u2 & g9 & Hlog & Hret).
  unfold log_event in Hlog. rewrite record_run in Hlog.
  injection Hlog as _ <-. injection Hret as <- <-.
  exists p, ctx0, w1, resp0. repeat split; try done.
Qed.

(** *** The roster stays as [setup] left it *)

Lemma odict_set_same_kind (d : odict Slot) k s s' :
  odict_get d k = Some s → is_agent s' = is_agent s →
  length (filter (λ kv, is_agent kv.2 = true) (odict_set d k s'))
    = length (filter (λ kv, is_agent kv.2 = true) d) ∧
  length (filter (λ kv, is_agent kv.2 = false) (odict_set d k s'))
    = length (filter (λ kv, is_agent kv.2 = false) d).
Proof.
  induction d as [|[k0 s0] d IH]; [done |]. simpl.
  destruct (Z.eqb_spec k0 k) as [->|Hne].
  - intros [= ->] Hkind. rewrite !filter_cons. simpl. rewrite Hkind.
    by destruct (is_agent s).
  - intros Hget Hkind. destruct (IH Hget Hkind) as [IH1 IH2].
    rewrite !filter_cons. simpl.
    destruct (is_agent s0); simpl; rewrite ?IH1, ?IH2; done.
Qed.

Lemma odict_get_set {V} (d : odict V) k v :
  is_Some (odict_get d k) → odict_get (odict_set d k v) k = Some v.
Proof.
  induction d as [|[k0 v0] d IH]; simpl; [by intros [? ?] |].
  destruct (Z.eqb_spec k0 k) as [->|Hne]; simpl.
  - intros _. by rewrite Z.eqb_refl.
  - intros Hsome. apply Z.eqb_neq in Hne. rewrite Hne. by apply IH.
Qed.

Lemma step_players (g g' : GM) response r :
  step' response g = inr (r, g') → players_by_id g' = players_by_id g.
Proof.
  intros (d & info & e' & c & log & Hes & Hc & Hl & -> & Hrest)%step_inv.
  simpl in Hrest. destruct d.
  - by apply _after_game_inv in Hrest
      as (rw & e'' & lp & d0 & v & details & kvs & extra & _ & _ & _ & _ & _ & ->).
  - subst g'. by destruct (round_complete _).
Qed.

Lemma play_turn_roster (g g' : GM) r :
  play_turn' g = inr (r, g') →
  gm_entries g' = gm_entries g ∧ num_agents g' = num_agents g.
Proof.
  intros Hturn.
  destruct (play_turn_inv _ _ _ Hturn)
    as (p & ctx & w1 & response & Hslot & _ & _ & _ & Hstep).
  apply step_players in Hstep. unfold gm_entries, num_agents.
  rewrite Hstep. cbn [after_response after_perceive logs set_interactions
                      set_players_by_id players_by_id].
  set (key := current_player_id (wrapped (env g))) in *.
  set (d1 := odict_set (players_by_id g) key (APlayer (remember ctx p))).
  assert (odict_get d1 key = Some (APlayer (remember ctx p))) as Hd1
    by (apply odict_get_set; by rewrite Hslot).
  destruct (odict_set_same_kind (players_by_id g) key (APlayer p)
              (APlayer (remember ctx p)) Hslot eq_refl) as [Ha1 Hg1].
  destruct (odict_set_same_kind d1 key (APlayer (remember ctx p))
              (APlayer (remember {| role := "assistant"; content := response |}
                                 (remember ctx p))) Hd1 eq_refl) as [Ha2 Hg2].
  fold d1 in Ha1, Hg1. split; congruence.
Qed.

Lemma play_roster fuel (g g' : GM) left :
  play' fuel g = inr (left, g') →
  gm_entries g' = gm_entries g ∧ num_agents g' = num_agents g.
Proof.
  revert g. induction fuel as [|fuel IH]; intros g.
  - by intros [= _ <-].
  - cbn [play]. intros (di & g1 & Hturn & Hk)%mbind_inv.
    apply play_turn_roster in Hturn as [Hgm Hag].
    destruct di.1.
    + injection Hk as _ <-. done.
    + apply IH in Hk as [? ?]. split; congruence.
Qed.

(** C10: an agent enters the acted-set and becomes the last actor when it
    is handed its context, before its action is stepped into the
    environment; an agent that is already in the acted-set leaves the set
    (and its size) as it is; and when the episode ends on that agent's
    step, the last actor read by the end-of-game code is that agent. *)
Theorem acted_on_receiving_context (g g' : GM) r :
  play_turn' g = inr (r, g') →
  let key := current_player_id (wrapped (env g)) in
  ∃ p ctx w1 response,
    odict_get (players_by_id g) key = Some (APlayer p) ∧
    observation STANDARD_GAME_PROMPT (ta_id p) (env g) = inr (ctx, w1) ∧
    let gp := after_perceive g w1 key p ctx in
    perceive_context key p ctx (set_env w1 g) = inr (remember ctx p, gp) ∧
    ta_id p ∈ played_in_round gp ∧
    last_player gp = Some (ta_id p) ∧
    env_calls gp = env_calls g ∧
    wrapped (env gp) = wrapped (env g) ∧
    (ta_id p ∈ played_in_round g →
       played_in_round gp = played_in_round g
       ∧ size (played_in_round gp) = size (played_in_round g)) ∧
    (ta_id p ∉ played_in_round g →
       size (played_in_round gp) = S (size (played_in_round g))) ∧
    generate_response (remember ctx p) = inr response ∧
    step' response (after_response gp key p ctx response) = inr (r, g') ∧
    env_calls g'
      = ((if r.1 then [CallClose] else []) ++ CallStep response :: env_calls g)%list ∧
    last_player g' = Some (ta_id p).
Proof.
  intros Hturn key.
  destruct (play_turn_inv _ _ _ Hturn)
    as (p & ctx & w1 & response & Hslot & Hob & Hpc & Hgen & Hstep).
  fold key in Hslot, Hpc, Hstep.
  exists p, ctx, w1, response.
  split; [done |]. split; [done |]. simpl.
  split; [done |].
  split; [set_solver |]. split; [done |]. split; [done |].
  split.
  { pose proof Hob as Hob'.
    apply observation_inv in Hob' as (count & log & Hc & Hl).
    rewrite (observation_returns STANDARD_GAME_PROMPT _ _ _ _ Hc Hl) in Hob.
    by injection Hob as _ <-. }
  split.
  { intros Hin.
    assert ({[ta_id p]} ∪ played_in_round g = played_in_round g) as Heq
      by (by apply subseteq_union_1_L, singleton_subseteq_l).
    by rewrite Heq. }
  split.
  { intros Hnotin. rewrite size_union by set_solver.
    rewrite size_singleton. lia. }
  split; [done |]. split; [done |].
  apply step_effects in Hstep as (_ & Hcalls & Hlast & _).
  split; [exact Hcalls | exact Hlast].
Qed.

Lemma play_turn_calls (g g' : GM) r :
  play_turn' g = inr (r, g') →
  done g' = r.1 ∧
  ∃ response,
    env_calls g'
    = ((if r.1 then [CallClose] else []) ++ CallStep response :: env_calls g)%list.
Proof.
  intros Hturn.
  destruct (play_turn_inv _ _ _ Hturn)
    as (p & ctx & w1 & response & _ & _ & _ & _ & Hstep).
  apply step_effects in Hstep as (Hdone & Hcalls & _).
  split; [done |]. by exists response.
Qed.

Lemma play_more_fuel fuel k (g g' : GM) :
  play' fuel g = inr (true, g') → play' (fuel + k) g = inr (true, g').
Proof.
  revert g. induction fuel as [|fuel IH]; intros g; [done |].
  cbn [play Nat.add]. unfold mbind.
  destruct (play_turn' g) as [|[di g1]]; [done |].
  destruct di.1; [done |]. apply IH.
Qed.

(** C4, as the code has it: in [play], [close()] is called exactly once,
    by the step that returns [done = true], after which the loop is left
    (and stays left with more fuel); while the loop runs [close()] is not
    called.  The game master keeps no guard of its own: a further [step]
    on the finished session for which the environment reports
    [done = true] again calls [close()] a second time and returns. *)
Theorem play_closes_exactly_once fuel (g g' : GM) left :
  play' fuel g = inr (left, g') →
  close_calls (env_calls g')
    = (close_calls (env_calls g) + if left then 1 else 0)%nat ∧
  (left = true → done g' = true) ∧
  (left = true → ∀ k, play' (fuel + k) g = inr (true, g')) ∧
  (∀ response r g'',
     step' response g' = inr (r, g'') → r.1 = true →
     close_calls (env_calls g'')
       = S (close_calls (env_calls g) + if left then 1 else 0)%nat).
Proof.
  intros Hplay.
  assert (close_calls (env_calls g')
          = (close_calls (env_calls g) + if left then 1 else 0)%nat
          ∧ (left = true → done g' = true)) as [Hcount Hdone].
  { revert g Hplay. induction fuel as [|fuel IH]; intros g Hplay.
    - injection Hplay as <- <-. simpl. split; [lia | done].
    - cbn [play] in Hplay.
      apply mbind_inv in Hplay as (di & g1 & Hturn & Hk).
      apply play_turn_calls in Hturn as (Hd & response & Hcalls).
      destruct di.1 eqn:Hdi.
      + injection Hk as <- <-. rewrite Hcalls. split; [|done].
        simpl. rewrite close_calls_close, close_calls_step. lia.
      + apply IH in Hk as [Hc Hdn]. rewrite Hc, Hcalls. split; [|done].
        simpl. by rewrite close_calls_step. }
  split; [done |]. split; [done |].
  split.
  { intros -> k. by apply play_more_fuel. }
  intros response r g'' Hstep Hr.
  apply step_effects in Hstep as (_ & Hcalls & _).
  rewrite Hcalls, Hr, <- Hcount. simpl.
  by rewrite close_calls_close, close_calls_step.
Qed.

End GameMasterFacts.

(** ** Logged keys *)

Lemma sdict_get_set {V} (d : sdict V) k v k' :
  sdict_get (sdict_set d k v) k'
  = if String.eqb k k' then Some v else sdict_get d k'.
Proof.
  induction d as [|[k0 v0] d IH]; simpl.
  - done.
  - destruct (String.eqb_spec k0 k) as [->|Hne]; simpl.
    + by destruct (String.eqb k k').
    + rewrite IH. destruct (String.eqb_spec k0 k') as [->|Hne'].
      * apply String.eqb_neq in Hne. rewrite String.eqb_sym in Hne.
        by rewrite Hne.
      * done.
Qed.

Lemma sdict_get_None {V} (d : sdict V) k :
  sdict_get d k = None ↔ k ∉ d.*1.
Proof.
  induction d as [|[k0 v0] d IH]; simpl.
  - split; [intros _; apply not_elem_of_nil | done].
  - rewrite not_elem_of_cons, <- IH.
    destruct (String.eqb_spec k0 k) as [->|Hne].
    + split; [done | intros [? _]; done].
    + split; [intros Hn; split; [congruence | done] | intros [_ ?]; done].
Qed.

Lemma sdict_set_keys_NoDup {V} (d : sdict V) k v :
  NoDup d.*1 → NoDup (sdict_set d k v).*1.
Proof.
  induction d as [|[k0 v0] d IH]; simpl.
  - intros _. apply NoDup_singleton.
  - intros [Hnotin Hnd]%NoDup_cons.
    destruct (String.eqb_spec k0 k) as [->|Hne]; simpl.
    + by apply NoDup_cons.
    + apply NoDup_cons. split; [|by apply IH].
      apply sdict_get_None. rewrite sdict_get_set.
      apply String.eqb_neq in Hne. rewrite String.eqb_sym in Hne.
      rewrite Hne. by apply sdict_get_None.
Qed.

Lemma logged_value_app key rs1 rs2 :
  logged_value key (rs1 ++ rs2)
  = match logged_value key rs2 with
    | Some v => Some v
    | None => logged_value key rs1
    end.
Proof.
  induction rs1 as [|r rs1 IH]; simpl.
  - by destruct (logged_value key rs2).
  - rewrite IH. by destruct (logged_value key rs2).
Qed.

Lemma logged_value_metrics key (metrics : sdict Z) :
  NoDup metrics.*1 →
  logged_value key
    (as_log_key <$> ((λ kv : string * Z, (kv.1, LVal (PyInt kv.2))) <$> metrics))
  = (λ z, LVal (PyInt z)) <$> sdict_get metrics key.
Proof.
  induction metrics as [|[k z] metrics IH]; [done |].
  intros [Hnotin Hnd]%NoDup_cons.
  assert (sdict_get metrics k = None) as Hnone
    by (apply sdict_get_None; exact Hnotin).
  cbn [fmap list_fmap logged_value].
  change (list_fmap _ _ as_log_key (list_fmap _ _ ?f metrics))
    with (as_log_key <$> (f <$> metrics)).
  rewrite (IH Hnd). cbn [sdict_get as_log_key fst snd].
  destruct (String.eqb_spec k key) as [<-|Hne].
  - by rewrite Hnone.
  - by destruct (sdict_get metrics key).
Qed.

(** ** The single-player master *)

Section SinglePlayerFacts.
Context {E : Type} `{Env E}.
Local Abbreviation GM := (TextArenaGameMaster E).
Variable render_rewards : gmap string PyVal → string.
Variables METRIC_ABORTED METRIC_SUCCESS METRIC_LOSE : string.
Local Abbreviation hook :=
  (SinglePlayerMaster_on_after_game (E := E)
     METRIC_ABORTED METRIC_SUCCESS METRIC_LOSE).
Local Abbreviation metrics_of :=
  (SinglePlayerMaster_prepare_metrics METRIC_ABORTED METRIC_SUCCESS METRIC_LOSE).

Lemma prepare_metrics_NoDup numeric_reward : NoDup (metrics_of numeric_reward).*1.
Proof.
  assert (NoDup (prepare_metrics METRIC_ABORTED METRIC_SUCCESS METRIC_LOSE).*1)
    as Hbase.
  { unfold prepare_metrics. do 3 apply sdict_set_keys_NoDup. apply NoDup_nil_2. }
  unfold SinglePlayerMaster_prepare_metrics.
  destruct numeric_reward as [r|]; [|done].
  destruct (truthy (PyNum r)); [|done].
  destruct (Qeq_bool r (inject_Z (-1))).
  - by do 2 apply sdict_set_keys_NoDup.
  - destruct (Qeq_bool r (inject_Z 1)); [|done].
    by apply sdict_set_keys_NoDup.
Qed.

Lemma prepare_metrics_minus_one r :
  Qeq r (inject_Z (-1)) →
  sdict_get (metrics_of (Some r)) METRIC_ABORTED = Some 1 ∧
  sdict_get (metrics_of (Some r)) METRIC_LOSE = Some 1.
Proof.
  intros Hr. unfold SinglePlayerMaster_prepare_metrics.
  assert (truthy (PyNum r) = true) as ->.
  { simpl. destruct (Qeq_bool r 0) eqn:Hz; [|done].
    apply Qeq_bool_iff in Hz. rewrite Hz in Hr. discriminate Hr. }
  assert (Qeq_bool r (inject_Z (-1)) = true) as -> by by apply Qeq_bool_iff.
  rewrite !sdict_get_set, !String.eqb_refl.
  by destruct (String.eqb METRIC_LOSE METRIC_ABORTED).
Qed.

(** C7, as the code has it: the final step of a single-player session
    calls [close()] exactly once; the outcome is logged with aborted = 1 and
    lose = 1 when player 0's numeric reward is -1, whatever the reward
    details say of the move; and a request violation is counted - the count
    is at least 1 - when the reward details mark the last move as invalid,
    whatever the numeric reward is. *)
Theorem single_player_final_step_outcome
    (g g' : GM) response info e' rewards e'' reward d v :
  env_step response (wrapped (env g)) = inr (true, info, e') →
  env_close e' = inr (rewards, e'') →
  last_player g = Some 0 →
  rewards.1 !! 0 = Some reward →
  rewards.2 !! 0 = Some d →
  d !! "invalid_move" = Some v →
  step render_rewards hook response g = inr ((true, info), g') →
  close_calls (env_calls g') = S (close_calls (env_calls g)) ∧
  (Qeq reward (inject_Z (-1)) →
   logged_value METRIC_ABORTED (interactions g') = Some (LVal (PyInt 1)) ∧
   logged_value METRIC_LOSE (interactions g') = Some (LVal (PyInt 1))) ∧
  (truthy v = true →
   (violated_request_count g < violated_request_count g')%nat ∧
   (1 ≤ violated_request_count g')%nat).
Proof.
  intros Hes Hclose Hlp Hrw Hd Hv Hstep.
  pose proof (step_effects _ _ _ _ _ _ Hstep) as (_ & Hcalls & _).
  apply step_inv in Hstep
    as (d2 & info2 & e2 & c & log & Hes2 & Hc & Hl & [= <- <-] & Hrest).
  rewrite Hes in Hes2. injection Hes2 as <-. simpl in Hrest.
  apply _after_game_inv in Hrest
    as (rw & e3 & lp3 & d3 & v3 & details & kvs & extra
        & Hclose3 & Hlp3 & Hd3 & Hv3 & Hhook & ->).
  simpl in Hclose3, Hlp3.
  rewrite Hclose in Hclose3. injection Hclose3 as <- <-.
  rewrite Hlp in Hlp3. injection Hlp3 as <-.
  rewrite Hd in Hd3. injection Hd3 as <-.
  rewrite Hv in Hv3. injection Hv3 as <-.
  unfold SinglePlayerMaster_on_after_game, reward_for_player, rbind in Hhook.
  cbn [fst snd] in Hhook. rewrite Hrw in Hhook.
  destruct (details !! 0) as [d0|]; [|done].
  injection Hhook as <-.
  split; [|split].
  - rewrite Hcalls. simpl. by rewrite close_calls_close, close_calls_step.
  - intros Hminus.
    destruct (prepare_metrics_minus_one reward Hminus) as [Ha Hl'].
    assert (∀ key,
      sdict_get (metrics_of (Some reward)) key = Some 1 →
      logged_value key
        (interactions
           (logs
              (extra ++
               (as_log_key <$>
                ("numeric_reward", LVal (PyNum reward))
                :: ((λ kv : string * Z, (kv.1, LVal (PyInt kv.2)))
                      <$> metrics_of (Some reward))) ++ [LogGameEnd])
              (after_close
                 (after_check g response true info e' c log) e'' v)))
      = Some (LVal (PyInt 1))) as Hlogged.
    { intros key Hkey. unfold logs. cbn [interactions set_interactions].
      rewrite !logged_value_app. cbn [logged_value].
      rewrite fmap_cons. cbn [logged_value].
      rewrite logged_value_metrics by apply prepare_metrics_NoDup.
      by rewrite Hkey. }
    split; by apply Hlogged.
  - intros Htruthy. simpl. rewrite Htruthy.
    destruct (has_invalid_move (drop c log)); lia.
Qed.

End SinglePlayerFacts.

(** ** Choice of master and scorer *)

(** C8: a game specification that names no master (or no scorer) and whose
    player count is neither 1 nor 2 makes the construction of the benchmark
    fail - with the [ValueError] when the count is given - so that no game
    master is created and no environment is reset; with a count of 1 (of 2)
    and no explicit choice the single-player (two-player) master and scorer
    are selected. *)
Theorem benchmark_master_and_scorer_choice (game_spec : GameSpec) :
  (spec_players game_spec ≠ Some 1 → spec_players game_spec ≠ Some 2 →
   spec_master game_spec = None ∨ spec_scorer game_spec = None →
   ∃ e, TextArenaBenchmark_init game_spec = inl e
        ∧ (is_Some (spec_players game_spec) → ∃ msg, e = ValueError msg)) ∧
  (spec_master game_spec = None →
   (spec_players game_spec = Some 1 →
      select_master game_spec = inr "SinglePlayerMaster") ∧
   (spec_players game_spec = Some 2 →
      select_master game_spec = inr "TwoPlayerMaster")) ∧
  (spec_scorer game_spec = None →
   (spec_players game_spec = Some 1 →
      select_scorer game_spec = inr "SinglePlayerScorer") ∧
   (spec_players game_spec = Some 2 →
      select_scorer game_spec = inr "TwoPlayerScorer")) ∧
  (spec_master game_spec = None → spec_scorer game_spec = None →
   (spec_players game_spec = Some 1 →
      TextArenaBenchmark_init game_spec
      = inr {| master_class := MasterClass "SinglePlayerMaster";
               scorer_class := ScorerClass "SinglePlayerScorer" |}) ∧
   (spec_players game_spec = Some 2 →
      TextArenaBenchmark_init game_spec
      = inr {| master_class := MasterClass "TwoPlayerMaster";
               scorer_class := ScorerClass "TwoPlayerScorer" |})).
Proof.
  destruct game_spec as [master scorer players].
  unfold TextArenaBenchmark_init, select_master, select_scorer, players_of.
  cbn [spec_master spec_scorer spec_players].
  split; [|split; [|split]].
  - intros H1 H2 Hnone. unfold rbind, ret, raise.
    destruct players as [n|].
    + assert ((n =? 1)%Z = false) as Hn1 by (apply Z.eqb_neq; congruence).
      assert ((n =? 2)%Z = false) as Hn2 by (apply Z.eqb_neq; congruence).
      destruct master as [m|], scorer as [sc|];
        try (by destruct Hnone); rewrite ?Hn1, ?Hn2;
        (eexists; split; [reflexivity |]; intros _; by eexists).
    + destruct master as [m|], scorer as [sc|];
        try (by destruct Hnone);
        (eexists; split; [reflexivity |]; by intros [? ?]).
  - intros ->. split; intros ->; reflexivity.
  - intros ->. split; intros ->; reflexivity.
  - intros -> ->. split; intros ->; reflexivity.
Qed.

(** ** The properties at the example sessions *)

Lemma round_completes_iff_all_acted_witness :
  ∃ g',
    step ex_render ex_hook "move" ex_two_before_second_step
      = inr ((false, None), g') ∧
    ((played_in_round g' = ∅
      ∧ current_round g' = S (current_round ex_two_before_second_step))
     ↔ (size (played_in_round ex_two_before_second_step)
          = num_agents ex_two_before_second_step
        ∧ request_violation g' = false)) ∧
    (request_violation g' = true
     ∨ size (played_in_round ex_two_before_second_step)
         ≠ num_agents ex_two_before_second_step →
     played_in_round g' = played_in_round ex_two_before_second_step
     ∧ current_round g' = current_round ex_two_before_second_step).
Proof.
  eapply (round_completes_iff_all_acted ex_render ex_hook
            ex_two_before_second_step "move" None).
  - split; reflexivity.
  - reflexivity.
  - reflexivity.
  - reflexivity.
  - reflexivity.
Defined.

Lemma violation_flag_of_current_agent_window_witness :
  request_violation ex_one_finished_plain = true
  ↔ ∃ ob, ob ∈ drop 0 ex_one_log
          ∧ substring_of "attempted an invalid move" (obs_message ob).
Proof.
  refine (proj1 (violation_flag_of_current_agent_window ex_render ex_hook
                   ex_one_before_step ex_one_finished_plain "move"
                   (true, None) true None _ 0%nat ex_one_log _ _ _ _));
    [reflexivity | vm_compute; reflexivity ..].
Defined.


Lemma play_closes_exactly_once_witness :
  close_calls (env_calls ex_two_finished)
    = (close_calls (env_calls ex_two) + 1)%nat ∧
  done ex_two_finished = true.
Proof.
  assert (play ex_prompt ex_respond ex_render ex_hook 3 ex_two
          = inr (true, ex_two_finished)) as Hplay by reflexivity.
  destruct (play_closes_exactly_once _ _ _ _ _ _ _ _ Hplay)
    as (Hcount & Hdone & _).
  split; [exact Hcount | exact (Hdone eq_refl)].
Defined.

Lemma final_invalid_move_is_counted_witness :
  (violated_request_count ex_one_before_step
     < violated_request_count ex_one_finished_plain)%nat ∧
  played_in_round ex_one_finished_plain = played_in_round ex_one_before_step ∧
  current_round ex_one_finished_plain = current_round ex_one_before_step ∧
  done ex_one_finished_plain = true.
Proof.
  eapply (final_invalid_move_is_counted ex_render ex_hook ex_one_before_step
            ex_one_finished_plain "move" None _ _ _ 0 _ (PyBool true));
    reflexivity.
Defined.

Lemma observation_hides_own_actions_witness :
  ∃ ctx w',
    observation ex_prompt 0 (env ex_two_before_second_step) = inr (ctx, w') ∧
    content ctx
      = preamble ex_prompt 1
        +:+ join (render_line
                    (role_mapping (wrapped (env ex_two_before_second_step)))
                  <$> visible_to 0
                        (drop 1 [(-1, "Your turn", NARRATION);
                                 (0, "move-x", PLAYER_ACTION)])).
Proof.
  assert (logged_observation_count (env ex_two_before_second_step) !! 0
          = Some 1%nat) as Hcount by (vm_compute; reflexivity).
  assert (observations (wrapped (env ex_two_before_second_step)) !! 0
          = Some [(-1, "Your turn", NARRATION); (0, "move-x", PLAYER_ACTION)])
    as Hlog by (vm_compute; reflexivity).
  destruct (observation_hides_own_actions ex_prompt
              (env ex_two_before_second_step) 0 1 _ Hcount Hlog)
    as (ctx & w' & Hobs & Hcontent & _).
  exists ctx, w'. split; assumption.
Defined.

Lemma single_player_final_step_outcome_witness :
  close_calls (env_calls ex_one_finished)
    = S (close_calls (env_calls ex_one_before_step)) ∧
  logged_value "Aborted" (interactions ex_one_finished)
    = Some (LVal (PyInt 1)) ∧
  logged_value "Lose" (interactions ex_one_finished)
    = Some (LVal (PyInt 1)) ∧
  (1 ≤ violated_request_count ex_one_finished)%nat.
Proof.
  assert (close_calls (env_calls ex_one_finished)
            = S (close_calls (env_calls ex_one_before_step)) ∧
          (Qeq (inject_Z (-1)) (inject_Z (-1)) →
           logged_value "Aborted" (interactions ex_one_finished)
             = Some (LVal (PyInt 1)) ∧
           logged_value "Lose" (interactions ex_one_finished)
             = Some (LVal (PyInt 1))) ∧
          (truthy (PyBool true) = true →
           (violated_request_count ex_one_before_step
              < violated_request_count ex_one_finished)%nat ∧
           (1 ≤ violated_request_count ex_one_finished)%nat))
    as (Hclose & Hlogged & Hcount).
  { eapply (single_player_final_step_outcome ex_render
              "Aborted" "Success" "Lose" ex_one_before_step ex_one_finished
              "move" None _ _ _ (inject_Z (-1)) _ (PyBool true));
      reflexivity. }
  destruct (Hlogged ltac:(reflexivity)) as [Haborted Hlose].
  destruct (Hcount eq_refl) as [_ Hone].
  split; [exact Hclose |]. split; [exact Haborted |].
  split; [exact Hlose | exact Hone].
Defined.


Lemma acted_on_receiving_context_witness :
  ∃ p,
    odict_get (players_by_id ex_two) 0 = Some (APlayer p) ∧
    last_player ex_two_after_first_turn = Some (ta_id p).
Proof.
  assert (play_turn ex_prompt ex_respond ex_render ex_hook ex_two
          = inr ((false, None), ex_two_after_first_turn)) as Hturn
    by reflexivity.
  destruct (acted_on_receiving_context _ _ _ _ _ _ _ Hturn)
    as (p & ctx & w1 & response & Hslot & _ & _ & _ & _ & _ & _ & _ & _ & _
        & _ & _ & Hlast).
  exists p. split; assumption.
Defined.

Lemma benchmark_master_and_scorer_choice_witness :
  ∃ e,
    TextArenaBenchmark_init
      {| spec_master := None; spec_scorer := None; spec_players := Some 3 |}
      = inl e
    ∧ (is_Some (Some 3) → ∃ msg, e = ValueError msg).
Proof.
  apply (proj1 (benchmark_master_and_scorer_choice
                  {| spec_master := None; spec_scorer := None;
                     spec_players := Some 3 |})).
  - discriminate.
  - discriminate.
  - left. reflexivity.
Defined.

(** ** Where the code departs from the specification's wording *)


(** C7 as worded reads the reward -1 and the violation on the final move as
    one condition.  In [ex_lost] the last move is valid and loses the game:
    the reward is -1, aborted and lose are logged as 1, but no request
    violation is counted.  In [ex_flagged] the last move is marked invalid
    while the reward is 0: the violation is counted, but aborted is logged
    as 0.  So the claim fails under either reading of its condition. *)
Lemma final_violation_and_reward_counterexample :
  ¬ (∀ (g g' : TextArenaGameMaster Scripted) response info e' rewards e''
       reward,
       env_step response (wrapped (env g)) = inr (true, info, e') →
       env_close e' = inr (rewards, e'') →
       last_player g = Some 0 →
       rewards.1 !! 0 = Some reward →
       Qeq reward (inject_Z (-1)) →
       step ex_render ex_single_hook response g = inr ((true, info), g') →
       logged_value "Aborted" (interactions g') = Some (LVal (PyInt 1)) ∧
       logged_value "Lose" (interactions g') = Some (LVal (PyInt 1)) ∧
       (1 ≤ violated_request_count g')%nat ∧
       close_calls (env_calls g') = S (close_calls (env_calls g))) ∧
  ¬ (∀ (g g' : TextArenaGameMaster Scripted) response info e' rewards e''
       d v,
       env_step response (wrapped (env g)) = inr (true, info, e') →
       env_close e' = inr (rewards, e'') →
       last_player g = Some 0 →
       rewards.2 !! 0 = Some d →
       d !! "invalid_move" = Some v →
       truthy v = true →
       step ex_render ex_single_hook response g = inr ((true, info), g') →
       logged_value "Aborted" (interactions g') = Some (LVal (PyInt 1)) ∧
       logged_value "Lose" (interactions g') = Some (LVal (PyInt 1)) ∧
       (1 ≤ violated_request_count g')%nat ∧
       close_calls (env_calls g') = S (close_calls (env_calls g))).
Proof.
  split.
  - intros Hclaim.
    assert (1 ≤ violated_request_count ex_lost_finished)%nat as Hcount.
    { eapply (Hclaim ex_lost_before_step ex_lost_finished "move" None _ _ _
                (inject_Z (-1))); reflexivity. }
    vm_compute in Hcount. lia.
  - intros Hclaim.
    assert (logged_value "Aborted" (interactions ex_flagged_finished)
            = Some (LVal (PyInt 1))) as Haborted.
    { eapply (Hclaim ex_flagged_before_step ex_flagged_finished "move" None
                _ _ _ _ (PyBool true)); reflexivity. }
    vm_compute in Haborted. discriminate Haborted.
Qed.

(** C4 as worded has a second [close()] fail.  In the two-player example
    the session is played to its end and [step] is called once more: the
    environment reports [done] again, [close()] is called a second time and
    the step returns. *)
Lemma close_called_twice_counterexample :
  ¬ (∀ fuel (g g' g'' : TextArenaGameMaster Scripted) left response r,
       close_calls (env_calls g) = 0%nat →
       play ex_prompt ex_respond ex_render ex_hook fuel g = inr (left, g') →
       step ex_render ex_hook response g' = inr (r, g'') →
       (close_calls (env_calls g'') ≤ 1)%nat).
Proof.
  intros Hclaim.
  assert (close_calls (env_calls ex_two_stepped_again) ≤ 1)%nat as Hle.
  { apply (Hclaim 3%nat ex_two ex_two_finished ex_two_stepped_again true
             "again" (true, Some "game over")); reflexivity. }
  vm_compute in Hle. lia.
Qed.

(** * Further properties of the code *)

(** ** The observation wrapper: missing cursors and repeated calls *)

Section WrapperMore.
Context {E : Type} `{Env E}.
Variable STANDARD_GAME_PROMPT : string.

Lemma zero_counts_lookup_iff n (p : Z) :
  zero_counts n !! p = Some 0%nat ↔ (0 ≤ p < Z.of_nat n)%Z.
Proof.
  unfold zero_counts. split.
  - intros Hl. apply elem_of_list_to_map_2, list_elem_of_fmap in Hl.
    destruct Hl as [i [Hi Hin]]. apply elem_of_seq in Hin.
    injection Hi as ->. lia.
  - intros Hp. apply elem_of_list_to_map_1.
    + rewrite <- list_fmap_compose. apply NoDup_fmap_2; [|apply NoDup_seq].
      intros i j Hij. simpl in Hij. lia.
    + apply list_elem_of_fmap. exists (Z.to_nat p). split.
      * f_equal. lia.
      * apply elem_of_seq. lia.
Qed.

Lemma zero_counts_lookup_None n (p : Z) :
  ¬ (0 ≤ p < Z.of_nat n)%Z → zero_counts n !! p = None.
Proof.
  intros Hp. destruct (zero_counts n !! p) as [c|] eqn:Hc; [|done].
  pose proof (zero_counts_lookup _ _ _ Hc) as ->.
  apply zero_counts_lookup_iff in Hc. done.
Qed.

(** X1: on a freshly made wrapper for [n] players, [observation] returns
    exactly for the player ids 0 .. n-1 whose log the environment holds;
    for any other id it raises [KeyError] with that id. *)
Theorem observation_needs_cursor_and_log (e : E) n (p : Z) :
  ((0 ≤ p < Z.of_nat n)%Z ∧ is_Some (observations e !! p) →
   ∃ ctx w', observation STANDARD_GAME_PROMPT p (ClemObservationWrapper_init e n)
             = inr (ctx, w')) ∧
  (¬ ((0 ≤ p < Z.of_nat n)%Z ∧ is_Some (observations e !! p)) →
   observation STANDARD_GAME_PROMPT p (ClemObservationWrapper_init e n)
   = inl (KeyError (pretty p))).
Proof.
  split.
  - intros [Hp [log Hlog]]. apply zero_counts_lookup_iff in Hp.
    eexists _, _. by eapply observation_returns.
  - intros Hnot. unfold observation, _convert_obs_to_context, rbind,
      lookup_or_KeyError. simpl.
    destruct (decide (0 ≤ p < Z.of_nat n)%Z) as [Hp|Hp].
    + apply zero_counts_lookup_iff in Hp. rewrite Hp.
      destruct (observations e !! p) as [log|] eqn:Hlog; [|done].
      exfalso. apply Hnot. split; [by apply zero_counts_lookup_iff | eauto].
    + by rewrite zero_counts_lookup_None.
Qed.

(** X2: two calls of [observation] for the same player with no move of the
    environment in between: the second call hands out nothing - its content
    is empty when the first call had events to hand out, and the bare
    preamble otherwise - and leaves the wrapper as the first call left it. *)
Theorem observation_twice_in_a_row (w w1 : ClemObservationWrapper E) p ctx1 :
  observation STANDARD_GAME_PROMPT p w = inr (ctx1, w1) →
  ∃ ctx2,
    observation STANDARD_GAME_PROMPT p w1 = inr (ctx2, w1) ∧
    content ctx2 = (if decide (cursor w1 p = 0%nat)
                    then STANDARD_GAME_PROMPT +:+ nl +:+ nl else "") ∧
    (new_events w p ≠ [] → content ctx2 = "") ∧
    (cursor w p ≤ length (log_of w p) → cursor w1 p = length (log_of w p))%nat.
Proof.
  intros Hobs. pose proof Hobs as Hobs'.
  apply observation_inv in Hobs' as (count & log & Hc & Hl).
  rewrite (observation_returns _ _ _ _ _ Hc Hl) in Hobs.
  injection Hobs as _ Hw1. symmetry in Hw1.
  set (c1 := (count + length (drop count log))%nat) in *.
  assert (drop c1 log = []) as Hnil.
  { apply drop_ge. unfold c1. rewrite length_drop. lia. }
  assert (cursor w1 p = c1) as Hcur.
  { subst w1. unfold cursor. simpl. by rewrite lookup_insert_eq. }
  exists {| role := "user"; content := preamble STANDARD_GAME_PROMPT c1 |}.
  split; [|split; [|split]].
  - subst w1. erewrite observation_returns;
      [| simpl; apply lookup_insert_eq | simpl; exact Hl].
    fold c1. rewrite Hnil. simpl.
    by rewrite insert_insert_eq, Nat.add_0_r, append_nil_r.
  - rewrite Hcur. cbn [content]. unfold preamble.
    destruct (Nat.eqb_spec c1 0) as [Hz|Hnz];
      [by rewrite decide_True | by rewrite decide_False].
  - unfold new_events, cursor, log_of, unseen. rewrite Hc, Hl. simpl.
    intros Hne. unfold preamble.
    assert (c1 ≠ 0%nat) as Hc1.
    { unfold c1. destruct (drop count log); [done | simpl; lia]. }
    cbn [content]. by destruct (Nat.eqb_spec c1 0).
  - rewrite Hcur. unfold cursor, log_of. rewrite Hc, Hl. simpl.
    intros Hle. unfold c1. rewrite length_drop. lia.
Qed.

End WrapperMore.

(** ** The game master: set-up, errors, bookkeeping *)

Section GameMasterMore.
Context {E : Type} `{Env E}.
Local Abbreviation GM := (TextArenaGameMaster E).
Variable STANDARD_GAME_PROMPT : string.
Variable generate_response : TextArenaPlayer → result string.
Variable render_rewards : gmap string PyVal → string.
Variable _on_after_game : GM → Rewards → result (list (string * LogVal)).
Local Abbreviation step' := (step render_rewards _on_after_game).
Local Abbreviation _after_game' := (_after_game render_rewards _on_after_game).
Local Abbreviation play_turn' :=
  (play_turn STANDARD_GAME_PROMPT generate_response render_rewards _on_after_game).
Local Abbreviation play' :=
  (play STANDARD_GAME_PROMPT generate_response render_rewards _on_after_game).

Lemma setup_players_keys i pairs k s :
  (k, s) ∈ setup_players i pairs →
  (Z.of_nat i ≤ k < Z.of_nat (i + length pairs))%Z.
Proof.
  revert i. induction pairs as [|[spec model] pairs IH]; intros i; simpl.
  - by intros ?%elem_of_nil.
  - intros [[= -> _] | Hin%IH]%elem_of_cons; lia.
Qed.

Lemma odict_get_app_fresh {V} (d1 d2 : odict V) k :
  (∀ k' v', (k', v') ∈ d1 → k' ≠ k) →
  odict_get (d1 ++ d2) k = odict_get d2 k.
Proof.
  induction d1 as [|[k0 v0] d1 IH]; intros Hfresh; simpl; [done |].
  destruct (Z.eqb_spec k0 k) as [->|Hne].
  - exfalso. by eapply (Hfresh k v0); [apply list_elem_of_here |].
  - apply IH. intros k' v' Hin. apply (Hfresh k' v').
    by apply list_elem_of_further.
Qed.

Lemma odict_get_setup_players i pairs j spec model :
  pairs !! j = Some (spec, model) →
  odict_get (setup_players i pairs) (Z.of_nat (i + j))
  = Some (APlayer (setup_player spec model (i + j))).
Proof.
  revert i j. induction pairs as [|[spec0 model0] pairs IH]; intros i j;
    [done |].
  destruct j as [|j]; simpl.
  - intros [= -> ->]. rewrite Nat.add_0_r, Z.eqb_refl. done.
  - intros Hj. destruct (Z.eqb_spec (Z.of_nat i) (Z.of_nat (i + S j))); [lia |].
    replace (i + S j)%nat with (S i + j)%nat by lia. by apply IH.
Qed.

Lemma odict_get_setup_players_None i pairs k :
  ¬ (Z.of_nat i ≤ k < Z.of_nat (i + length pairs))%Z →
  odict_get (setup_players i pairs) k = None.
Proof.
  revert i. induction pairs as [|[spec model] pairs IH]; intros i Hk; simpl;
    [done |].
  simpl in Hk. destruct (Z.eqb_spec (Z.of_nat i) k); [lia |].
  apply IH. lia.
Qed.

Lemma setup_players_agents i pairs :
  length (filter (λ kv : Z * Slot, is_agent kv.2 = true) (setup_players i pairs))
    = length pairs ∧
  length (filter (λ kv : Z * Slot, is_agent kv.2 = false) (setup_players i pairs))
    = 0%nat.
Proof.
  revert i. induction pairs as [|[spec model] pairs IH]; intros i; [done |].
  simpl. rewrite !filter_cons. simpl. destruct (IH (S i)) as [-> ->]. done.
Qed.

(** What the loop of [setup] does to a game master whose roster only has
    keys below [i]. *)
Lemma add_players_returns pairs i (g : GM) :
  (∀ k s, (k, s) ∈ players_by_id g → (k < Z.of_nat i)%Z) →
  ∃ g', add_players i pairs g = inr (tt, g') ∧
    players_by_id g' = (players_by_id g ++ setup_players i pairs)%list ∧
    (∀ k, checked_observations g' !! k
          = if decide (Z.of_nat i ≤ k < Z.of_nat (i + length pairs))%Z
            then Some 0%nat else checked_observations g !! k) ∧
    env g' = env g ∧ env_calls g' = env_calls g ∧
    played_in_round g' = played_in_round g ∧ last_player g' = last_player g ∧
    started g' = started g ∧ done g' = done g ∧
    request_violation g' = request_violation g ∧
    current_round g' = current_round g ∧
    violated_request_count g' = violated_request_count g.
Proof.
  revert i g. induction pairs as [|[spec model] pairs IH]; intros i g Hkeys.
  - exists g. simpl. rewrite app_nil_r. repeat split; try done.
    intros k. rewrite decide_False by lia. done.
  - cbn [add_players]. unfold mbind at 1.
    set (g1 := logs [LogPlayer ("Player " +:+ pretty (Z.of_nat i))
                       (spec_role spec) model]
                 (set_checked_observations
                    (<[Z.of_nat i := 0%nat]> (checked_observations g))
                    (set_players_by_id
                       (players_by_id g
                        ++ [(Z.of_nat i, APlayer (setup_player spec model i))])
                       g))).
    assert (add_player (new_player spec model (Z.of_nat i)) (Z.of_nat i) g
            = inr (tt, g1)) as ->.
    { unfold add_player, mbind, mmodify, record. simpl.
      rewrite odict_set_fresh; [by destruct g |].
      intros k' v' Hin Heq. apply Hkeys in Hin. lia. }
    destruct (IH (S i) g1) as (g' & Hrun & Hps & Hck & Hrest).
    { simpl. intros k s [Hin | Hin]%elem_of_app.
      - apply Hkeys in Hin. lia.
      - apply list_elem_of_singleton in Hin. injection Hin as -> _. lia. }
    exists g'. split; [exact Hrun |]. split.
    { rewrite Hps. simpl. by rewrite <- app_assoc. }
    split; [|exact Hrest].
    intros k. rewrite Hck.
    change (checked_observations g1)
      with (<[Z.of_nat i := 0%nat]> (checked_observations g)).
    change (length ((spec, model) :: pairs)) with (S (length pairs)).
    destruct (decide (k = Z.of_nat i)) as [->|Hne].
    + rewrite lookup_insert_eq. repeat case_decide; (done || lia).
    + rewrite lookup_insert_ne by done. repeat case_decide; (done || lia).
Qed.

Lemma setup_returns made player_models player_specs seed e1 :
  let n := length player_models in
  let pairs := zip (effective_specs player_specs n) player_models in
  env_reset n seed made = inr e1 →
  ∃ g, setup made player_models player_specs seed = inr (tt, g) ∧
    env g = {| wrapped := e1; logged_observation_count := zero_counts n |} ∧
    players_by_id g = (-1, GMName "GM") :: setup_players 0 pairs ∧
    (∀ k, checked_observations g !! k
          = if decide (0 ≤ k < Z.of_nat (length pairs))%Z
            then Some 0%nat else None) ∧
    env_calls g = [CallReset n seed] ∧
    played_in_round g = ∅ ∧ last_player g = None ∧
    started g = true ∧ done g = false ∧
    request_violation g = false ∧
    current_round g = 0%nat ∧ violated_request_count g = 0%nat.
Proof.
  intros n pairs Hreset. unfold setup. fold n.
  unfold mbind at 1. unfold mmodify at 1. unfold mbind at 1.
  unfold call_env_reset, mbind at 1, mmodify at 1, mbind at 1, mget at 1,
    mbind at 1, mlift at 1. simpl. rewrite Hreset. simpl.
  match goal with
  | |- ∃ g, add_players 0 _ ?g1 = _ ∧ _ =>
      destruct (add_players_returns pairs 0 g1)
        as (g' & Hrun & Hps & Hck & Henv & Hcalls & Hpl & Hlp & Hst & Hdn
            & Hrv & Hcr & Hvc)
  end.
  { simpl. intros k s Hin%list_elem_of_singleton. injection Hin as -> _. lia. }
  exists g'. split; [exact Hrun |].
  rewrite Henv, Hps, Hcalls, Hpl, Hlp, Hst, Hdn, Hrv, Hcr, Hvc. simpl.
  repeat split; done.
Qed.


Lemma setup_inv made player_models player_specs seed u (g : GM) :
  setup made player_models player_specs seed = inr (u, g) →
  let n := length player_models in
  let pairs := zip (effective_specs player_specs n) player_models in
  ∃ e1, env_reset n seed made = inr e1 ∧
    env g = {| wrapped := e1; logged_observation_count := zero_counts n |} ∧
    players_by_id g = (-1, GMName "GM") :: setup_players 0 pairs ∧
    (∀ k, checked_observations g !! k
          = if decide (0 ≤ k < Z.of_nat (length pairs))%Z
            then Some 0%nat else None) ∧
    env_calls g = [CallReset n seed] ∧
    played_in_round g = ∅ ∧ last_player g = None.
Proof.
  intros Hsetup n pairs.
  destruct (env_reset n seed made) as [e|e1] eqn:Hreset.
  - exfalso. revert Hsetup. unfold setup. fold n.
    unfold mbind at 1. unfold mmodify at 1. unfold mbind at 1.
    unfold call_env_reset, mbind at 1, mmodify at 1, mbind at 1, mget at 1,
      mbind at 1, mlift at 1. simpl. by rewrite Hreset.
  - destruct (setup_returns made player_models player_specs seed e1 Hreset)
      as (g0 & Hrun & Henv & Hps & Hck & Hcalls & Hpl & Hlp & _).
    rewrite Hrun in Hsetup. injection Hsetup as _ <-.
    exists e1. repeat split; done.
Qed.


(** X5: [_check_move_validity] counts at most one violation per call,
    however many events of the window carry the marker, and moves the
    checked cursor to the end of the log: called again with no move of the
    environment in between it reports no violation and changes nothing. *)
Theorem check_move_validity_reports_once (g g1 : GM) v :
  _check_move_validity g = inr (v, g1) →
  violated_request_count g1 = (violated_request_count g + count_of v)%nat ∧
  _check_move_validity g1 = inr (false, g1).
Proof.
  intros Hcheck. pose proof Hcheck as Hcheck'.
  apply _check_move_validity_inv in Hcheck' as (c & log & Hc & Hl).
  rewrite (_check_move_validity_run g c log Hc Hl) in Hcheck.
  injection Hcheck as <- <-. cbv zeta.
  set (p := current_player_id (wrapped (env g))) in *.
  set (g0 := set_checked_observations
               (<[p := length log]> (checked_observations g)) g).
  split.
  - destruct (has_invalid_move (drop c log)); simpl; lia.
  - assert (∀ gx : GM,
              env gx = env g →
              checked_observations gx = <[p := length log]> (checked_observations g) →
              _check_move_validity gx = inr (false, gx)) as Hagain.
    { intros gx Henv Hck.
      rewrite (_check_move_validity_run gx (length log) log).
      - rewrite drop_all. simpl. f_equal. f_equal.
        rewrite Henv. fold p. rewrite Hck, insert_insert_eq, <- Hck.
        by destruct gx.
      - rewrite Henv. fold p. rewrite Hck. apply lookup_insert_eq.
      - by rewrite Henv. }
    destruct (has_invalid_move (drop c log)); by apply Hagain.
Qed.

(** X6: what a step adds to the violation counter: one if the checked
    window carries the marker, and - on the step that ends the episode -
    one more if the rewards mark the last actor's move as invalid; so a
    final invalid move whose marker is in the window is counted twice, and
    no step adds more than two. *)
Theorem step_counts_violations (g g' : GM) response r :
  step' response g = inr (r, g') →
  ∃ d info e' c log,
    env_step response (wrapped (env g)) = inr (d, info, e') ∧
    checked_observations g !! current_player_id e' = Some c ∧
    observations e' !! current_player_id e' = Some log ∧
    r = (d, info) ∧
    (d = false →
     violated_request_count g'
     = (violated_request_count g + count_of (has_invalid_move (drop c log)))%nat) ∧
    (d = true →
     ∃ rewards e'' lp dd v,
       env_close e' = inr (rewards, e'') ∧
       last_player g = Some lp ∧ rewards.2 !! lp = Some dd ∧
       dd !! "invalid_move" = Some v ∧
       violated_request_count g'
       = (violated_request_count g + count_of (has_invalid_move (drop c log))
          + count_of (truthy v))%nat) ∧
    (violated_request_count g' ≤ violated_request_count g + 2)%nat.
Proof.
  intros (d & info & e' & c & log & Hes & Hc & Hl & -> & Hrest)%step_inv.
  exists d, info, e', c, log. do 4 (split; [done |]).
  simpl in Hrest. destruct d.
  - apply _after_game_inv in Hrest
      as (rw & e'' & lp & d0 & v & details & kvs & extra
          & Hclose & Hlp & Hd & Hv & _ & ->).
    simpl in Hclose, Hlp.
    split; [done |]. split.
    + intros _. exists rw, e'', lp, d0, v. do 4 (split; [done |]).
      simpl. destruct (truthy v), (has_invalid_move (drop c log)); simpl; lia.
    + simpl. destruct (truthy v), (has_invalid_move (drop c log)); simpl; lia.
  - subst g'. split; [|split; [done |]].
    + intros _. destruct (round_complete _); simpl;
        destruct (has_invalid_move (drop c log)); simpl; lia.
    + destruct (round_complete _); simpl;
        destruct (has_invalid_move (drop c log)); simpl; lia.
Qed.

(** X7: the calls [play] makes on the environment: one [step] per turn and
    nothing else, except that [close] is the last call when the loop is
    left; the environment is never reset by [play]. *)
Theorem play_env_calls fuel (g g' : GM) left :
  play STANDARD_GAME_PROMPT generate_response render_rewards _on_after_game
    fuel g = inr (left, g') →
  ∃ actions,
    env_calls g'
    = ((if left then [CallClose] else []) ++ (CallStep <$> actions)
       ++ env_calls g)%list ∧
    (length actions ≤ fuel)%nat ∧
    (left = false → length actions = fuel) ∧
    (left = true → actions ≠ []).
Proof.
  revert g. induction fuel as [|fuel IH]; intros g.
  - intros [= <- <-]. exists []. by repeat split.
  - cbn [play]. intros (di & g1 & Hturn & Hk)%mbind_inv.
    apply play_turn_calls in Hturn as (_ & response & Hcalls).
    destruct di.1.
    + injection Hk as <- <-. exists [response]. rewrite Hcalls.
      repeat split; simpl; (done || lia).
    + apply IH in Hk as (actions & Hc & Hlen & Hfalse & Htrue).
      exists (actions ++ [response])%list. rewrite Hc, Hcalls.
      rewrite fmap_app, length_app. simpl.
      split; [by rewrite <- !app_assoc |].
      split; [lia |]. split.
      * intros Hl. rewrite (Hfalse Hl). lia.
      * intros _. by destruct actions.
Qed.

Lemma odict_get_set_other {V} (d : odict V) k v k' :
  k ≠ k' → odict_get (odict_set d k v) k' = odict_get d k'.
Proof.
  intros Hne. induction d as [|[k0 v0] d IH]; simpl.
  - destruct (Z.eqb_spec k k'); [done | done].
  - destruct (Z.eqb_spec k0 k) as [->|Hne0]; simpl.
    + destruct (Z.eqb_spec k k'); [done | done].
    + by rewrite IH.
Qed.

Lemma step_played (g g' : GM) response r :
  step' response g = inr (r, g') →
  played_in_round g' = played_in_round g ∨ played_in_round g' = ∅.
Proof.
  intros (d & info & e' & c & log & Hes & Hc & Hl & -> & Hrest)%step_inv.
  simpl in Hrest. destruct d.
  - apply _after_game_inv in Hrest
      as (rw & e'' & lp & d0 & v & details & kvs & extra & _ & _ & _ & _ & _ & ->).
    by left.
  - subst g'. destruct (round_complete _); [by right | by left].
Qed.

Lemma play_turn_roster_ids (g g' : GM) r :
  roster_ids_ok g → play_turn' g = inr (r, g') → roster_ids_ok g'.
Proof.
  intros [Hids Hacted] Hturn.
  destruct (play_turn_inv _ _ _ _ _ _ _ Hturn)
    as (p & ctx & w1 & response & Hslot & _ & _ & _ & Hstep).
  set (key := current_player_id (wrapped (env g))) in *.
  pose proof (step_players _ _ _ _ _ _ Hstep) as Hps.
  pose proof (step_played _ _ _ _ Hstep) as Hpl.
  cbn [after_response after_perceive logs set_interactions set_players_by_id
       players_by_id played_in_round] in Hps, Hpl.
  set (p2 := remember {| role := "assistant"; content := response |}
                      (remember ctx p)) in *.
  assert (ta_id p = key) as Hkey by by apply Hids.
  assert (∀ k, odict_get (players_by_id g') k
               = if decide (k = key) then Some (APlayer p2)
                 else odict_get (players_by_id g) k) as Hget.
  { intros k. rewrite Hps. destruct (decide (k = key)) as [->|Hne].
    - apply odict_get_set. rewrite odict_get_set; [by eexists |].
      by rewrite Hslot.
    - by rewrite !odict_get_set_other. }
  split.
  - intros k q. rewrite Hget. destruct (decide (k = key)) as [->|Hne].
    + intros [= <-]. exact Hkey.
    + apply Hids.
  - intros i Hi. rewrite Hget. destruct (decide (i = key)) as [->|Hne].
    + by eexists.
    + apply Hacted. destruct Hpl as [Hpl | Hpl]; rewrite Hpl in Hi.
      * apply elem_of_union in Hi as [Hi%elem_of_singleton | Hi]; [|done].
        congruence.
      * by apply not_elem_of_empty in Hi.
Qed.

Lemma acted_bound (d : odict Slot) (acted : gset Z) :
  (∀ i, i ∈ acted → ∃ p, odict_get d i = Some (APlayer p)) →
  (size acted ≤ length (filter (λ kv : Z * Slot, is_agent kv.2 = true) d))%nat.
Proof.
  revert acted. induction d as [|[k s] d IH]; intros acted Hacted.
  - assert (acted = ∅) as ->.
    { apply elem_of_equiv_empty_L. intros i Hi.
      destruct (Hacted i Hi) as [p Hp]. done. }
    by rewrite size_empty.
  - assert (size (acted ∖ {[k]})
            ≤ length (filter (λ kv : Z * Slot, is_agent kv.2 = true) d))%nat
      as Hrest.
    { apply IH. intros i [Hi Hne%not_elem_of_singleton]%elem_of_difference.
      destruct (Hacted i Hi) as [p Hp]. simpl in Hp.
      destruct (Z.eqb_spec k i); [congruence |]. eauto. }
    rewrite filter_cons.
    destruct (decide (k ∈ acted)) as [Hin|Hnotin].
    + destruct (Hacted k Hin) as [p Hp]. simpl in Hp.
      rewrite Z.eqb_refl in Hp. injection Hp as ->.
      rewrite decide_True by done. simpl.
      rewrite (union_difference_singleton_L k acted Hin).
      rewrite size_union.
      2:{ intros x Hx%elem_of_singleton [_ Hx']%elem_of_difference.
          by apply Hx', elem_of_singleton. }
      rewrite size_singleton. lia.
    + assert (acted ∖ {[k]} = acted) as Heq.
      { apply set_eq. intros x. rewrite elem_of_difference, elem_of_singleton.
        split; [by intros [? _] |]. intros Hx. split; [done | congruence]. }
      rewrite Heq in Hrest. case_decide; simpl; lia.
Qed.

(** X8: in a session that [setup] returned and [play] has driven for any
    number of turns, every player object sits under its own [ta_id] and the
    acted-set only holds keys of players; so the acted-set never has more
    members than there are agents. *)
Theorem acted_set_within_roster
    made player_models player_specs seed u (g0 g : GM) fuel left :
  setup made player_models player_specs seed = inr (u, g0) →
  play' fuel g0 = inr (left, g) →
  roster_ids_ok g ∧ (size (played_in_round g) ≤ num_agents g)%nat.
Proof.
  intros Hsetup Hplay.
  assert (roster_ids_ok g0) as Hinit.
  { destruct (setup_inv _ _ _ _ _ _ Hsetup)
      as (e1 & _ & _ & Hps & _ & _ & Hpl & _).
    split.
    - intros k p. rewrite Hps. cbn [odict_get].
      destruct (Z.eqb_spec (-1) k); [done |].
      set (pairs := zip _ _).
      destruct (decide (0 ≤ k < Z.of_nat (length pairs))%Z) as [Hin|Hout].
      + destruct (pairs !! Z.to_nat k) as [[spec model]|] eqn:Hpair.
        2:{ apply lookup_ge_None in Hpair. lia. }
        pose proof (odict_get_setup_players 0 pairs _ _ _ Hpair) as Hget.
        rewrite Nat.add_0_l, Z2Nat.id in Hget by lia. rewrite Hget.
        intros [= <-]. simpl. lia.
      + rewrite odict_get_setup_players_None by (simpl; lia). done.
    - intros i. rewrite Hpl. by intros ?%not_elem_of_empty. }
  assert (roster_ids_ok g) as Hok.
  { clear Hsetup. revert g0 Hinit Hplay.
    induction fuel as [|fuel IH]; intros g0 Hinit.
    - by intros [= _ <-].
    - cbn [play]. intros (di & g1 & Hturn & Hk)%mbind_inv.
      pose proof (play_turn_roster_ids _ _ _ Hinit Hturn) as Hok1.
      destruct di.1.
      + by injection Hk as _ <-.
      + by eapply IH. }
  split; [exact Hok |]. apply acted_bound. apply Hok.
Qed.

Lemma reward_loop_details ps numeric details (g g' : GM) details' :
  reward_loop render_rewards ps numeric details g = inr (details', g') →
  (∀ k, k ∈ rewarded_keys ps →
        ∃ d r, details !! k = Some d ∧ numeric !! k = Some r ∧
               details' !! k = Some (<["reward" := PyNum r]> d)) ∧
  (∀ k, k ∉ rewarded_keys ps → details' !! k = details !! k).
Proof.
  revert details g. induction ps as [|[k0 slot] ps IH]; intros details g;
    cbn [reward_loop].
  - intros [= <- <-]. split; [by intros k ?%elem_of_nil | done].
  - unfold rewarded_keys. cbn [fmap list_fmap fst]. rewrite filter_cons.
    fold (rewarded_keys ps).
    destruct (Z.eqb_spec k0 (-1)) as [->|Hne].
    + rewrite decide_False by (intros Hx; by apply Hx). apply IH.
    + rewrite decide_True by done.
      intros (pr & g1 & Hpr & Hk)%mbind_inv.
      apply mbind_inv in Hk as (r0 & g2 & Hr & Hk).
      apply mbind_inv in Hk as (u & g3 & _ & Hk).
      unfold mlift, lookup_or_KeyError in Hpr, Hr.
      destruct (details !! k0) as [d0|] eqn:Hd0; [|done].
      destruct (numeric !! k0) as [rr|] eqn:Hr0; [|done].
      injection Hpr as <- <-. injection Hr as <- <-.
      apply IH in Hk as [Hin Hout].
      assert (details' !! k0 = Some (<["reward" := PyNum rr]> d0)) as Hk0.
      { destruct (decide (k0 ∈ rewarded_keys ps)) as [Hk0|Hk0].
        - destruct (Hin k0 Hk0) as (d & r & Hd & Hr & ->).
          rewrite lookup_insert_eq in Hd. injection Hd as <-.
          rewrite Hr0 in Hr. injection Hr as <-.
          by rewrite insert_insert_eq.
        - rewrite (Hout k0 Hk0). apply lookup_insert_eq. }
      split.
      * intros k [-> | Hk]%elem_of_cons; [by eauto |].
        destruct (decide (k = k0)) as [->|Hkne]; [by eauto |].
        destruct (Hin k Hk) as (d & r & Hd & Hr & Hd').
        rewrite lookup_insert_ne in Hd by done. eauto.
      * intros k [Hkne Hk]%not_elem_of_cons.
        rewrite (Hout k Hk). by rewrite lookup_insert_ne.
Qed.

(** What [_after_game] did when it returns, with what it logged. *)
Lemma reward_loop_to_self ps numeric details (g g' : GM) details' :
  reward_loop render_rewards ps numeric details g = inr (details', g') →
  ∃ extra, g' = logs extra g ∧ Forall (λ r, is_to_self r = true) extra.
Proof.
  revert details g. induction ps as [|[player_id slot] ps IH];
    intros details g; cbn [reward_loop].
  - intros [= <- <-]. exists []. by rewrite logs_nil.
  - destruct (player_id =? -1)%Z; [apply IH |].
    intros (pr & g1 & Hpr & Hk)%mbind_inv.
    apply mbind_inv in Hk as (r & g2 & Hr & Hk).
    apply mbind_inv in Hk as (u & g3 & Hlog & Hk).
    apply IH in Hk as (extra & -> & Hextra).
    unfold mlift in Hpr, Hr.
    destruct (lookup_or_KeyError details player_id); [done |].
    destruct (lookup_or_KeyError numeric player_id); [done |].
    injection Hpr as <- <-. injection Hr as <- <-.
    unfold log_to_self in Hlog. rewrite record_run in Hlog.
    injection Hlog as _ <-.
    eexists. rewrite logs_logs. split; [reflexivity |].
    by apply Forall_cons.
Qed.

Lemma _after_game_inv_full (g g' : GM) u :
  _after_game' g = inr (u, g') →
  ∃ rewards e'' lp d v msg p details extra kvs,
    env_close (wrapped (env g)) = inr (rewards, e'') ∧
    last_player g = Some lp ∧
    rewards.2 !! lp = Some d ∧
    d !! "reason" = Some (PyStr msg) ∧
    d !! "invalid_move" = Some v ∧
    odict_get (players_by_id g) (current_player_id e'') = Some (APlayer p) ∧
    (∀ k, k ∈ rewarded_keys (players_by_id g) →
          ∃ dk r, rewards.2 !! k = Some dk ∧ rewards.1 !! k = Some r ∧
                  details !! k = Some (<["reward" := PyNum r]> dk)) ∧
    (∀ k, k ∉ rewarded_keys (players_by_id g) → details !! k = rewards.2 !! k) ∧
    Forall (λ r, is_to_self r = true) extra ∧
    _on_after_game
      (logs ([LogEvent "GM" (name p) "send message" ("[GAME] " +:+ msg)]
             ++ extra
             ++ [LogKey "ta_reward" (LReward rewards.1);
                 LogKey "ta_reward_details" (LDetails details)])
            (after_close g e'' v))
      (rewards.1, details) = inr kvs ∧
    g' = logs ([LogEvent "GM" (name p) "send message" ("[GAME] " +:+ msg)]
               ++ extra
               ++ [LogKey "ta_reward" (LReward rewards.1);
                   LogKey "ta_reward_details" (LDetails details)]
               ++ (as_log_key <$> kvs) ++ [LogGameEnd])
              (after_close g e'' v).
Proof.
  unfold _after_game.
  intros (rewards & g1 & Hclose & Hk)%mbind_inv.
  unfold call_env_close, mbind, mmodify, mget, mlift, mret in Hclose.
  simpl in Hclose.
  destruct (env_close (wrapped (env g))) as [|[rw e'']] eqn:Hec; [done |].
  simpl in Hclose. injection Hclose as <- <-.
  apply mbind_inv in Hk as (d & g2 & Hd & Hk).
  unfold last_player_details, mbind, mget, mlift in Hd. simpl in Hd.
  destruct (last_player g) as [lp|] eqn:Hlp; [|done].
  unfold lookup_or_KeyError in Hd.
  destruct (rw.2 !! lp) as [d0|] eqn:Hd0; [|done].
  injection Hd as <- <-.
  apply mbind_inv in Hk as (reason & g3 & Hreason & Hk).
  unfold dict_item in Hreason.
  destruct (d0 !! "reason") as [rv|] eqn:Hrv; [|done].
  injection Hreason as <- <-.
  apply mbind_inv in Hk as (last_message & g4 & Hmsg & Hk).
  destruct rv as [| | |msg]; try done. injection Hmsg as <- <-.
  apply mbind_inv in Hk as (d1 & g5 & Hd1 & Hk).
  unfold last_player_details, mbind, mget, mlift in Hd1. simpl in Hd1.
  rewrite Hlp in Hd1. unfold lookup_or_KeyError in Hd1. rewrite Hd0 in Hd1.
  injection Hd1 as <- <-.
  apply mbind_inv in Hk as (v & g6 & Hv & Hk).
  unfold dict_item in Hv.
  destruct (d0 !! "invalid_move") as [v0|] eqn:Hv0; [|done].
  injection Hv as <- <-.
  apply mbind_inv in Hk as (u1 & g7 & Hcount & Hk).
  assert (g7 = after_close g e'' v0) as ->.
  { unfold after_close. destruct (truthy v0).
    - unfold count_request_violation, mmodify in Hcount.
      by injection Hcount as _ <-.
    - by injection Hcount as _ <-. }
  clear Hcount.
  apply mbind_inv in Hk as (cur & g8 & Hcur & Hk).
  unfold get_current_player, mbind, mget in Hcur.
  destruct (odict_get _ _) as [slot|] eqn:Hslot; [|done].
  injection Hcur as <- <-.
  apply mbind_inv in Hk as (to & g9 & Hto & Hk).
  destruct slot as [|p]; [done |]. injection Hto as <- <-.
  apply mbind_inv in Hk as (u2 & g10 & Hev & Hk).
  unfold log_event in Hev. rewrite record_run in Hev. injection Hev as _ <-.
  apply mbind_inv in Hk as (gg & g11 & Hget & Hk).
  injection Hget as <- <-.
  apply mbind_inv in Hk as (details & g12 & Hloop & Hk).
  pose proof (reward_loop_details _ _ _ _ _ _ Hloop) as [Hin Hout].
  apply reward_loop_to_self in Hloop as (extra1 & -> & Hextra).
  apply mbind_inv in Hk as (u3 & g13 & Hk1 & Hk).
  unfold log_key in Hk1. rewrite record_run in Hk1. injection Hk1 as _ <-.
  apply mbind_inv in Hk as (u4 & g14 & Hk2 & Hk).
  unfold log_key in Hk2. rewrite record_run in Hk2. injection Hk2 as _ <-.
  apply mbind_inv in Hk as (gh & g15 & Hget & Hk).
  injection Hget as <- <-.
  apply mbind_inv in Hk as (kvs & g16 & Hhook & Hk).
  unfold mlift in Hhook.
  destruct (_on_after_game _ _) as [|kvs0] eqn:Hh; [done |].
  injection Hhook as <- <-.
  apply mbind_inv in Hk as (u5 & g17 & Hkeys & Hk).
  rewrite log_keys_run in Hkeys. injection Hkeys as _ <-.
  unfold log_game_end in Hk. rewrite record_run in Hk. injection Hk as _ <-.
  exists rw, e'', lp, d0, v0, msg, p, details, extra1, kvs0.
  do 5 (split; [done |]). split; [exact Hslot |].
  split; [exact Hin |]. split; [exact Hout |]. split; [exact Hextra |].
  rewrite !logs_logs in Hh. split; [exact Hh |].
  rewrite !logs_logs. reflexivity.
Qed.

(** X9: when [_after_game] returns it has logged the key ["ta_reward"] with
    the numeric rewards and the key ["ta_reward_details"] with the details,
    in which every player's dict has gained the entry ["reward"] holding
    that player's numeric reward (the dicts of ids without a player are as
    [close()] returned them); what was logged before is kept, and the last
    record is the end of the game. *)
Theorem after_game_logs_rewards (g g' : GM) u :
  _after_game' g = inr (u, g') →
  ∃ rewards e'' details added,
    env_close (wrapped (env g)) = inr (rewards, e'') ∧
    interactions g' = (interactions g ++ added ++ [LogGameEnd])%list ∧
    LogKey "ta_reward" (LReward rewards.1) ∈ added ∧
    LogKey "ta_reward_details" (LDetails details) ∈ added ∧
    (∀ k, k ∈ rewarded_keys (players_by_id g) →
          ∃ dk r, rewards.2 !! k = Some dk ∧ rewards.1 !! k = Some r ∧
                  details !! k = Some (<["reward" := PyNum r]> dk)) ∧
    (∀ k, k ∉ rewarded_keys (players_by_id g) → details !! k = rewards.2 !! k).
Proof.
  intros Hgame. apply _after_game_inv_full in Hgame
    as (rw & e'' & lp & d & v & msg & p & details & extra & kvs
        & Hclose & _ & _ & _ & _ & _ & Hin & Hout & _ & _ & ->).
  exists rw, e'', details.
  exists ([LogEvent "GM" (name p) "send message" ("[GAME] " +:+ msg)]
          ++ extra
          ++ [LogKey "ta_reward" (LReward rw.1);
              LogKey "ta_reward_details" (LDetails details)]
          ++ (as_log_key <$> kvs))%list.
  split; [done |]. split.
  { unfold logs. cbn [interactions set_interactions after_close].
    by rewrite <- !app_assoc. }
  split; [|split; [|split; [exact Hin | exact Hout]]].
  - rewrite !elem_of_app. right. right. left. apply list_elem_of_here.
  - rewrite !elem_of_app. right. right. left.
    apply list_elem_of_further, list_elem_of_here.
Qed.

(** X10: a step that ends the episode while no agent has yet been handed a
    context (the last actor is still [None]) raises [KeyError]: the
    end-of-game code looks the last actor up in the reward details. *)
Theorem step_done_without_last_actor_raises
    (g : GM) response info e' c log rewards e'' :
  env_step response (wrapped (env g)) = inr (true, info, e') →
  checked_observations g !! current_player_id e' = Some c →
  observations e' !! current_player_id e' = Some log →
  env_close e' = inr (rewards, e'') →
  last_player g = None →
  step render_rewards _on_after_game response g = inl (KeyError "None").
Proof.
  intros Hes Hc Hl Hclose Hlp.
  rewrite (step_unfold _ _ _ _ _ _ _ _ _ Hes Hc Hl). cbn [negb].
  unfold mbind at 1. unfold _after_game. unfold mbind at 1.
  assert (call_env_close (after_check g response true info e' c log)
          = inr (rewards,
                 set_env {| wrapped := e'';
                            logged_observation_count :=
                              logged_observation_count (env g) |}
                   (set_env_calls
                      (CallClose :: CallStep response :: env_calls g)
                      (after_check g response true info e' c log)))) as ->.
  { unfold call_env_close, mbind, mmodify, mget, mlift, mret.
    cbn [env wrapped after_check logs set_interactions set_env_calls].
    rewrite Hclose. reflexivity. }
  unfold mbind at 1. unfold last_player_details at 1, mbind at 1, mget at 1.
  cbn [last_player set_env set_env_calls after_check logs set_interactions].
  rewrite Hlp. reflexivity.
Qed.

End GameMasterMore.

(** ** The outcome metrics *)

Section MetricsFacts.
Variables METRIC_ABORTED METRIC_SUCCESS METRIC_LOSE BENCH_SCORE : string.
Local Abbreviation master_metrics :=
  (SinglePlayerMaster_prepare_metrics METRIC_ABORTED METRIC_SUCCESS METRIC_LOSE).
Local Abbreviation scorer_metrics :=
  (init_metrics METRIC_ABORTED METRIC_SUCCESS METRIC_LOSE BENCH_SCORE).

Lemma Qeq_bool_minus_one_zero r :
  Qeq_bool r 0 = true → Qeq_bool r (inject_Z (-1)) = false.
Proof.
  intros Hz%Qeq_bool_iff. destruct (Qeq_bool r (inject_Z (-1))) eqn:Hm; [|done].
  apply Qeq_bool_iff in Hm. rewrite Hz in Hm. discriminate Hm.
Qed.

Lemma Qeq_bool_one_zero r :
  Qeq_bool r 0 = true → Qeq_bool r (inject_Z 1) = false.
Proof.
  intros Hz%Qeq_bool_iff. destruct (Qeq_bool r (inject_Z 1)) eqn:Hm; [|done].
  apply Qeq_bool_iff in Hm. rewrite Hz in Hm. discriminate Hm.
Qed.

Lemma Qeq_bool_minus_one_one r :
  Qeq_bool r (inject_Z (-1)) = true → Qeq_bool r (inject_Z 1) = false.
Proof.
  intros Hz%Qeq_bool_iff. destruct (Qeq_bool r (inject_Z 1)) eqn:Hm; [|done].
  apply Qeq_bool_iff in Hm. rewrite Hz in Hm. discriminate Hm.
Qed.

(** The master's metrics without the [if numeric_reward:] guard. *)
Lemma master_metrics_unguarded r :
  master_metrics (Some r)
  = if Qeq_bool r (inject_Z (-1)) then
      sdict_set (sdict_set (prepare_metrics METRIC_ABORTED METRIC_SUCCESS METRIC_LOSE)
                   METRIC_ABORTED 1) METRIC_LOSE 1
    else if Qeq_bool r (inject_Z 1) then
      sdict_set (prepare_metrics METRIC_ABORTED METRIC_SUCCESS METRIC_LOSE)
        METRIC_SUCCESS 1
    else prepare_metrics METRIC_ABORTED METRIC_SUCCESS METRIC_LOSE.
Proof.
  unfold SinglePlayerMaster_prepare_metrics. cbn [truthy].
  destruct (Qeq_bool r 0) eqn:Hz; cbn [negb]; [|done].
  by rewrite (Qeq_bool_minus_one_zero r Hz), (Qeq_bool_one_zero r Hz).
Qed.

(** The three outcome values, by the numeric reward. *)
Lemma master_metrics_values (numeric_reward : option Q) :
  METRIC_SUCCESS ≠ METRIC_ABORTED → METRIC_SUCCESS ≠ METRIC_LOSE →
  sdict_get (master_metrics numeric_reward) METRIC_ABORTED
    = Some (flag (reward_is numeric_reward (-1))) ∧
  sdict_get (master_metrics numeric_reward) METRIC_LOSE
    = Some (flag (reward_is numeric_reward (-1))) ∧
  sdict_get (master_metrics numeric_reward) METRIC_SUCCESS
    = Some (flag (reward_is numeric_reward 1)).
Proof.
  intros Hsa Hsl.
  assert (String.eqb METRIC_SUCCESS METRIC_ABORTED = false) as Esa
    by by apply String.eqb_neq.
  assert (String.eqb METRIC_SUCCESS METRIC_LOSE = false) as Esl
    by by apply String.eqb_neq.
  assert (String.eqb METRIC_ABORTED METRIC_SUCCESS = false) as Eas
    by (rewrite String.eqb_sym; exact Esa).
  assert (String.eqb METRIC_LOSE METRIC_SUCCESS = false) as Els
    by (rewrite String.eqb_sym; exact Esl).
  destruct numeric_reward as [r|]; cbn [reward_is].
  - rewrite master_metrics_unguarded. unfold prepare_metrics.
    destruct (Qeq_bool r (inject_Z (-1))) eqn:Hm.
    + rewrite (Qeq_bool_minus_one_one r Hm).
      rewrite !sdict_get_set, !String.eqb_refl, ?Els, ?Eas. cbn [flag].
      destruct (String.eqb METRIC_LOSE METRIC_ABORTED); cbn [sdict_get];
        repeat split; done.
    + destruct (Qeq_bool r (inject_Z 1)) eqn:Ho.
      * rewrite !sdict_get_set, !String.eqb_refl, ?Esl, ?Esa, ?Els. cbn [flag].
        destruct (String.eqb METRIC_LOSE METRIC_ABORTED); cbn [sdict_get];
          repeat split; done.
      * rewrite !sdict_get_set, !String.eqb_refl, ?Esl, ?Esa, ?Els, ?Eas.
        cbn [flag].
        destruct (String.eqb METRIC_LOSE METRIC_ABORTED); cbn [sdict_get];
          repeat split; done.
  - unfold SinglePlayerMaster_prepare_metrics, prepare_metrics.
    rewrite !sdict_get_set, !String.eqb_refl, ?Esl, ?Esa, ?Els, ?Eas. cbn [flag].
    destruct (String.eqb METRIC_LOSE METRIC_ABORTED); cbn [sdict_get];
      repeat split; done.
Qed.

(** X11: the values [SinglePlayerMaster.prepare_metrics] gives the three
    outcome keys, by the numeric reward, when the success key differs from
    the other two: aborted and lose are 1 exactly for the reward -1, success
    is 1 exactly for the reward 1; any other reward - 0 and no reward
    included - leaves all three at 0, so the [if numeric_reward:] guard
    changes nothing, and success is never set together with aborted. *)
Theorem single_player_metrics_by_reward (numeric_reward : option Q) :
  METRIC_SUCCESS ≠ METRIC_ABORTED → METRIC_SUCCESS ≠ METRIC_LOSE →
  sdict_get (master_metrics numeric_reward) METRIC_ABORTED
    = Some (flag (reward_is numeric_reward (-1))) ∧
  sdict_get (master_metrics numeric_reward) METRIC_LOSE
    = Some (flag (reward_is numeric_reward (-1))) ∧
  sdict_get (master_metrics numeric_reward) METRIC_SUCCESS
    = Some (flag (reward_is numeric_reward 1)) ∧
  ¬ (sdict_get (master_metrics numeric_reward) METRIC_SUCCESS = Some 1 ∧
     sdict_get (master_metrics numeric_reward) METRIC_ABORTED = Some 1).
Proof.
  intros Hsa Hsl.
  destruct (master_metrics_values numeric_reward Hsa Hsl) as (Ha & Hl & Hs).
  split; [exact Ha |]. split; [exact Hl |]. split; [exact Hs |].
  rewrite Ha, Hs. intros [[= Hone] [= Hminus]].
  destruct numeric_reward as [r|]; cbn [reward_is] in Hone, Hminus.
  - destruct (Qeq_bool r (inject_Z (-1))) eqn:Hm; [|discriminate Hminus].
    rewrite (Qeq_bool_minus_one_one r Hm) in Hone. discriminate Hone.
  - discriminate Hone.
Qed.

(** X12: [init_metrics] of metrics.py and [SinglePlayerMaster.prepare_metrics]
    of submasters.py give every key other than the bench score's the same
    value, for every numeric reward and for none; and while the bench score's
    key is none of the outcome keys, [init_metrics] leaves the bench score
    [nan] for no reward and for -1, sets it to 100 for the reward 1 and to
    the product with 100 for any other reward - 0 included, where the
    master's guard is false. *)
Theorem init_metrics_agrees_with_master (numeric_reward : option Q) :
  (∀ key, key ≠ BENCH_SCORE →
     sdict_get (scorer_metrics numeric_reward) key
     = MInt <$> sdict_get (master_metrics numeric_reward) key) ∧
  (BENCH_SCORE ∉ [METRIC_ABORTED; METRIC_SUCCESS; METRIC_LOSE] →
   sdict_get (scorer_metrics numeric_reward) BENCH_SCORE
   = Some (match numeric_reward with
           | None => MNaN
           | Some r =>
               if Qeq_bool r (inject_Z (-1)) then MNaN
               else if Qeq_bool r (inject_Z 1) then MInt 100
               else MTimes100 r
           end)).
Proof.
  split.
  - intros key Hkey.
    assert (String.eqb BENCH_SCORE key = false) as Eb.
    { apply String.eqb_neq. congruence. }
    destruct numeric_reward as [r|].
    + rewrite master_metrics_unguarded. unfold init_metrics, prepare_metrics.
      destruct (Qeq_bool r (inject_Z (-1)));
        [|destruct (Qeq_bool r (inject_Z 1))];
        rewrite !sdict_get_set, ?Eb;
        destruct (String.eqb METRIC_LOSE key), (String.eqb METRIC_ABORTED key),
          (String.eqb METRIC_SUCCESS key); reflexivity.
    + unfold init_metrics, SinglePlayerMaster_prepare_metrics, prepare_metrics.
      rewrite !sdict_get_set, ?Eb.
      destruct (String.eqb METRIC_LOSE key), (String.eqb METRIC_ABORTED key),
          (String.eqb METRIC_SUCCESS key); reflexivity.
  - intros Hb.
    assert (String.eqb METRIC_ABORTED BENCH_SCORE = false) as Ea.
    { apply String.eqb_neq. intros ->. apply Hb. apply list_elem_of_here. }
    assert (String.eqb METRIC_SUCCESS BENCH_SCORE = false) as Es.
    { apply String.eqb_neq. intros ->. apply Hb.
      apply list_elem_of_further, list_elem_of_here. }
    assert (String.eqb METRIC_LOSE BENCH_SCORE = false) as El.
    { apply String.eqb_neq. intros ->. apply Hb.
      do 2 apply list_elem_of_further. apply list_elem_of_here. }
    unfold init_metrics.
    destruct numeric_reward as [r|].
    + destruct (Qeq_bool r (inject_Z (-1)));
        [|destruct (Qeq_bool r (inject_Z 1))];
        by rewrite !sdict_get_set, ?String.eqb_refl, ?Ea, ?Es, ?El.
    + by rewrite !sdict_get_set, ?String.eqb_refl, ?Ea, ?Es, ?El.
Qed.

End MetricsFacts.


(** ** From the master's log to the scorer *)

Section ScoringFacts.
Context {E : Type} `{Env E}.
Local Abbreviation GM := (TextArenaGameMaster E).
Variable render_rewards : gmap string PyVal → string.
Variables METRIC_ABORTED METRIC_SUCCESS METRIC_LOSE : string.
Local Abbreviation single_hook :=
  (SinglePlayerMaster_on_after_game (E := E)
     METRIC_ABORTED METRIC_SUCCESS METRIC_LOSE).
Local Abbreviation two_hook :=
  (TwoPlayerMaster_on_after_game (E := E)
     METRIC_ABORTED METRIC_SUCCESS METRIC_LOSE).
Local Abbreviation metrics_of :=
  (SinglePlayerMaster_prepare_metrics METRIC_ABORTED METRIC_SUCCESS METRIC_LOSE).

Lemma get_auxiliaries_from (ep : string → option LogVal) keys acc k :
  sdict_get
    (foldl (λ aux key,
              match ep key with
              | Some v => sdict_set aux key v
              | None => aux
              end) acc keys) k
  = if decide (k ∈ keys) then
      match ep k with Some v => Some v | None => sdict_get acc k end
    else sdict_get acc k.
Proof.
  revert acc. induction keys as [|key keys IH]; intros acc; [done |].
  cbn [foldl]. rewrite IH.
  destruct (decide (k ∈ keys)) as [Hin|Hnin].
  - rewrite decide_True by (by apply list_elem_of_further).
    destruct (ep k) as [v|] eqn:Hk; [done |].
    destruct (ep key) as [v'|] eqn:Hkey; [|done].
    rewrite sdict_get_set.
    destruct (String.eqb_spec key k) as [->|]; [congruence | done].
  - destruct (decide (k = key)) as [->|Hne].
    + rewrite decide_True by apply list_elem_of_here.
      destruct (ep key) as [v'|]; [|done].
      by rewrite sdict_get_set, String.eqb_refl.
    + rewrite decide_False
        by (intros [?|?]%elem_of_cons; [congruence | done]).
      destruct (ep key) as [v'|]; [|done].
      rewrite sdict_get_set.
      destruct (String.eqb_spec key k) as [->|]; [congruence | done].
Qed.

Lemma get_auxiliaries_get keys (ep : string → option LogVal) k :
  sdict_get (get_auxiliaries keys ep) k
  = if decide (k ∈ keys) then ep k else None.
Proof.
  unfold get_auxiliaries. rewrite get_auxiliaries_from. cbn [sdict_get].
  destruct (decide (k ∈ keys)); [by destruct (ep k) | done].
Qed.

Lemma prepare_metrics_keys_NoDup numeric_reward :
  NoDup (metrics_of numeric_reward).*1.
Proof.
  assert (NoDup (prepare_metrics METRIC_ABORTED METRIC_SUCCESS METRIC_LOSE).*1)
    as Hbase.
  { unfold prepare_metrics. do 3 apply sdict_set_keys_NoDup. apply NoDup_nil_2. }
  unfold SinglePlayerMaster_prepare_metrics.
  destruct numeric_reward as [r|]; [|done].
  destruct (truthy (PyNum r)); [|done].
  destruct (Qeq_bool r (inject_Z (-1))).
  - by do 2 apply sdict_set_keys_NoDup.
  - destruct (Qeq_bool r (inject_Z 1)); [|done].
    by apply sdict_set_keys_NoDup.
Qed.

Lemma metrics_keys numeric_reward key :
  is_Some (sdict_get (metrics_of numeric_reward) key)
  ↔ key ∈ [METRIC_ABORTED; METRIC_SUCCESS; METRIC_LOSE].
Proof.
  assert (∀ (d : sdict Z) k v,
            is_Some (sdict_get (sdict_set d k v) key)
            ↔ key = k ∨ is_Some (sdict_get d key)) as Hset.
  { intros d k v. rewrite sdict_get_set.
    destruct (String.eqb_spec k key) as [->|Hne].
    - split; [by left | by eexists].
    - split; [by right | intros [->|?]; done]. }
  assert (is_Some (sdict_get (prepare_metrics METRIC_ABORTED METRIC_SUCCESS
                                METRIC_LOSE) key)
          ↔ key ∈ [METRIC_ABORTED; METRIC_SUCCESS; METRIC_LOSE]) as Hbase.
  { unfold prepare_metrics. rewrite !Hset. cbn [sdict_get].
    rewrite !elem_of_cons, elem_of_nil.
    split.
    - intros [->|[->|[->|[? [=]]]]]; auto.
    - intros [->|[->|[->|[]]]]; auto. }
  unfold SinglePlayerMaster_prepare_metrics.
  destruct numeric_reward as [r|]; [|exact Hbase].
  destruct (truthy (PyNum r)); [|exact Hbase].
  destruct (Qeq_bool r (inject_Z (-1))).
  - rewrite !Hset, Hbase, !elem_of_cons. tauto.
  - destruct (Qeq_bool r (inject_Z 1)); [|exact Hbase].
    rewrite !Hset, Hbase, !elem_of_cons. tauto.
Qed.

(** What the final step of a single-player session leaves under the logged
    keys. *)
Lemma single_player_step_logged
    (g g' : GM) response info e' rewards e'' reward :
  env_step response (wrapped (env g)) = inr (true, info, e') →
  env_close e' = inr (rewards, e'') →
  rewards.1 !! 0 = Some reward →
  step render_rewards single_hook response g = inr ((true, info), g') →
  (∀ key z, sdict_get (metrics_of (Some reward)) key = Some z →
     logged_value key (interactions g') = Some (LVal (PyInt z))) ∧
  (sdict_get (metrics_of (Some reward)) "numeric_reward" = None →
   logged_value "numeric_reward" (interactions g')
   = Some (LVal (PyNum reward))) ∧
  (sdict_get (metrics_of (Some reward)) "ta_reward" = None →
   logged_value "ta_reward" (interactions g') = Some (LReward rewards.1)).
Proof.
  intros Hes Hclose Hrw Hstep.
  apply step_inv in Hstep
    as (d2 & info2 & e2 & c & log & Hes2 & Hc & Hl & [= <- <-] & Hrest).
  rewrite Hes in Hes2. injection Hes2 as <-. cbv zeta in Hrest.
  apply _after_game_inv_full in Hrest
    as (rw & e3 & lp & d & v & msg & p & details & extra & kvs
        & Hclose3 & _ & _ & _ & _ & _ & _ & _ & _ & Hhook & ->).
  cbn [after_check logs env wrapped set_interactions] in Hclose3.
  rewrite Hclose in Hclose3. injection Hclose3 as <- <-.
  unfold SinglePlayerMaster_on_after_game, reward_for_player, rbind in Hhook.
  cbn [fst snd] in Hhook. rewrite Hrw in Hhook.
  destruct (details !! 0) as [d0|]; [|done].
  injection Hhook as <-.
  assert (∀ key,
    logged_value key
      (as_log_key <$>
         ("numeric_reward", LVal (PyNum reward))
         :: ((λ kv : string * Z, (kv.1, LVal (PyInt kv.2)))
               <$> metrics_of (Some reward)))
    = match sdict_get (metrics_of (Some reward)) key with
      | Some z => Some (LVal (PyInt z))
      | None => if String.eqb "numeric_reward" key
                then Some (LVal (PyNum reward)) else None
      end) as Hkvs.
  { intros key. rewrite fmap_cons. cbn [logged_value].
    rewrite logged_value_metrics by apply prepare_metrics_keys_NoDup.
    by destruct (sdict_get (metrics_of (Some reward)) key). }
  split; [|split].
  - intros key z Hkey. unfold logs. cbn [interactions set_interactions].
    rewrite !logged_value_app. cbn [logged_value].
    by rewrite Hkvs, Hkey.
  - intros Hnone. unfold logs. cbn [interactions set_interactions].
    rewrite !logged_value_app. cbn [logged_value].
    by rewrite Hkvs, Hnone.
  - intros Hnone. unfold logs. cbn [interactions set_interactions].
    rewrite !logged_value_app. cbn [logged_value].
    by rewrite Hkvs, Hnone.
Qed.

(** X13: master and scorer of a single-player game, end to end.  The final
    step of the session has logged the outcome; the scorer, run on episode
    interactions that hold every logged key, returns [nan] as bench score
    when player 0's numeric reward is -1, and the reward times 100
    otherwise - whatever the [invalid_move] entry of the rewards says, and
    also for a reward of 0 or of 1 - provided the metric names are not
    confused: the success key differs from the other two and none of the
    three is ["numeric_reward"]. *)
Theorem single_player_bench_score
    (g g' : GM) response info e' rewards e'' reward
    (episode_interactions : string → option LogVal) :
  METRIC_SUCCESS ≠ METRIC_ABORTED → METRIC_SUCCESS ≠ METRIC_LOSE →
  "numeric_reward" ∉ [METRIC_ABORTED; METRIC_SUCCESS; METRIC_LOSE] →
  env_step response (wrapped (env g)) = inr (true, info, e') →
  env_close e' = inr (rewards, e'') →
  rewards.1 !! 0 = Some reward →
  step render_rewards single_hook response g = inr ((true, info), g') →
  (∀ key v, logged_value key (interactions g') = Some v →
            episode_interactions key = Some v) →
  SinglePlayerScorer_compute_episode_scores
    METRIC_ABORTED METRIC_SUCCESS METRIC_LOSE episode_interactions
  = inr (if Qeq_bool reward (inject_Z (-1)) then ScoreNaN
         else ScoreTimes100 reward).
Proof.
  intros Hsa Hsl Hnr Hes Hclose Hrw Hstep Hep.
  destruct (single_player_step_logged _ _ _ _ _ _ _ _ Hes Hclose Hrw Hstep)
    as (Hmetric & Hnum & Hta).
  destruct (master_metrics_values
              METRIC_ABORTED METRIC_SUCCESS METRIC_LOSE (Some reward) Hsa Hsl)
    as (Ha & Hl & _).
  cbn [reward_is] in Ha, Hl.
  assert (sdict_get (metrics_of (Some reward)) "numeric_reward" = None)
    as Hnone.
  { destruct (sdict_get (metrics_of (Some reward)) "numeric_reward") eqn:Hg;
      [|done].
    exfalso. apply Hnr. apply (metrics_keys (Some reward)). by eexists. }
  assert (episode_interactions "numeric_reward" = Some (LVal (PyNum reward)))
    as Hep_num by (apply Hep, Hnum, Hnone).
  assert (is_Some (episode_interactions "ta_reward")) as [ta Hep_ta].
  { destruct (sdict_get (metrics_of (Some reward)) "ta_reward") as [z|] eqn:Hg.
    - eexists. apply Hep. by apply Hmetric.
    - eexists. apply Hep. by apply Hta. }
  pose proof (Hep _ _ (Hmetric _ _ Ha)) as Hep_a.
  pose proof (Hep _ _ (Hmetric _ _ Hl)) as Hep_l.
  unfold SinglePlayerScorer_compute_episode_scores,
    SinglePlayerScorer_compute_bench_score, aux_item, rbind, ret.
  rewrite !get_auxiliaries_get.
  unfold SinglePlayerScorer_interaction_keys.
  rewrite decide_True
    by (do 3 apply list_elem_of_further; apply list_elem_of_here).
  rewrite Hep_num.
  rewrite decide_True
    by (do 4 apply list_elem_of_further; apply list_elem_of_here).
  rewrite Hep_ta.
  rewrite decide_True by (apply list_elem_of_further, list_elem_of_here).
  rewrite Hep_a.
  rewrite decide_True
    by (do 2 apply list_elem_of_further; apply list_elem_of_here).
  rewrite Hep_l.
  unfold eq_one, PyInt, flag.
  destruct (Qeq_bool reward (inject_Z (-1))); reflexivity.
Qed.

(** X14: the outcome a two-player session logs on its final step only
    depends on the [invalid_move] entry of the last actor's reward details:
    aborted = 1, lose = 1, success = 0 when it is truthy, and aborted = 0,
    lose = 0, success = 1 when it is not - whatever the numeric rewards
    are.  (The success key is assumed to differ from the other two.) *)
Theorem two_player_outcome_logged
    (g g' : GM) response info e' rewards e'' lp d v :
  METRIC_SUCCESS ≠ METRIC_ABORTED → METRIC_SUCCESS ≠ METRIC_LOSE →
  env_step response (wrapped (env g)) = inr (true, info, e') →
  env_close e' = inr (rewards, e'') →
  last_player g = Some lp →
  rewards.2 !! lp = Some d →
  d !! "invalid_move" = Some v →
  step render_rewards two_hook response g = inr ((true, info), g') →
  logged_value METRIC_ABORTED (interactions g')
    = Some (LVal (PyInt (flag (truthy v)))) ∧
  logged_value METRIC_LOSE (interactions g')
    = Some (LVal (PyInt (flag (truthy v)))) ∧
  logged_value METRIC_SUCCESS (interactions g')
    = Some (LVal (PyInt (flag (negb (truthy v))))).
Proof.
  intros Hsa Hsl Hes Hclose Hlp Hd Hv Hstep.
  assert (String.eqb METRIC_SUCCESS METRIC_ABORTED = false) as Esa
    by by apply String.eqb_neq.
  assert (String.eqb METRIC_SUCCESS METRIC_LOSE = false) as Esl
    by by apply String.eqb_neq.
  assert (String.eqb METRIC_ABORTED METRIC_SUCCESS = false) as Eas
    by (rewrite String.eqb_sym; exact Esa).
  assert (String.eqb METRIC_LOSE METRIC_SUCCESS = false) as Els
    by (rewrite String.eqb_sym; exact Esl).
  apply step_inv in Hstep
    as (d2 & info2 & e2 & c & log & Hes2 & Hc & Hl & [= <- <-] & Hrest).
  rewrite Hes in Hes2. injection Hes2 as <-. cbv zeta in Hrest.
  apply _after_game_inv_full in Hrest
    as (rw & e3 & lp3 & d3 & v3 & msg & p & details & extra & kvs
        & Hclose3 & Hlp3 & Hd3 & _ & Hv3 & _ & Hin & Hout & _ & Hhook & ->).
  cbn [after_check logs env wrapped set_interactions last_player] in Hclose3, Hlp3.
  rewrite Hclose in Hclose3. injection Hclose3 as <- <-.
  rewrite Hlp in Hlp3. injection Hlp3 as <-.
  rewrite Hd in Hd3. injection Hd3 as <-.
  rewrite Hv in Hv3. injection Hv3 as <-.
  assert (∃ d', details !! lp = Some d' ∧ d' !! "invalid_move" = Some v)
    as (d' & Hd' & Hv').
  { destruct (decide (lp ∈ rewarded_keys
                        (players_by_id
                           (after_check g response true info e' c log))))
      as [Hk|Hk].
    - destruct (Hin lp Hk) as (dk & r & Hdk & _ & Hdet).
      rewrite Hd in Hdk. injection Hdk as <-.
      eexists. split; [exact Hdet |].
      by rewrite lookup_insert_ne.
    - exists d. split; [|done]. by rewrite (Hout lp Hk). }
  unfold TwoPlayerMaster_on_after_game, lookup_or_KeyError, rbind in Hhook.
  cbn [logs after_close last_player set_interactions after_check fst snd]
    in Hhook.
  rewrite Hlp, Hd' in Hhook. unfold ret in Hhook. rewrite Hv' in Hhook.
  unfold logs. cbn [interactions set_interactions].
  rewrite !logged_value_app.
  destruct (truthy v); injection Hhook as <-;
    cbn [fmap list_fmap as_log_key logged_value fst snd negb flag];
    rewrite ?String.eqb_refl, ?Esa, ?Esl, ?Eas, ?Els;
    destruct (String.eqb METRIC_LOSE METRIC_ABORTED) eqn:Ela;
    rewrite ?(String.eqb_sym METRIC_ABORTED METRIC_LOSE), ?Ela;
    repeat split; reflexivity.
Qed.

(** X23: master and scorer of a two-player game, end to end.  After the
    final step of the session the scorer, run on episode interactions that
    hold every logged key, logs one episode score - ["ta_reward"], the
    numeric rewards as [close()] returned them - and returns [nan] as bench
    score, whatever the outcome was.  (None of the three outcome keys is
    assumed to be ["ta_reward"].) *)
Theorem two_player_scores
    (g g' : GM) response info e' rewards e''
    (episode_interactions : string → option LogVal) :
  "ta_reward" ∉ [METRIC_ABORTED; METRIC_SUCCESS; METRIC_LOSE] →
  env_step response (wrapped (env g)) = inr (true, info, e') →
  env_close e' = inr (rewards, e'') →
  step render_rewards two_hook response g = inr ((true, info), g') →
  (∀ key v, logged_value key (interactions g') = Some v →
            episode_interactions key = Some v) →
  TwoPlayerScorer_compute_episode_scores episode_interactions
  = inr ([("ta_reward", LReward rewards.1)], ScoreNaN).
Proof.
  intros Hkeys Hes Hclose Hstep Hep.
  assert (String.eqb METRIC_ABORTED "ta_reward" = false) as Ea.
  { apply String.eqb_neq. intros Heq. apply Hkeys. rewrite <- Heq.
    apply list_elem_of_here. }
  assert (String.eqb METRIC_SUCCESS "ta_reward" = false) as Es.
  { apply String.eqb_neq. intros Heq. apply Hkeys. rewrite <- Heq.
    apply list_elem_of_further, list_elem_of_here. }
  assert (String.eqb METRIC_LOSE "ta_reward" = false) as El.
  { apply String.eqb_neq. intros Heq. apply Hkeys. rewrite <- Heq.
    do 2 apply list_elem_of_further. apply list_elem_of_here. }
  apply step_inv in Hstep
    as (d2 & info2 & e2 & c & log & Hes2 & Hc & Hl & [= <- <-] & Hrest).
  rewrite Hes in Hes2. injection Hes2 as <-. cbv zeta in Hrest.
  apply _after_game_inv_full in Hrest
    as (rw & e3 & lp3 & d3 & v3 & msg & p & details & extra & kvs
        & Hclose3 & _ & _ & _ & _ & _ & _ & _ & _ & Hhook & ->).
  cbn [after_check logs env wrapped set_interactions] in Hclose3.
  rewrite Hclose in Hclose3. injection Hclose3 as <- <-.
  assert (logged_value "ta_reward"
            (interactions
               (logs
                  ([LogEvent "GM" (name p) "send message" ("[GAME] " +:+ msg)]
                   ++ extra
                   ++ [LogKey "ta_reward" (LReward rewards.1);
                       LogKey "ta_reward_details" (LDetails details)]
                   ++ (as_log_key <$> kvs) ++ [LogGameEnd])
                  (after_close (after_check g response true info e' c log)
                     e'' v3)))
          = Some (LReward rewards.1)) as Hlogged.
  { unfold logs. cbn [interactions set_interactions].
    rewrite !logged_value_app.
    assert (logged_value "ta_reward" (as_log_key <$> kvs) = None) as ->.
    { unfold TwoPlayerMaster_on_after_game, lookup_or_KeyError, rbind in Hhook.
      cbn [fst snd] in Hhook.
      destruct (last_player _) as [lp|]; [|done].
      destruct (details !! lp) as [d|]; [|done]. unfold ret in Hhook.
      destruct (d !! "invalid_move") as [v|]; [|done].
      destruct (truthy v); injection Hhook as <-;
        cbn [fmap list_fmap as_log_key logged_value fst snd];
        by rewrite Ea, Es, El. }
    reflexivity. }
  apply Hep in Hlogged.
  unfold TwoPlayerScorer_compute_episode_scores, get_auxiliaries,
    TwoPlayerScorer_interaction_keys.
  cbn [foldl]. rewrite Hlogged. reflexivity.
Qed.

End ScoringFacts.


(** ** The Minesweeper master's opening move *)

Section MinesweeperFacts.
Context {E : Type} `{Env E}.
Local Abbreviation GM := (TextArenaGameMaster E).
Variable STANDARD_GAME_PROMPT : string.
Variable render_rewards : gmap string PyVal → string.
Variable _on_after_game : GM → Rewards → result (list (string * LogVal)).
Local Abbreviation step' := (step render_rewards _on_after_game).
Local Abbreviation before_game :=
  (MinesweeperMaster_on_before_game STANDARD_GAME_PROMPT render_rewards
     _on_after_game).

Lemma before_game_inv rows cols (g g' : GM) u :
  before_game rows cols g = inr (u, g') →
  let key := current_player_id (wrapped (env g)) in
  let move := faux_response rows cols in
  ∃ p ctx w1 r,
    odict_get (players_by_id g) key = Some (APlayer p) ∧
    observation STANDARD_GAME_PROMPT (ta_id p) (env g) = inr (ctx, w1) ∧
    step' move (after_response (after_perceive g w1 key p ctx) key p ctx move)
      = inr (r, g').
Proof.
  intros Hhook key move. unfold MinesweeperMaster_on_before_game in Hhook.
  apply mbind_inv in Hhook as (g0 & g1 & Hget & Hk).
  injection Hget as <- <-. fold key in Hk.
  apply mbind_inv in Hk as (pc & g2 & Hobs & Hk).
  unfold observe in Hobs.
  apply mbind_inv in Hobs as (slot & g3 & Hcur & Hobs).
  unfold get_current_player, mbind, mget in Hcur. fold key in Hcur.
  destruct (odict_get (players_by_id g) key) as [slot0|] eqn:Hslot; [|done].
  injection Hcur as <- <-.
  apply mbind_inv in Hobs as (ctx & g4 & Hctx & Hret).
  injection Hret as <- <-.
  destruct slot0 as [|p]; [done |].
  unfold get_context_for, mbind, mget, mlift, mmodify, mret in Hctx.
  destruct (observation STANDARD_GAME_PROMPT (ta_id p) (env g))
    as [|[ctx0 w1]] eqn:Hob; [done |].
  simpl in Hctx. injection Hctx as <- <-.
  cbn [fst snd] in Hk.
  apply mbind_inv in Hk as (p1 & g6 & Hperc & Hk).
  assert (perceive_context key p ctx0 (set_env w1 g)
          = inr (remember ctx0 p, after_perceive g w1 key p ctx0)) as Hpc
    by reflexivity.
  rewrite Hpc in Hperc. injection Hperc as <- <-.
  apply mbind_inv in Hk as (u1 & g8 & Hmod & Hk).
  injection Hmod as _ <-.
  apply mbind_inv in Hk as (u2 & g9 & Hlog & Hk).
  unfold log_event in Hlog. rewrite record_run in Hlog.
  injection Hlog as _ <-.
  apply mbind_inv in Hk as (r & g10 & Hstep & Hret).
  injection Hret as _ <-.
  exists p, ctx0, w1, r. split; [done |]. split; [done |]. exact Hstep.
Qed.

Lemma step_cursors (g g' : GM) response r :
  step' response g = inr (r, g') →
  logged_observation_count (env g') = logged_observation_count (env g).
Proof.
  intros (d & info & e' & c & log & Hes & Hc & Hl & -> & Hrest)%step_inv.
  cbv zeta in Hrest. destruct d.
  - by apply _after_game_inv in Hrest
      as (rw & e'' & lp & d0 & v & details & kvs & extra & _ & _ & _ & _ & _ & ->).
  - subst g'. by destruct (round_complete _).
Qed.

(** X15: the Minesweeper master's move before the game, on the session
    [setup] returned for one model.  When it returns, the environment's
    current player was player 0; the environment has been stepped once,
    with the centre cell [[rows//2 cols//2]] as action, and closed if that
    ended the episode; player 0 is the last actor and its memory holds the
    first context - the preamble and the whole initial log - followed by
    that move as its own answer; the wrapper's cursor stands at the end of
    the initial log.  Unless the episode ended, the session is in round 1
    with an empty acted-set when the move was accepted, and still in round 0
    with player 0 in the acted-set when it was rejected. *)
Theorem minesweeper_opening_move
    made model player_specs seed u (g0 g' : GM) rows cols u' :
  setup made [model] player_specs seed = inr (u, g0) →
  before_game rows cols g0 = inr (u', g') →
  let move := "[" +:+ pretty (rows / 2)%Z +:+ " " +:+ pretty (cols / 2)%Z +:+ "]" in
  ∃ spec log ctx,
    current_player_id (wrapped (env g0)) = 0 ∧
    observations (wrapped (env g0)) !! 0 = Some log ∧
    ctx = {| role := "user";
             content := STANDARD_GAME_PROMPT +:+ nl +:+ nl
                        +:+ join (render_line (role_mapping (wrapped (env g0)))
                                    <$> visible_to 0 log) |} ∧
    env_calls g'
    = ((if done g' then [CallClose] else [])
       ++ [CallStep move; CallReset 1 seed])%list ∧
    last_player g' = Some 0 ∧
    odict_get (players_by_id g') 0
    = Some (APlayer (remember {| role := "assistant"; content := move |}
                       (remember ctx (setup_player spec model 0)))) ∧
    messages (setup_player spec model 0) = [] ∧
    cursor (env g') 0 = length log ∧
    (done g' = false → request_violation g' = false →
     current_round g' = 1%nat ∧ played_in_round g' = ∅) ∧
    (done g' = false → request_violation g' = true →
     current_round g' = 0%nat ∧ played_in_round g' = {[0]}).
Proof.
  intros Hsetup Hhook move.
  destruct (setup_inv _ _ _ _ _ _ Hsetup) as (e1 & Hreset & _).
  destruct (setup_returns _ _ player_specs _ _ Hreset)
    as (g & Hsetup' & Henv & Hps & _ & Hcalls & Hplayed & Hlast & _ & _
        & _ & Hround & _).
  rewrite Hsetup in Hsetup'. injection Hsetup' as _ <-.
  cbn [length] in Henv, Hps, Hcalls.
  apply before_game_inv in Hhook as (p & ctx & w1 & r & Hslot & Hobs & Hstep).
  cbv zeta in Hslot, Hstep.
  set (cur := current_player_id (wrapped (env g0))) in *.
  rewrite Hps in Hslot. cbn [odict_get] in Hslot.
  destruct (-1 =? cur)%Z eqn:Hne; [discriminate Hslot |].
  destruct (effective_specs player_specs 1) as [|spec specs] eqn:Hspecs;
    [done |].
  cbn [zip zip_with setup_players odict_get] in Hslot, Hps.
  assert (zip_with pair specs (@nil string) = []) as Hnil by (by destruct specs).
  rewrite Hnil in Hslot, Hps. cbn [setup_players odict_get] in Hslot, Hps.
  destruct (Z.of_nat 0 =? cur)%Z eqn:Hcur; [|discriminate Hslot].
  apply Z.eqb_eq in Hcur.
  injection Hslot as <-. cbn [Z.of_nat] in Hcur.
  assert (ta_id (setup_player spec model 0) = 0) as Hta by reflexivity.
  rewrite Hta in Hobs.
  destruct (observation_inv _ _ _ _ _ Hobs) as (count & log & Hcount & Hlog).
  assert (count = 0%nat) as ->.
  { rewrite Henv in Hcount. cbn [logged_observation_count] in Hcount.
    rewrite (proj2 (zero_counts_lookup_iff 1 0)) in Hcount by lia.
    by injection Hcount as <-. }
  rewrite (observation_returns STANDARD_GAME_PROMPT 0 (env g0) 0 log Hcount Hlog)
    in Hobs.
  rewrite drop_0 in Hobs. unfold preamble in Hobs. cbn [Nat.eqb] in Hobs.
  rewrite !append_assoc in Hobs. injection Hobs as <- <-.
  exists spec, log. eexists. split; [by symmetry |].
  split; [exact Hlog |]. split; [reflexivity |].
  pose proof (step_effects _ _ _ _ _ _ Hstep) as (Hdone & Hcalls' & Hlast' & _).
  pose proof (step_players _ _ _ _ _ _ Hstep) as Hplayers.
  pose proof (step_cursors _ _ _ _ Hstep) as Hcursors.
  rewrite <- Hdone in Hcalls'.
  split.
  { rewrite Hcalls'. unfold after_response, logs, after_perceive.
    cbn [env_calls set_interactions set_players_by_id]. by rewrite Hcalls. }
  split; [by rewrite Hlast' |].
  split.
  { rewrite Hplayers. unfold after_response, logs, after_perceive.
    cbn [players_by_id set_interactions set_players_by_id].
    rewrite <- Hcur, Hps.
    cbn [odict_set odict_get Z.eqb Pos.eqb]. reflexivity. }
  split; [reflexivity |].
  split.
  { unfold cursor. rewrite Hcursors. unfold after_response, logs, after_perceive.
    cbn [env set_interactions set_players_by_id logged_observation_count].
    by rewrite lookup_insert_eq. }
  apply step_inv in Hstep
    as (d & info & e' & c & log' & Hes & Hc & Hl & -> & Hrest).
  cbv zeta in Hrest. cbn [fst] in Hdone.
  destruct d.
  { split; intros Hd; rewrite Hdone in Hd; discriminate Hd. }
  match type of Hrest with
  | context [after_check ?a ?b ?c ?d ?e ?f ?g] =>
      set (gc := after_check a b c d e f g) in Hrest
  end.
  assert (played_in_round gc = {[0]}) as Hpl.
  { unfold gc, after_check, logs, after_response, after_perceive. simpl.
    rewrite Hplayed. apply union_empty_r_L. }
  assert (current_round gc = 0%nat) as Hcr by exact Hround.
  assert (round_complete gc = negb (request_violation gc)) as Hrc.
  { unfold round_complete. rewrite Hpl, size_singleton.
    unfold gc, after_check, logs, after_response, after_perceive. simpl.
    rewrite <- Hcur, Hps. simpl. reflexivity. }
  rewrite Hrc in Hrest. subst g'.
  split; intros _ Hv.
  - destruct (request_violation gc) eqn:Hrv; cbn [negb] in *.
    + rewrite Hrv in Hv. discriminate Hv.
    + split; [|reflexivity].
      unfold next_round, logs.
      cbn [current_round set_interactions set_current_round set_played_in_round].
      by rewrite Hcr.
  - destruct (request_violation gc) eqn:Hrv; cbn [negb] in *.
    + split; [exact Hcr | exact Hpl].
    + unfold next_round, logs in Hv.
      cbn [request_violation set_interactions set_current_round
             set_played_in_round] in Hv.
      rewrite Hrv in Hv. discriminate Hv.
Qed.

End MinesweeperFacts.


(** ** The instance generator *)

Lemma length_append_string (a b : string) :
  String.length (a +:+ b) = (String.length a + String.length b)%nat.
Proof.
  induction a as [|ch a IH]; [done |]. rewrite append_cons. simpl. by rewrite IH.
Qed.

Lemma substring_0_all (b : string) : String.substring 0 (String.length b) b = b.
Proof. induction b as [|ch b IH]; [done |]. simpl. by rewrite IH. Qed.

Lemma substring_0_append (a b : string) :
  String.substring 0 (String.length a) (a +:+ b) = a.
Proof.
  induction a as [|ch a IH].
  - simpl. by destruct b.
  - rewrite append_cons. simpl. by rewrite IH.
Qed.

Lemma substring_skip_append (a b : string) m :
  String.substring (String.length a) m (a +:+ b) = String.substring 0 m b.
Proof. induction a as [|ch a IH]; [done |]. rewrite append_cons. simpl. exact IH. Qed.

Lemma substring_split (s : string) k :
  (k ≤ String.length s)%nat →
  s = String.substring 0 k s +:+ String.substring k (String.length s - k) s.
Proof.
  revert k. induction s as [|ch s IH]; intros k Hk.
  - simpl in Hk. assert (k = 0%nat) as -> by lia. done.
  - destruct k as [|k].
    + simpl. by rewrite substring_0_all.
    + simpl in Hk. simpl. rewrite append_cons. f_equal. apply IH. lia.
Qed.

Lemma endswith_append (name suffix : string) :
  endswith (name +:+ suffix) suffix = true.
Proof.
  unfold endswith. rewrite length_append_string.
  apply andb_true_intro. split; [apply Nat.leb_le; lia |].
  replace (String.length name + String.length suffix - String.length suffix)%nat
    with (String.length name) by lia.
  rewrite substring_skip_append, substring_0_all. apply String.eqb_refl.
Qed.

Lemma drop_last_append (name suffix : string) :
  drop_last (String.length suffix) (name +:+ suffix) = name.
Proof.
  unfold drop_last. rewrite length_append_string.
  replace (String.length name + String.length suffix - String.length suffix)%nat
    with (String.length name) by lia.
  apply substring_0_append.
Qed.

Lemma endswith_inv (s suffix : string) :
  endswith s suffix = true → s = drop_last (String.length suffix) s +:+ suffix.
Proof.
  unfold endswith, drop_last.
  intros [Hle Heq]%andb_prop. apply Nat.leb_le in Hle.
  apply String.eqb_eq in Heq.
  pose proof (substring_split s (String.length s - String.length suffix)) as Hs.
  replace (String.length s - (String.length s - String.length suffix))%nat
    with (String.length suffix) in Hs by lia.
  rewrite Heq in Hs. apply Hs. lia.
Qed.

Lemma sdict_update_snoc {V} (t d : sdict V) k v :
  sdict_update t (d ++ [(k, v)]) = sdict_set (sdict_update t d) k v.
Proof. unfold sdict_update. by rewrite foldl_app. Qed.

Lemma sdict_get_snoc {V} (d : sdict V) k v key :
  sdict_get (d ++ [(k, v)]) key
  = match sdict_get d key with
    | Some w => Some w
    | None => if String.eqb k key then Some v else None
    end.
Proof.
  induction d as [|[k0 v0] d IH]; [done |].
  cbn [app sdict_get]. by destruct (String.eqb k0 key).
Qed.

(** Updating a dict with the items of a dict. *)
Lemma sdict_get_update {V} (t d : sdict V) key :
  NoDup d.*1 →
  sdict_get (sdict_update t d) key
  = match sdict_get d key with
    | Some v => Some v
    | None => sdict_get t key
    end.
Proof.
  induction d as [|[k v] d IH] using rev_ind; [done |].
  rewrite fmap_app. cbn [fmap list_fmap fst].
  intros [Hnd [Hnotin _]]%NoDup_app.
  rewrite sdict_update_snoc, sdict_get_set, sdict_get_snoc, (IH Hnd).
  destruct (String.eqb_spec k key) as [->|Hne].
  - assert (sdict_get d key = None) as ->; [|done].
    apply sdict_get_None. intros Hin. apply (Hnotin key Hin).
    apply list_elem_of_here.
  - by destruct (sdict_get d key).
Qed.

(** X16: [TextArenaInstanceGenerator.generate_instances] adds [n_instances]
    game instances (none for a count of 0 or less); the one at position [i]
    has the seed [seed + i] - so the seeds within an experiment are
    consecutive, starting at the given seed - and the game id [i], unless the
    config has an entry of that name, which then replaces it; every other
    entry of the config is carried over. *)
Theorem generate_instances_ids_and_seeds n_instances config seed :
  NoDup config.*1 →
  let instances :=
    TextArenaInstanceGenerator_generate_instances n_instances config seed in
  length instances = Z.to_nat n_instances ∧
  ∀ (i : nat) game_instance, instances !! i = Some game_instance →
    sdict_get game_instance "seed" = Some (CfgInt (seed + Z.of_nat i)) ∧
    (sdict_get config "game_id" = None →
     sdict_get game_instance "game_id" = Some (CfgInt (Z.of_nat i))) ∧
    (∀ key v, key ≠ "seed" → sdict_get config key = Some v →
              sdict_get game_instance key = Some v).
Proof.
  intros Hnd instances. unfold instances,
    TextArenaInstanceGenerator_generate_instances.
  split; [by rewrite length_fmap, length_seqZ |].
  intros i game_instance Hi.
  apply list_lookup_fmap_Some in Hi as (z & -> & Hz).
  apply lookup_seqZ in Hz as [-> _].
  rewrite Z.add_0_l.
  unfold game_instance_of.
  split; [by rewrite sdict_get_set, String.eqb_refl |].
  split.
  - intros Hnone.
    rewrite sdict_get_set. cbn [String.eqb Ascii.eqb Bool.eqb].
    rewrite sdict_get_update by done. by rewrite Hnone.
  - intros key v Hkey Hv.
    rewrite sdict_get_set.
    destruct (String.eqb_spec "seed" key) as [<-|_]; [done |].
    rewrite sdict_get_update by done. by rewrite Hv.
Qed.

Section InstanceGeneratorFacts.
Variable ENV_REGISTRY : sdict EnvSpec.
Local Abbreviation on_generate' := (on_generate ENV_REGISTRY).

Lemma registry_config_instances entry_point player_specs n_instances seed
    ta_game kw :
  TextArenaInstanceGenerator_generate_instances n_instances
    (generate_config entry_point player_specs
       [("env_id", CfgStr ta_game); ("env_specs", CfgKwargs kw)]) seed
  = instances_of [("entry_point", CfgStr entry_point);
                  ("env_id", CfgStr ta_game);
                  ("env_specs", CfgKwargs kw)]
      player_specs n_instances seed.
Proof. by destruct player_specs as [[|s ss]|]. Qed.

Lemma dict_config_instances entry_point player_specs n_instances seed
    env_id kw :
  TextArenaInstanceGenerator_generate_instances n_instances
    (generate_config entry_point player_specs
       [("env_id", CfgStr env_id); ("register_env", CfgBool true);
        ("env_specs", CfgKwargs kw)]) seed
  = instances_of [("entry_point", CfgStr entry_point);
                  ("env_id", CfgStr env_id);
                  ("register_env", CfgBool true);
                  ("env_specs", CfgKwargs kw)]
      player_specs n_instances seed.
Proof. by destruct player_specs as [[|s ss]|]. Qed.

Lemma dict_fold entry_point game_name n_instances player_specs seed configs acc :
  foldl (dict_step entry_point game_name n_instances player_specs seed)
    acc configs
  = (acc ++ (dict_experiment entry_point game_name n_instances player_specs seed
               <$> configs))%list.
Proof.
  revert acc. induction configs as [|entry configs IH]; intros acc.
  - by rewrite app_nil_r.
  - cbn [foldl]. rewrite IH. unfold dict_step.
    rewrite dict_config_instances, <- app_assoc. reflexivity.
Qed.

(** What one pass over a registry entry adds. *)
Lemma registry_step_elem entry_point experiments n_instances player_specs seed
    acc entry e :
  e ∈ registry_step entry_point experiments n_instances player_specs seed
        acc entry
  ↔ e ∈ acc ∨
    ∃ name,
      entry.1 = name +:+ "-raw" ∧ reg_entry_point entry.2 = entry_point ∧
      (∀ names, experiments = ExpList names → name ∈ names) ∧
      e = registry_experiment entry_point n_instances player_specs seed
            name entry.2.
Proof.
  unfold registry_step.
  destruct (String.eqb_spec (reg_entry_point entry.2) entry_point) as [Hep|Hep];
    cbn [andb].
  2:{ split; [by left | intros [?|(name & _ & ? & _)]; done]. }
  destruct (endswith entry.1 "-raw") eqn:Hraw.
  2:{ split; [by left |]. intros [?|(name & Hname & _)]; [done |].
      rewrite Hname, endswith_append in Hraw. discriminate Hraw. }
  apply endswith_inv in Hraw. cbn [String.length] in Hraw.
  set (name := drop_last 4 entry.1) in *.
  assert (∀ name', entry.1 = name' +:+ "-raw" → name' = name) as Huniq.
  { intros name' Hn. unfold name. rewrite Hn.
    symmetry. apply (drop_last_append name' "-raw"). }
  rewrite registry_config_instances.
  assert ({| exp_name := name;
             game_instances :=
               instances_of
                 [("entry_point", CfgStr entry_point);
                  ("env_id", CfgStr entry.1);
                  ("env_specs", CfgKwargs (reg_kwargs entry.2))]
                 player_specs n_instances seed |}
          = registry_experiment entry_point n_instances player_specs seed
              name entry.2) as ->.
  { unfold registry_experiment. by rewrite <- Hraw. }
  destruct experiments as [|names|configs|v]; cbn [exp_is_list not_listed andb].
  - rewrite elem_of_app, list_elem_of_singleton.
    split; [intros [? | ->]; [by left | right] | intros [?|(n' & Hn & _ & _ & ->)]].
    + exists name. done.
    + by left.
    + right. by rewrite (Huniq n' Hn).
  - destruct (bool_decide_reflect (name ∈ names)) as [Hin|Hnin]; cbn [negb].
    + rewrite elem_of_app, list_elem_of_singleton.
      split; [intros [? | ->]; [by left | right]
             | intros [?|(n' & Hn & _ & _ & ->)]].
      * exists name. repeat split; try done. by intros ? [= <-].
      * by left.
      * right. by rewrite (Huniq n' Hn).
    + split; [by left |]. intros [?|(n' & Hn & _ & Hl & _)]; [done |].
      exfalso. apply Hnin. rewrite <- (Huniq n' Hn). by apply Hl.
  - rewrite elem_of_app, list_elem_of_singleton.
    split; [intros [? | ->]; [by left | right] | intros [?|(n' & Hn & _ & _ & ->)]].
    + exists name. done.
    + by left.
    + right. by rewrite (Huniq n' Hn).
  - rewrite elem_of_app, list_elem_of_singleton.
    split; [intros [? | ->]; [by left | right] | intros [?|(n' & Hn & _ & _ & ->)]].
    + exists name. done.
    + by left.
    + right. by rewrite (Huniq n' Hn).
Qed.

Lemma registry_fold_elem entry_point experiments n_instances player_specs seed
    registry acc e :
  e ∈ foldl (registry_step entry_point experiments n_instances player_specs seed)
        acc registry
  ↔ e ∈ acc ∨
    ∃ name spec,
      (name +:+ "-raw", spec) ∈ registry ∧ reg_entry_point spec = entry_point ∧
      (∀ names, experiments = ExpList names → name ∈ names) ∧
      e = registry_experiment entry_point n_instances player_specs seed
            name spec.
Proof.
  revert acc. induction registry as [|[ta_game spec0] registry IH]; intros acc.
  - cbn [foldl]. split; [by left |].
    intros [?|(name & spec & Hin & _)]; [done |]. by apply elem_of_nil in Hin.
  - cbn [foldl]. rewrite IH, registry_step_elem. cbn [fst snd]. split.
    + intros [[?|(name & -> & Hep & Hl & ->)]|(name & spec & Hin & Hep & Hl & ->)].
      * by left.
      * right. exists name, spec0. split; [apply list_elem_of_here | done].
      * right. exists name, spec. split; [by apply list_elem_of_further | done].
    + intros [?|(name & spec & Hin & Hep & Hl & ->)]; [by left; left |].
      apply elem_of_cons in Hin as [[= <- <-]|Hin].
      * left. right. exists name. done.
      * right. exists name, spec. done.
Qed.

(** X17: where [on_generate] stops, and what counts as no choice of
    experiments.  Without an entry point it raises [AssertionError],
    whatever else is given.  A truthy [experiments] that is neither a list
    nor a dict raises [ValueError].  An empty list selects nothing - no
    experiment is generated - while an empty dict, like any other falsy
    value, is the same as giving no [experiments] at all. *)
Theorem on_generate_edge_cases seed game_name experiments n_instances
    player_specs :
  on_generate' seed None game_name experiments n_instances player_specs
  = inl (AssertionError "entry_point must be specified in the game config!") ∧
  ∀ entry_point,
    (∀ v, truthy v = true →
       ∃ msg, on_generate' seed (Some entry_point) game_name (ExpOther v)
                n_instances player_specs = inl (ValueError msg)) ∧
    on_generate' seed (Some entry_point) game_name (ExpList []) n_instances
      player_specs = inr [] ∧
    (exp_truthy experiments = false → exp_is_list experiments = false →
     on_generate' seed (Some entry_point) game_name experiments n_instances
       player_specs
     = on_generate' seed (Some entry_point) game_name ExpNone n_instances
         player_specs).
Proof.
  split; [reflexivity |]. intros entry_point. split; [|split].
  - intros v Hv. unfold on_generate. cbn [exp_truthy exp_is_list].
    rewrite Hv. cbn [negb orb]. by eexists.
  - unfold on_generate. cbn [exp_truthy exp_is_list negb orb]. unfold ret.
    f_equal.
    assert (∀ e, e ∉ foldl (registry_step entry_point (ExpList [])
                              (default 1%Z n_instances) player_specs seed)
                         [] ENV_REGISTRY) as Hnone.
    { intros e [Hin|(name & spec & _ & _ & Hl & _)]%registry_fold_elem.
      - by apply elem_of_nil in Hin.
      - specialize (Hl [] eq_refl). by apply elem_of_nil in Hl. }
    destruct (foldl _ _ _) as [|e l]; [done |].
    exfalso. apply (Hnone e). apply list_elem_of_here.
  - intros Hfalsy Hnolist. unfold on_generate.
    rewrite Hfalsy, Hnolist. cbn [exp_truthy exp_is_list negb orb].
    unfold ret. f_equal. generalize (@nil Experiment).
    induction ENV_REGISTRY as [|entry registry IH]; intros acc; [done |].
    cbn [foldl]. rewrite <- IH. f_equal.
    unfold registry_step. rewrite Hnolist. reflexivity.
Qed.

(** X18: for a non-empty dict of experiments [on_generate] returns one
    experiment per entry of the dict, in the dict's order and under the
    entry's name, without reading the registry.  Each has [n_instances] game
    instances (one when the count is not given); the instance with game id
    [i] holds the entry point, the environment id [game_name-name], the
    request to register that environment, the entry's settings as
    environment specs, the player specs if any are given, and the seed
    [seed + i]. *)
Theorem on_generate_from_dict seed entry_point game_name config configs
    n_instances player_specs :
  on_generate' seed (Some entry_point) game_name (ExpDict (config :: configs))
    n_instances player_specs
  = inr (dict_experiment entry_point game_name (default 1%Z n_instances)
           player_specs seed <$> config :: configs).
Proof.
  unfold on_generate. cbn [exp_truthy exp_is_list negb orb].
  by rewrite dict_fold.
Qed.

(** X19: given no experiments, or a list of names, [on_generate] returns and
    the experiments it generates are those of the registry entries whose id
    is [name-raw] and whose entry point is the game's - restricted to the
    listed names when a list is given; the experiment is called [name], its
    instances carry the registry id [name-raw] as environment id and the
    registry's arguments as environment specs, and none asks to register an
    environment. *)
Theorem on_generate_from_registry seed entry_point game_name experiments
    n_instances player_specs :
  exp_truthy experiments = false ∨ exp_is_list experiments = true →
  ∃ generated,
    on_generate' seed (Some entry_point) game_name experiments n_instances
      player_specs = inr generated ∧
    (∀ e, e ∈ generated
          ↔ ∃ name spec,
              (name +:+ "-raw", spec) ∈ ENV_REGISTRY ∧
              reg_entry_point spec = entry_point ∧
              (∀ names, experiments = ExpList names → name ∈ names) ∧
              e = registry_experiment entry_point (default 1%Z n_instances)
                    player_specs seed name spec) ∧
    (∀ e game_instance, e ∈ generated → game_instance ∈ game_instances e →
       sdict_get game_instance "env_id" = Some (CfgStr (exp_name e +:+ "-raw"))
       ∧ sdict_get game_instance "register_env" = None).
Proof.
  intros Hbranch. unfold on_generate.
  assert (negb (exp_truthy experiments) || exp_is_list experiments = true)
    as ->.
  { destruct Hbranch as [-> | ->]; [done | apply orb_true_r]. }
  eexists. split; [reflexivity |].
  assert (∀ e,
    e ∈ foldl (registry_step entry_point experiments (default 1%Z n_instances)
                 player_specs seed) [] ENV_REGISTRY
    ↔ ∃ name spec,
        (name +:+ "-raw", spec) ∈ ENV_REGISTRY ∧
        reg_entry_point spec = entry_point ∧
        (∀ names, experiments = ExpList names → name ∈ names) ∧
        e = registry_experiment entry_point (default 1%Z n_instances)
              player_specs seed name spec) as Helem.
  { intros e. rewrite registry_fold_elem. split; [|by right].
    intros [Hin|?]; [by apply elem_of_nil in Hin | done]. }
  split; [exact Helem |].
  intros e game_instance (name & spec & _ & _ & _ & ->)%Helem Hin.
  unfold registry_experiment, instances_of in Hin. cbn [game_instances] in Hin.
  apply list_elem_of_fmap in Hin as (i & -> & _).
  cbn [exp_name registry_experiment].
  by destruct player_specs as [[|s ss]|].
Qed.


Lemma instances_of_lookup fixed player_specs n_instances seed (i : nat)
    game_instance :
  instances_of fixed player_specs n_instances seed !! i = Some game_instance →
  game_instance
  = (("game_id", CfgInt (Z.of_nat i)) :: fixed ++ player_specs_entry player_specs
     ++ [("seed", CfgInt (seed + Z.of_nat i))])%list.
Proof.
  unfold instances_of. intros (z & -> & Hz)%list_lookup_fmap_Some.
  apply lookup_seqZ in Hz as [-> _]. by rewrite Z.add_0_l.
Qed.

(** X20: the module-level [generate_instances].  It needs the game's
    [instances] entry - without it [KeyError] is raised before anything
    else is looked at - and names the file after it.  In every experiment it
    writes, whichever way the experiments were chosen, the game instance at
    position [i] has the game id [i] and the seed 525119131 + [i], and
    carries the game's entry point; every experiment has as many instances
    as the game's [n_instances] says, one if it says nothing. *)
Theorem generated_seeds (game : GameConfig) :
  (cfg_instances game = None →
   generate_instances ENV_REGISTRY game = inl (KeyError "instances")) ∧
  ∀ filename experiments,
    generate_instances ENV_REGISTRY game = inr (filename, experiments) →
    (∃ instances, cfg_instances game = Some instances ∧
                  filename = instances +:+ ".json") ∧
    ∀ e, e ∈ experiments →
      length (game_instances e)
      = Z.to_nat (default 1%Z (cfg_n_instances game)) ∧
      ∀ (i : nat) game_instance,
        game_instances e !! i = Some game_instance →
        sdict_get game_instance "game_id" = Some (CfgInt (Z.of_nat i)) ∧
        sdict_get game_instance "seed"
          = Some (CfgInt (525119131 + Z.of_nat i)) ∧
        sdict_get game_instance "entry_point"
          = CfgStr <$> cfg_entry_point game.
Proof.
  split; [intros Hnone; unfold generate_instances; by rewrite Hnone |].
  intros filename experiments. unfold generate_instances.
  destruct (cfg_instances game) as [instances|]; [|done].
  unfold rbind, ret.
  destruct (on_generate' _ _ _ _ _ _) as [|generated] eqn:Hgen; [done |].
  intros [= <- <-]. split; [by eexists |].
  unfold on_generate in Hgen.
  destruct (cfg_entry_point game) as [entry_point|]; [|done].
  set (n := default 1%Z (cfg_n_instances game)) in *.
  assert (∀ e, e ∈ generated →
            ∃ fixed,
              game_instances e
              = instances_of (("entry_point", CfgStr entry_point) :: fixed)
                  (cfg_player_specs game) n SEED ∧
              sdict_get fixed "game_id" = None ∧
              sdict_get fixed "seed" = None ∧
              sdict_get fixed "entry_point" = None) as Hshape.
  { intros e He.
    destruct (negb (exp_truthy (cfg_experiments game))
              || exp_is_list (cfg_experiments game)).
    - injection Hgen as <-.
      apply registry_fold_elem in He as [He|(name & spec & _ & _ & _ & ->)];
        [by apply elem_of_nil in He |].
      by eexists [_; _].
    - destruct (cfg_experiments game) as [|names|configs|v]; try done.
      injection Hgen as <-. rewrite dict_fold in He.
      apply list_elem_of_fmap in He as (entry & -> & _).
      by eexists [_; _; _]. }
  intros e (fixed & Hinst & Hid & Hseed & Hep)%Hshape. rewrite Hinst.
  split; [unfold instances_of; by rewrite length_fmap, length_seqZ |].
  intros i game_instance ->%instances_of_lookup.
  split; [reflexivity |].
  simpl.
  assert (∀ key (v : ConfigVal),
            sdict_get fixed key = None →
            sdict_get (player_specs_entry (cfg_player_specs game)) key = None →
            sdict_get (fixed ++ player_specs_entry (cfg_player_specs game)
                       ++ [("seed", v)])%list key
            = if String.eqb "seed" key then Some v else None) as Hget.
  { clear. intros key v Hk Hps. rewrite app_assoc, sdict_get_snoc.
    revert Hk. induction fixed as [|[k0 v0] fixed IH]; cbn [app sdict_get].
    - intros _. by rewrite Hps.
    - destruct (String.eqb k0 key); [done | exact IH]. }
  assert (∀ key, key ≠ "player_specs" →
            sdict_get (player_specs_entry (cfg_player_specs game)) key = None)
    as Hps.
  { intros key Hkey. destruct (cfg_player_specs game) as [[|s ss]|]; try done.
    cbn [player_specs_entry sdict_get].
    destruct (String.eqb_spec "player_specs" key); [congruence | done]. }
  split.
  - rewrite (Hget "seed") by (done || by apply Hps). reflexivity.
  - reflexivity.
Qed.

End InstanceGeneratorFacts.

(** ** The commands found in a prompt *)

Lemma find_from_Some c s start i :
  find_from c s start = Some i →
  (start ≤ i)%nat ∧ String.get i s = Some c ∧
  ∀ j, (start ≤ j < i)%nat → String.get j s ≠ Some c.
Proof.
  revert start i. induction s as [|a s IH]; intros start i; [done |].
  cbn [find_from]. destruct start as [|start].
  - destruct (Ascii.eqb_spec a c) as [->|Hne].
    + intros [= <-]. split; [lia |]. split; [done |]. intros j ?; lia.
    + destruct (find_from c s 0) as [i'|] eqn:Hf; [|done].
      simpl. intros [= <-]. destruct (IH 0%nat i' Hf) as (_ & Hget & Hbefore).
      split; [lia |]. split; [done |].
      intros [|j] Hj; simpl; [congruence | apply Hbefore; lia].
  - destruct (find_from c s start) as [i'|] eqn:Hf; [|done].
    simpl. intros [= <-]. destruct (IH start i' Hf) as (Hle & Hget & Hbefore).
    split; [lia |]. split; [done |].
    intros [|j] Hj; [lia |]. simpl. apply Hbefore. lia.
Qed.

Lemma find_from_None c s start j :
  find_from c s start = None → (start ≤ j)%nat → String.get j s ≠ Some c.
Proof.
  revert start j. induction s as [|a s IH]; intros start j; [done |].
  cbn [find_from]. destruct start as [|start].
  - destruct (Ascii.eqb_spec a c) as [->|Hne]; [done |].
    destruct (find_from c s 0) as [i'|] eqn:Hf; [done |].
    intros _ _. destruct j as [|j]; simpl; [congruence |].
    apply (IH 0%nat); [done | lia].
  - destruct (find_from c s start) as [i'|] eqn:Hf; [done |].
    intros _ Hj. destruct j as [|j]; [lia |]. simpl.
    apply (IH start); [done | lia].
Qed.

Lemma get_Some_lt i s (a : ascii) :
  String.get i s = Some a → (i < String.length s)%nat.
Proof.
  revert i. induction s as [|b s IH]; intros i; [done |].
  destruct i as [|i]; simpl; [lia |]. intros Hget%IH. lia.
Qed.

Lemma substring_nil n m : String.substring n m "" = "".
Proof. by destruct n, m. Qed.

Lemma substring_inside s n m :
  (n + m ≤ String.length s)%nat →
  ∃ before after, s = before +:+ String.substring n m s +:+ after.
Proof.
  revert n. induction s as [|a s IH]; intros n Hle.
  - exists "", "". by rewrite substring_nil.
  - destruct n as [|n].
    + exists "", (String.substring m (String.length (String a s) - m) (String a s)).
      rewrite append_nil_l. apply substring_split. lia.
    + simpl in Hle. destruct (IH n) as (before & after & Hs); [lia |].
      exists (String a before), after.
      rewrite append_cons. simpl. by rewrite <- Hs.
Qed.

Lemma substring_first s n m a :
  String.get n s = Some a →
  String.substring n (S m) s = String a (String.substring (S n) m s).
Proof.
  revert n. induction s as [|b s IH]; intros n; [by destruct n |].
  destruct n as [|n]; simpl.
  - by intros [= ->].
  - intros Hget. rewrite (IH n Hget). reflexivity.
Qed.

Lemma substring_last s n m a :
  String.get (n + m) s = Some a →
  String.substring n (S m) s = String.substring n m s +:+ String a "".
Proof.
  revert n m. induction s as [|b s IH]; intros n m; [by destruct n, m |].
  destruct n as [|n].
  - destruct m as [|m]; simpl.
    + intros [= ->]. by destruct s.
    + intros Hget. rewrite append_cons. f_equal. by apply (IH 0%nat m).
  - simpl. apply IH.
Qed.

Lemma count_char_substring c s n m :
  (∀ j, (n ≤ j < n + m)%nat → String.get j s ≠ Some c) →
  count_char c (String.substring n m s) = 0%nat.
Proof.
  revert n m. induction s as [|b s IH]; intros n m Hnone.
  - by rewrite substring_nil.
  - destruct n as [|n].
    + destruct m as [|m]; [done |]. simpl.
      destruct (Ascii.eqb_spec b c) as [->|_].
      * exfalso. apply (Hnone 0%nat); [lia | done].
      * apply (IH 0%nat m). intros j Hj. apply (Hnone (S j)). lia.
    + simpl. apply IH. intros j Hj. apply (Hnone (S j)). lia.
Qed.

(** The slice between an opening bracket and the next closing bracket. *)
Lemma command_shape prompt start end_ :
  String.get start prompt = Some "["%char →
  find_from "]" prompt start = Some end_ →
  (start < end_ < String.length prompt)%nat ∧
  bracketed (String.substring start (end_ + 1 - start) prompt) ∧
  substring_of (String.substring start (end_ + 1 - start) prompt) prompt.
Proof.
  intros Hopen (Hle & Hclose & Hbody)%find_from_Some.
  pose proof (get_Some_lt _ _ _ Hclose) as Hlt.
  assert (start ≠ end_) as Hne by (intros ->; congruence).
  split; [lia |]. split.
  - exists (String.substring (S start) (end_ - start - 1) prompt).
    replace (end_ + 1 - start)%nat with (S (S (end_ - start - 1))) by lia.
    rewrite (substring_first _ _ _ _ Hopen).
    rewrite (substring_last prompt (S start) (end_ - start - 1) "]").
    2:{ replace (S start + (end_ - start - 1))%nat with end_ by lia. done. }
    split; [reflexivity |].
    apply count_char_substring. intros j Hj. apply Hbody. lia.
  - apply substring_inside. lia.
Qed.

Lemma commands_loop_spec prompt fuel start commands :
  match start with
  | Some st => String.get st prompt = Some "["%char
               ∧ (String.length prompt - st < fuel)%nat
  | None => (0 < fuel)%nat
  end →
  NoDup commands →
  Forall (λ c, bracketed c ∧ substring_of c prompt) commands →
  ∃ found,
    commands_loop fuel prompt start commands = Some found ∧
    NoDup found ∧
    Forall (λ c, bracketed c ∧ substring_of c prompt) found ∧
    commands `prefix_of` found.
Proof.
  revert start commands. induction fuel as [|fuel IH]; intros start commands.
  { destruct start; intros; lia. }
  intros Hstart Hnd Hall. cbn [commands_loop].
  destruct start as [st|]; [|by exists commands].
  destruct Hstart as [Hopen Hfuel].
  destruct (find_from "]" prompt st) as [end_|] eqn:Hend;
    [|by exists commands].
  destruct (command_shape _ _ _ Hopen Hend) as (Hlt & Hshape & Hsub).
  set (command := String.substring st (end_ + 1 - st) prompt) in *.
  set (commands' := if bool_decide (command ∈ commands) then commands
                    else (commands ++ [command])%list).
  assert (NoDup commands') as Hnd'.
  { unfold commands'. destruct (bool_decide_reflect (command ∈ commands));
      [done |].
    apply NoDup_app. split; [done |]. split; [|apply NoDup_singleton].
    intros c Hc ->%list_elem_of_singleton. done. }
  assert (Forall (λ c, bracketed c ∧ substring_of c prompt) commands')
    as Hall'.
  { unfold commands'. destruct (bool_decide (command ∈ commands)); [done |].
    apply Forall_app. split; [done |]. by apply Forall_singleton. }
  assert (commands `prefix_of` commands') as Hpre.
  { unfold commands'. destruct (bool_decide (command ∈ commands)); [done |].
    by apply prefix_app_r. }
  destruct (IH (find_from "[" prompt end_) commands') as (found & Hrun & ? & ? & ?);
    [|done | done |].
  - destruct (find_from "[" prompt end_) as [st'|] eqn:Hnext; [|lia].
    apply find_from_Some in Hnext as (Hle' & Hopen' & _).
    pose proof (get_Some_lt _ _ _ Hopen') as Hlt'.
    apply find_from_Some in Hend as (_ & Hclose & _).
    assert (st' ≠ end_) as Hne by (intros ->; congruence).
    split; [done | lia].
  - exists found. repeat split; try done. by etrans.
Qed.

(** X21: the loop that collects the commands of a prompt terminates, within
    as many passes as the prompt has characters plus one.  The commands it
    returns are pairwise different; each is a piece of the prompt that
    starts with an opening bracket, ends with a closing bracket and has no
    other closing bracket; and there are none exactly when the prompt has no
    opening bracket that is followed by a closing one. *)
Theorem possible_commands_found (prompt : string) :
  ∃ commands,
    possible_commands prompt = Some commands ∧
    NoDup commands ∧
    (∀ c, c ∈ commands → bracketed c ∧ substring_of c prompt) ∧
    (commands = []
     ↔ ∀ start, find_from "[" prompt 0 = Some start →
                find_from "]" prompt start = None).
Proof.
  unfold possible_commands.
  destruct (commands_loop_spec prompt (S (String.length prompt))
              (find_from "[" prompt 0) [])
    as (found & Hrun & Hnd & Hall & _).
  { destruct (find_from "[" prompt 0) as [st|] eqn:Hfirst; [|lia].
    apply find_from_Some in Hfirst as (_ & Hopen & _). split; [done | lia]. }
  { apply NoDup_nil_2. }
  { apply Forall_nil_2. }
  exists found. split; [exact Hrun |]. split; [exact Hnd |].
  split; [by apply Forall_forall |].
  cbn [commands_loop] in Hrun.
  destruct (find_from "[" prompt 0) as [st|] eqn:Hfirst.
  2:{ injection Hrun as <-. split; [done | done]. }
  destruct (find_from "]" prompt st) as [end_|] eqn:Hend.
  2:{ injection Hrun as <-. split; [|done]. by intros _ ? [= <-]. }
  cbn [bool_decide decide_rel] in Hrun.
  split.
  - intros ->. exfalso.
    rewrite bool_decide_eq_false_2 in Hrun by apply not_elem_of_nil.
    cbn [app] in Hrun.
    pose proof (find_from_Some _ _ _ _ Hfirst) as (_ & Hopen & _).
    destruct (command_shape _ _ _ Hopen Hend) as (Hlt & Hshape & Hsub).
    destruct (commands_loop_spec prompt (String.length prompt)
                (find_from "[" prompt end_)
                [String.substring st (end_ + 1 - st) prompt])
      as (found' & Hrun' & _ & _ & Hpre).
    + destruct (find_from "[" prompt end_) as [st'|] eqn:Hnext; [|lia].
      apply find_from_Some in Hnext as (Hle' & Hopen' & _).
      pose proof (get_Some_lt _ _ _ Hopen') as Hlt'. split; [done | lia].
    + apply NoDup_singleton.
    + by apply Forall_singleton.
    + rewrite Hrun in Hrun'. injection Hrun' as <-.
      destruct Hpre as [rest Hrest]. discriminate Hrest.
  - intros Hnone. specialize (Hnone st eq_refl). congruence.
Qed.


(** ** The Battleship master's cell counts *)

Lemma count_char_app c (a b : string) :
  count_char c (a +:+ b) = (count_char c a + count_char c b)%nat.
Proof.
  induction a as [|ch a IH]; [done |]. rewrite append_cons. simpl.
  rewrite IH. lia.
Qed.

Lemma count_char_cell c (cell : string) :
  String.length cell = 1%nat →
  count_char c cell = if decide (cell = String c "") then 1%nat else 0%nat.
Proof.
  destruct cell as [|a [|b rest]]; try done. intros _. simpl.
  destruct (Ascii.eqb_spec a c) as [->|Hne].
  - by rewrite decide_True.
  - rewrite decide_False; [done | congruence].
Qed.

Lemma count_char_row c (row : list string) :
  Forall (λ cell, String.length cell = 1%nat) row →
  count_char c (join row) = length (filter (λ cell, cell = String c "") row).
Proof.
  induction 1 as [|cell row Hcell _ IH]; [done |].
  cbn [join]. rewrite count_char_app, IH, (count_char_cell c cell Hcell).
  rewrite filter_cons. by destruct (decide (cell = String c "")).
Qed.

Lemma count_char_board c (board : list (list string)) :
  c ≠ "010"%char →
  Forall (λ cell, String.length cell = 1%nat) (concat board) →
  count_char c (board_string board)
  = length (filter (λ cell, cell = String c "") (concat board)).
Proof.
  intros Hnl. unfold board_string.
  induction board as [|row board IH]; [done |].
  cbn [concat]. intros [Hrow Hrest]%Forall_app.
  rewrite filter_app, length_app, <- (IH Hrest), <- (count_char_row c row Hrow).
  cbn [fmap list_fmap join_with].
  change (list_fmap _ _ join board) with (join <$> board).
  destruct board as [|row' board]; [simpl; lia |].
  cbn [fmap list_fmap].
  change (list_fmap _ _ join board) with (join <$> board).
  rewrite !count_char_app. unfold nl. cbn [count_char].
  destruct (Ascii.eqb_spec "010"%char c) as [<-|_]; [done |]. lia.
Qed.

Lemma marks_partition (cells : list string) :
  length cells
  = (length (filter (λ cell, cell = "X") cells)
     + length (filter (λ cell, cell = "O") cells)
     + length (filter (λ cell, cell = "~") cells)
     + length (filter (λ cell, cell ∉ ["X"; "O"; "~"]) cells))%nat.
Proof.
  induction cells as [|cell cells IH]; [done |].
  rewrite !filter_cons. cbn [length]. rewrite IH.
  destruct (decide (cell = "X")) as [->|HX].
  { rewrite decide_False by done. rewrite decide_False by done.
    rewrite decide_False; [simpl; lia |].
    intros Hn. apply Hn. apply list_elem_of_here. }
  destruct (decide (cell = "O")) as [->|HO].
  { rewrite decide_False by done.
    rewrite decide_False; [simpl; lia |].
    intros Hn. apply Hn. apply list_elem_of_further, list_elem_of_here. }
  destruct (decide (cell = "~")) as [->|HW].
  { rewrite decide_False; [simpl; lia |].
    intros Hn. apply Hn. do 2 apply list_elem_of_further. apply list_elem_of_here. }
  rewrite decide_True; [simpl; lia |].
  rewrite !elem_of_cons, elem_of_nil. tauto.
Qed.

(** X22: the Battleship master's counts for a board of [grid_size] x
    [grid_size] cells that each render as one character: hits, misses and
    water are the numbers of cells showing X, O and ~ (the newlines between
    the rows do not count), and the remaining ship cells - what is left of
    [grid_size ** 2] - are exactly the cells showing none of the three, so
    their number is never negative and the four counts add up to the number
    of cells. *)
Theorem battleship_cell_counts (grid_size : Z) (board : list (list string)) :
  Z.of_nat (length (concat board)) = (grid_size ^ 2)%Z →
  Forall (λ cell, String.length cell = 1%nat) (concat board) →
  let counts := cell_counts_of grid_size board in
  hits counts = cells_showing "X" board ∧
  misses counts = cells_showing "O" board ∧
  water counts = cells_showing "~" board ∧
  remaining_ship_cells counts = cells_unmarked board ∧
  (0 ≤ remaining_ship_cells counts)%Z ∧
  (hits counts + misses counts + water counts + remaining_ship_cells counts
   = grid_size ^ 2)%Z.
Proof.
  intros Hsize Hcells counts. unfold counts, cell_counts_of.
  cbn [hits misses water remaining_ship_cells].
  rewrite !count_char_board by done.
  unfold cells_showing, cells_unmarked.
  pose proof (marks_partition (concat board)) as Hpart.
  repeat split; try done; lia.
Qed.


(** ** An explicit choice of master and scorer *)

(** X24: a game specification that names both its master and its scorer
    never has its player count read: the benchmark is constructed from the
    two names alone - so a named master is taken for any number of players,
    given or not - and the construction fails only when a name is not a
    global of master.py, with [KeyError] for the master's name first; it
    never raises the [ValueError] of the multi-player case. *)
Theorem explicit_master_and_scorer (game_spec : GameSpec) master scorer :
  spec_master game_spec = Some master →
  spec_scorer game_spec = Some scorer →
  TextArenaBenchmark_init game_spec
  = match sdict_get master_globals master with
    | None => inl (KeyError master)
    | Some mc =>
        match sdict_get master_globals scorer with
        | None => inl (KeyError scorer)
        | Some sc => inr {| master_class := mc; scorer_class := sc |}
        end
    end ∧
  (∀ msg, TextArenaBenchmark_init game_spec ≠ inl (ValueError msg)) ∧
  (∀ other, spec_master other = Some master → spec_scorer other = Some scorer →
            TextArenaBenchmark_init other = TextArenaBenchmark_init game_spec).
Proof.
  intros Hm Hs.
  assert (∀ gs, spec_master gs = Some master → spec_scorer gs = Some scorer →
    TextArenaBenchmark_init gs
    = match sdict_get master_globals master with
      | None => inl (KeyError master)
      | Some mc =>
          match sdict_get master_globals scorer with
          | None => inl (KeyError scorer)
          | Some sc => inr {| master_class := mc; scorer_class := sc |}
          end
      end) as Hinit.
  { intros gs Hgm Hgs.
    unfold TextArenaBenchmark_init, select_master, select_scorer, globals_item,
      rbind, ret, raise.
    rewrite Hgm, Hgs.
    destruct (sdict_get master_globals master); [|done].
    by destruct (sdict_get master_globals scorer). }
  split; [by apply Hinit |]. split.
  - intros msg. rewrite (Hinit game_spec Hm Hs).
    destruct (sdict_get master_globals master); [|done].
    by destruct (sdict_get master_globals scorer).
  - intros other Hom Hos. by rewrite (Hinit other Hom Hos), (Hinit game_spec Hm Hs).
Qed.


(** ** The round counter and the round markers of the log *)

Section RoundFacts.
Context {E : Type} `{Env E}.
Local Abbreviation GM := (TextArenaGameMaster E).
Variable STANDARD_GAME_PROMPT : string.
Variable generate_response : TextArenaPlayer → result string.
Variable render_rewards : gmap string PyVal → string.
Variable _on_after_game : GM → Rewards → result (list (string * LogVal)).
Local Abbreviation step' := (step render_rewards _on_after_game).
Local Abbreviation play_turn' :=
  (play_turn STANDARD_GAME_PROMPT generate_response render_rewards _on_after_game).

Lemma round_marks_app rs1 rs2 :
  round_marks (rs1 ++ rs2) = (round_marks rs1 + round_marks rs2)%nat.
Proof. unfold round_marks. by rewrite filter_app, length_app. Qed.

Lemma round_marks_none rs :
  Forall (λ r, is_round_mark r = false) rs → round_marks rs = 0%nat.
Proof.
  unfold round_marks. induction 1 as [|r rs Hr _ IH]; [done |].
  rewrite filter_cons, decide_False by congruence. exact IH.
Qed.

Lemma round_marks_nil : round_marks [] = 0%nat.
Proof. reflexivity. Qed.

Lemma round_marks_cons_other r rs :
  is_round_mark r = false → round_marks (r :: rs) = round_marks rs.
Proof.
  intros Hr. unfold round_marks. by rewrite filter_cons, decide_False by congruence.
Qed.

Lemma round_marks_cons_mark rs :
  round_marks (LogNextRound :: rs) = S (round_marks rs).
Proof. unfold round_marks. by rewrite filter_cons, decide_True by done. Qed.

Ltac count_marks :=
  rewrite ?round_marks_app;
  repeat first [ rewrite round_marks_cons_mark
               | rewrite round_marks_cons_other by reflexivity ];
  rewrite ?round_marks_nil.

Lemma round_marks_to_self rs :
  Forall (λ r, is_to_self r = true) rs → round_marks rs = 0%nat.
Proof.
  intros Hrs. apply round_marks_none. eapply Forall_impl; [exact Hrs |].
  by intros [].
Qed.

Lemma round_marks_keys (kvs : list (string * LogVal)) :
  round_marks (as_log_key <$> kvs) = 0%nat.
Proof.
  apply round_marks_none. apply Forall_fmap, Forall_forall. by intros kv _.
Qed.

Lemma step_rounds (g g' : GM) response r :
  step' response g = inr (r, g') →
  ∃ k, (k ≤ 1)%nat ∧
       current_round g' = (current_round g + k)%nat ∧
       round_marks (interactions g')
       = (round_marks (interactions g) + k)%nat.
Proof.
  intros (d & info & e' & c & log & Hes & Hc & Hl & -> & Hrest)%step_inv.
  cbv zeta in Hrest.
  assert (current_round (after_check g response d info e' c log)
          = current_round g) as Hround by reflexivity.
  assert (round_marks (interactions (after_check g response d info e' c log))
          = round_marks (interactions g)) as Hmarks.
  { unfold after_check, logs. cbn [interactions set_interactions].
    destruct info; count_marks; lia. }
  destruct d.
  - apply _after_game_inv_full in Hrest
      as (rw & e'' & lp & d & v & msg & p & details & extra & kvs
          & _ & _ & _ & _ & _ & _ & _ & _ & Hextra & _ & ->).
    exists 0%nat. split; [lia |]. split.
    + unfold logs, after_close. cbn [current_round set_interactions].
      rewrite Hround. lia.
    + unfold logs. cbn [interactions set_interactions after_close].
      count_marks.
      rewrite Hmarks, (round_marks_to_self extra Hextra), round_marks_keys. lia.
  - subst g'. destruct (round_complete _).
    + exists 1%nat. split; [lia |]. split.
      * unfold next_round, logs.
        cbn [current_round set_interactions set_current_round
               set_played_in_round].
        rewrite Hround. lia.
      * unfold next_round, logs.
        cbn [interactions set_interactions set_current_round
               set_played_in_round].
        count_marks. rewrite Hmarks. lia.
    + exists 0%nat. split; [lia |]. split; [rewrite Hround; lia |].
      rewrite Hmarks. lia.
Qed.

Lemma play_turn_rounds (g g' : GM) r :
  play_turn' g = inr (r, g') →
  ∃ k, (k ≤ 1)%nat ∧
       current_round g' = (current_round g + k)%nat ∧
       round_marks (interactions g')
       = (round_marks (interactions g) + k)%nat.
Proof.
  intros Hturn. apply play_turn_inv in Hturn. cbv zeta in Hturn.
  destruct Hturn as (p & ctx & w1 & response & _ & _ & _ & _ & Hstep).
  apply step_rounds in Hstep as (k & Hk & Hround & Hmarks).
  exists k. split; [done |]. split; [exact Hround |].
  rewrite Hmarks. unfold after_response, logs, after_perceive.
  cbn [interactions set_interactions set_players_by_id].
  count_marks. lia.
Qed.

(** X25: the round counter and the log stay in step.  Over any run of
    [play] the round counter grows by exactly the number of round markers
    the log gains, by at most one per turn, and never shrinks; so in a
    session whose log and counter agree at the start the counter always
    equals the number of round markers logged. *)
Theorem play_rounds_match_log (fuel : nat) (g g' : GM) left :
  play STANDARD_GAME_PROMPT generate_response render_rewards _on_after_game
    fuel g = inr (left, g') →
  ∃ k, (k ≤ fuel)%nat ∧
       current_round g' = (current_round g + k)%nat ∧
       round_marks (interactions g')
       = (round_marks (interactions g) + k)%nat.
Proof.
  revert g. induction fuel as [|fuel IH]; intros g; cbn [play].
  - intros [= <- <-]. exists 0%nat. lia.
  - intros (di & g1 & Hturn & Hk)%mbind_inv.
    apply play_turn_rounds in Hturn as (k1 & Hk1 & Hround1 & Hmarks1).
    destruct di.1.
    + injection Hk as <- <-. exists k1. lia.
    + apply IH in Hk as (k2 & Hk2 & Hround2 & Hmarks2).
      exists (k1 + k2)%nat. lia.
Qed.

End RoundFacts.


(** ** The status counts *)

Lemma bump_lookup counts status s :
  bump counts status !! s
  = if decide (s = status) then Some (S (default 0%nat (counts !! s)))
    else counts !! s.
Proof.
  unfold bump. destruct (decide (s = status)) as [->|Hne].
  - rewrite lookup_insert_eq. f_equal. f_equal.
    destruct (decide (is_Some (counts !! status))) as [_|Hnone]; [done |].
    rewrite lookup_insert_eq.
    by destruct (counts !! status) as [n|]; [destruct Hnone; eauto |].
  - rewrite lookup_insert_ne by done.
    destruct (decide (is_Some (counts !! status))); [done |].
    by rewrite lookup_insert_ne.
Qed.

Lemma get_stats_snoc game_info info :
  get_stats (game_info ++ [info])
  = rbind (get_stats game_info) (λ a, stats_step a info).
Proof. unfold get_stats. by rewrite foldl_snoc. Qed.

Lemma with_status_snoc status game_info info :
  with_status status (game_info ++ [info])
  = (with_status status game_info
     + if decide (info_status info = Some status) then 1 else 0)%nat.
Proof.
  unfold with_status. rewrite filter_app, length_app. f_equal.
  rewrite filter_cons. by destruct (decide (info_status info = Some status)).
Qed.

Lemma with_players_and_status_snoc num_players status game_info info :
  with_players_and_status num_players status (game_info ++ [info])
  = (with_players_and_status num_players status game_info
     + if decide (info_num_players info = num_players
                  ∧ info_status info = Some status) then 1 else 0)%nat.
Proof.
  unfold with_players_and_status. rewrite filter_app, length_app. f_equal.
  rewrite filter_cons.
  by destruct (decide (info_num_players info = num_players
                       ∧ info_status info = Some status)).
Qed.

(** X26: [get_stats] counts right.  It raises [KeyError] exactly when some
    entry has no status.  When it returns, the total count of a status is
    the number of entries with that status, the count of a status under a
    number of players is the number of entries with both, and a status (a
    number of players) has an entry in the counts only if some entry of the
    game info has it - no count is 0. *)
Theorem get_stats_counts (game_info : list GameInfo) :
  ((∃ info, info ∈ game_info ∧ info_status info = None)
   → get_stats game_info = inl (KeyError "status")) ∧
  ((∀ info, info ∈ game_info → is_Some (info_status info))
   → ∃ status_counts total_counts,
       get_stats game_info = inr (status_counts, total_counts) ∧
       (∀ status,
          total_counts !! status
          = if decide (with_status status game_info = 0%nat) then None
            else Some (with_status status game_info)) ∧
       (∀ num_players status,
          status_counts !! num_players ≫= (.!! status)
          = if decide (with_players_and_status num_players status game_info
                       = 0%nat) then None
            else Some (with_players_and_status num_players status game_info)) ∧
       (∀ num_players,
          is_Some (status_counts !! num_players)
          ↔ ∃ info, info ∈ game_info ∧ info_num_players info = num_players)).
Proof.
  induction game_info as [|info game_info IH] using rev_ind.
  { split.
    - intros (info & Hin & _). by apply elem_of_nil in Hin.
    - intros _. exists ∅, ∅. split; [reflexivity |].
      split; [intros status; by rewrite lookup_empty |].
      split; [intros np status; by rewrite lookup_empty |].
      intros np. rewrite lookup_empty. split; [by intros [? [=]] |].
      intros (info & Hin & _). by apply elem_of_nil in Hin. }
  destruct IH as [IHerr IHok]. rewrite get_stats_snoc. split.
  - intros (bad & Hin & Hbad).
    destruct (decide (Forall (λ i, is_Some (info_status i)) game_info))
      as [Hgood|Hearlier].
    2:{ apply not_Forall_Exists in Hearlier; [|apply _].
        apply Exists_exists in Hearlier as (info' & Hin' & Hnone).
        rewrite IHerr; [done |]. exists info'. split; [done |].
        destruct (info_status info') eqn:Hs; [|done].
        exfalso. apply Hnone. rewrite Hs. by eexists. }
    rewrite Forall_forall in Hgood.
    apply elem_of_app in Hin as [Hin | ->%list_elem_of_singleton].
    { destruct (Hgood bad Hin) as [? Hsome]. congruence. }
    destruct (IHok Hgood) as (sc & tc & -> & _).
    unfold rbind, stats_step. by rewrite Hbad.
  - intros Hall.
    destruct IHok as (sc & tc & -> & Htotal & Hby & Hkeys).
    { intros info' Hin'. apply Hall, elem_of_app. by left. }
    destruct (Hall info) as [status Hstatus].
    { apply elem_of_app. right. apply list_elem_of_here. }
    unfold rbind, stats_step. rewrite Hstatus. cbn [fst snd ret].
    eexists _, _. split; [reflexivity |].
    set (np := info_num_players info).
    set (sc0 := if decide (is_Some (sc !! np)) then sc else <[np := ∅]> sc).
    assert (∀ np', sc0 !! np' ≫= (.!! status)
                   = sc !! np' ≫= (.!! status)) as Hsc0.
    { intros np'. unfold sc0.
      destruct (decide (is_Some (sc !! np))) as [|Hnone]; [done |].
      destruct (decide (np' = np)) as [->|Hne].
      - rewrite lookup_insert_eq. cbn.
        destruct (sc !! np) as [m|] eqn:Hm; [destruct Hnone; eauto | done].
      - by rewrite lookup_insert_ne. }
    split; [|split].
    + intros s. rewrite bump_lookup, with_status_snoc, Hstatus.
      destruct (decide (s = status)) as [->|Hne].
      * destruct (decide (Some status = Some status)) as [_|Hn]; [|done].
        rewrite Htotal.
        destruct (decide (with_status status game_info = 0%nat)) as [->|Hnz];
          cbn [default from_option]; unfold id;
            rewrite decide_False by lia; f_equal; lia.
      * destruct (decide (Some status = Some s)) as [[= ->]|_]; [done |].
        rewrite Nat.add_0_r. apply Htotal.
    + intros np' s. rewrite with_players_and_status_snoc, Hstatus. fold np.
      destruct (decide (np' = np)) as [->|Hne].
      * rewrite lookup_insert_eq.
        change (Some (bump (default ∅ (sc0 !! np)) status) ≫= (.!! s))
          with (bump (default ∅ (sc0 !! np)) status !! s).
        rewrite bump_lookup.
        assert (default ∅ (sc0 !! np) !! s = sc !! np ≫= (.!! s)) as Hinner.
        { unfold sc0.
          destruct (decide (is_Some (sc !! np))) as [[m Hm]|Hnone].
          - by rewrite Hm.
          - rewrite lookup_insert_eq. cbn. rewrite lookup_empty.
            destruct (sc !! np) as [m|]; [destruct Hnone; eauto | done]. }
        rewrite Hinner, Hby.
        destruct (decide (s = status)) as [->|Hs].
        -- destruct (decide (np = np ∧ Some status = Some status))
             as [_|Hn]; [|by destruct Hn].
           destruct (decide (with_players_and_status np status game_info
                             = 0%nat)) as [->|Hnz];
             cbn [default from_option]; unfold id;
            rewrite decide_False by lia; f_equal; lia.
        -- destruct (decide (np = np ∧ Some status = Some s))
             as [[_ [= ->]]|_]; [done |].
           by rewrite Nat.add_0_r.
      * rewrite lookup_insert_ne by done.
        destruct (decide (np = np' ∧ Some status = Some s))
          as [[-> _]|_]; [done |].
        rewrite Nat.add_0_r.
        assert (sc0 !! np' = sc !! np') as ->; [|apply Hby].
        unfold sc0. destruct (decide (is_Some (sc !! np))); [done |].
        by rewrite lookup_insert_ne.
    + intros np'. destruct (decide (np' = np)) as [->|Hne].
      * rewrite lookup_insert_eq. split; [|by eexists].
        intros _. exists info. split; [|done].
        apply elem_of_app. right. apply list_elem_of_here.
      * rewrite lookup_insert_ne by done.
        assert (sc0 !! np' = sc !! np') as ->.
        { unfold sc0. destruct (decide (is_Some (sc !! np))); [done |].
          by rewrite lookup_insert_ne. }
        rewrite Hkeys. split.
        -- intros (info' & Hin' & Hnp). exists info'. split; [|done].
           apply elem_of_app. by left.
        -- intros (info' & Hin' & Hnp).
           apply elem_of_app in Hin' as [Hin' | ->%list_elem_of_singleton].
           ++ by exists info'.
           ++ done.
Qed.


(** ** The log only grows *)

Section LogFacts.
Context {E : Type} `{Env E}.
Local Abbreviation GM := (TextArenaGameMaster E).
Variable STANDARD_GAME_PROMPT : string.
Variable generate_response : TextArenaPlayer → result string.
Variable render_rewards : gmap string PyVal → string.
Variable _on_after_game : GM → Rewards → result (list (string * LogVal)).
Local Abbreviation step' := (step render_rewards _on_after_game).
Local Abbreviation play_turn' :=
  (play_turn STANDARD_GAME_PROMPT generate_response render_rewards _on_after_game).

Lemma game_ends_app rs1 rs2 :
  game_ends (rs1 ++ rs2) = (game_ends rs1 + game_ends rs2)%nat.
Proof. unfold game_ends. by rewrite filter_app, length_app. Qed.

Lemma game_ends_nil : game_ends [] = 0%nat.
Proof. reflexivity. Qed.

Lemma game_ends_cons_other r rs :
  is_game_end r = false → game_ends (r :: rs) = game_ends rs.
Proof.
  intros Hr. unfold game_ends. by rewrite filter_cons, decide_False by congruence.
Qed.

Lemma game_ends_cons_end rs : game_ends (LogGameEnd :: rs) = S (game_ends rs).
Proof. unfold game_ends. by rewrite filter_cons, decide_True by done. Qed.

Lemma game_ends_none rs :
  Forall (λ r, is_game_end r = false) rs → game_ends rs = 0%nat.
Proof.
  induction 1 as [|r rs Hr _ IH]; [done |].
  by rewrite game_ends_cons_other.
Qed.

Lemma game_ends_to_self rs :
  Forall (λ r, is_to_self r = true) rs → game_ends rs = 0%nat.
Proof.
  intros Hrs. apply game_ends_none. eapply Forall_impl; [exact Hrs |].
  by intros [].
Qed.

Lemma game_ends_keys (kvs : list (string * LogVal)) :
  game_ends (as_log_key <$> kvs) = 0%nat.
Proof.
  apply game_ends_none. apply Forall_fmap, Forall_forall. by intros kv _.
Qed.

Ltac count_ends :=
  rewrite ?game_ends_app;
  repeat first [ rewrite game_ends_cons_end
               | rewrite game_ends_cons_other by reflexivity ];
  rewrite ?game_ends_nil.

Lemma step_log (g g' : GM) response r :
  step' response g = inr (r, g') →
  ∃ added,
    interactions g' = (interactions g ++ added)%list ∧
    game_ends added = (if r.1 then 1 else 0)%nat ∧
    (r.1 = true → last added = Some LogGameEnd).
Proof.
  intros (d & info & e' & c & log & Hes & Hc & Hl & -> & Hrest)%step_inv.
  cbv zeta in Hrest. cbn [fst].
  set (noted := match info with
                | Some s => [LogToSelf "info" s]
                | None => []
                end).
  assert (interactions (after_check g response d info e' c log)
          = (interactions g ++ noted)%list) as Hchecked by reflexivity.
  assert (game_ends noted = 0%nat) as Hnoted
    by (unfold noted; destruct info; by count_ends).
  destruct d.
  - apply _after_game_inv_full in Hrest
      as (rw & e'' & lp & d & v & msg & p & details & extra & kvs
          & _ & _ & _ & _ & _ & _ & _ & _ & Hextra & _ & ->).
    exists (noted
            ++ ([LogEvent "GM" (name p) "send message" ("[GAME] " +:+ msg)]
                ++ extra
                ++ [LogKey "ta_reward" (LReward rw.1);
                    LogKey "ta_reward_details" (LDetails details)]
                ++ (as_log_key <$> kvs))
            ++ [LogGameEnd])%list.
    split; [|split].
    + unfold logs. cbn [interactions set_interactions after_close].
      rewrite Hchecked, <- !app_assoc. reflexivity.
    + count_ends.
      rewrite Hnoted, (game_ends_to_self extra Hextra), game_ends_keys. lia.
    + intros _. rewrite app_assoc. apply last_snoc.
  - subst g'. destruct (round_complete _).
    + exists (noted ++ [LogNextRound])%list. split; [|split; [|done]].
      * unfold next_round, logs.
        cbn [interactions set_interactions set_current_round
               set_played_in_round].
        by rewrite Hchecked, <- app_assoc.
      * count_ends. rewrite Hnoted. lia.
    + exists noted. split; [exact Hchecked |]. split; [exact Hnoted | done].
Qed.

Lemma play_turn_log (g g' : GM) r :
  play_turn' g = inr (r, g') →
  ∃ added,
    interactions g' = (interactions g ++ added)%list ∧
    game_ends added = (if r.1 then 1 else 0)%nat ∧
    (r.1 = true → last added = Some LogGameEnd).
Proof.
  intros Hturn. apply play_turn_inv in Hturn. cbv zeta in Hturn.
  destruct Hturn as (p & ctx & w1 & response & _ & _ & _ & _ & Hstep).
  apply step_log in Hstep as (added & Hlog & Hends & Hlast).
  exists ([LogEvent "GM" (name p) "send message" (content ctx)]
          ++ [LogEvent (name p) "GM" "get message" response] ++ added)%list.
  split; [|split].
  - rewrite Hlog. unfold after_response, logs, after_perceive.
    cbn [interactions set_interactions set_players_by_id].
    by rewrite <- !app_assoc.
  - count_ends. rewrite Hends. lia.
  - intros Hdone. rewrite !last_app, (Hlast Hdone). reflexivity.
Qed.

(** X27: the log only grows.  Over any run of [play] the records logged
    before are kept, in their order, and what is added holds exactly one
    game-end record if the loop was left and none otherwise; when the loop
    was left the game-end record is the last record of the log. *)
Theorem play_log_append_only (fuel : nat) (g g' : GM) left :
  play STANDARD_GAME_PROMPT generate_response render_rewards _on_after_game
    fuel g = inr (left, g') →
  ∃ added,
    interactions g' = (interactions g ++ added)%list ∧
    game_ends added = (if left then 1 else 0)%nat ∧
    (left = true → last (interactions g') = Some LogGameEnd).
Proof.
  revert g. induction fuel as [|fuel IH]; intros g; cbn [play].
  - intros [= <- <-]. exists []. by rewrite app_nil_r.
  - intros (di & g1 & Hturn & Hk)%mbind_inv.
    apply play_turn_log in Hturn as (added1 & Hlog1 & Hends1 & Hlast1).
    destruct di.1.
    + injection Hk as <- <-. exists added1. split; [done |]. split; [done |].
      intros _. rewrite Hlog1, last_app, (Hlast1 eq_refl). reflexivity.
    + apply IH in Hk as (added2 & Hlog2 & Hends2 & Hlast2).
      exists (added1 ++ added2)%list. split; [|split; [|done]].
      * by rewrite Hlog2, Hlog1, <- app_assoc.
      * rewrite game_ends_app, Hends1, Hends2. lia.
Qed.

End LogFacts.

(** ** What a call of [observation] leaves alone *)

Section WrapperFrame.
Context {E : Type} `{Env E}.
Variable STANDARD_GAME_PROMPT : string.

(** X28: a call of [observation] for one player does not touch the
    environment and concerns that player alone: every other player's cursor
    is unchanged, so the events that player has not seen yet are still
    waiting; the context returned has the role ["user"]. *)
Theorem observation_frame (w w' : ClemObservationWrapper E) p ctx :
  observation STANDARD_GAME_PROMPT p w = inr (ctx, w') →
  wrapped w' = wrapped w ∧
  role ctx = "user" ∧
  ∀ q, q ≠ p →
       logged_observation_count w' !! q = logged_observation_count w !! q ∧
       new_events w' q = new_events w q.
Proof.
  intros Hobs.
  destruct (observation_inv _ _ _ _ _ Hobs) as (count & log & Hcount & Hlog).
  rewrite (observation_returns _ _ _ _ _ Hcount Hlog) in Hobs.
  injection Hobs as <- <-.
  split; [reflexivity |]. split; [reflexivity |].
  intros q Hq.
  assert (<[p := (count + length (drop count log))%nat]>
            (logged_observation_count w) !! q
          = logged_observation_count w !! q) as Hother
    by (by rewrite lookup_insert_ne).
  split; [exact Hother |].
  unfold new_events, cursor, log_of.
  cbn [logged_observation_count wrapped]. by rewrite Hother.
Qed.

End WrapperFrame.


(** ** The further properties at the example sessions *)

Lemma observation_twice_in_a_row_witness :
  ∃ ctx2, observation ex_prompt 0 ex_w1 = inr (ctx2, ex_w1) ∧ content ctx2 = "".
Proof.
  assert (observation ex_prompt 0 ex_w0 = inr (ex_ctx0, ex_w1)) as Hobs
    by reflexivity.
  destruct (observation_twice_in_a_row ex_prompt ex_w0 ex_w1 0 ex_ctx0 Hobs)
    as (ctx2 & H2 & _ & Hne & _).
  exists ctx2. split; [exact H2 |].
  apply Hne. vm_compute. discriminate.
Defined.


Lemma check_move_validity_reports_once_witness :
  violated_request_count ex_one_checked
  = (violated_request_count ex_one_env_stepped + 1)%nat ∧
  _check_move_validity ex_one_checked = inr (false, ex_one_checked).
Proof.
  apply (check_move_validity_reports_once ex_one_env_stepped ex_one_checked true).
  reflexivity.
Defined.

Lemma step_counts_violations_witness :
  (violated_request_count ex_one_finished_plain
   ≤ violated_request_count ex_one_before_step + 2)%nat.
Proof.
  assert (step ex_render ex_hook "move" ex_one_before_step
          = inr ((true, None), ex_one_finished_plain)) as Hstep by reflexivity.
  destruct (step_counts_violations _ _ _ _ _ _ Hstep)
    as (d & info & e' & c & log & _ & _ & _ & _ & _ & _ & Hle).
  exact Hle.
Defined.

Lemma play_env_calls_witness :
  ∃ actions,
    env_calls ex_two_finished
    = ([CallClose] ++ (CallStep <$> actions) ++ env_calls ex_two)%list ∧
    (length actions ≤ 3)%nat ∧ actions ≠ [].
Proof.
  assert (play ex_prompt ex_respond ex_render ex_hook 3 ex_two
          = inr (true, ex_two_finished)) as Hplay by reflexivity.
  destruct (play_env_calls _ _ _ _ _ _ _ _ Hplay)
    as (actions & Hcalls & Hlen & _ & Hne).
  exists actions. split; [exact Hcalls | split; [exact Hlen | exact (Hne eq_refl)]].
Defined.

Lemma acted_set_within_roster_witness :
  roster_ids_ok ex_two_finished ∧
  (size (played_in_round ex_two_finished) ≤ num_agents ex_two_finished)%nat.
Proof.
  assert (setup ex_two_env ["model-a"; "model-b"] None 7 = inr (tt, ex_two))
    as Hsetup by reflexivity.
  assert (play ex_prompt ex_respond ex_render ex_hook 3 ex_two
          = inr (true, ex_two_finished)) as Hplay by reflexivity.
  exact (acted_set_within_roster ex_prompt ex_respond ex_render ex_hook
           _ _ _ _ _ _ _ _ _ Hsetup Hplay).
Defined.

Lemma after_game_logs_rewards_witness :
  ∃ details added,
    interactions ex_one_after_game
    = (interactions ex_one_env_stepped ++ added ++ [LogGameEnd])%list ∧
    LogKey "ta_reward_details" (LDetails details) ∈ added ∧
    details !! 0
    = Some (<["reward" := PyNum (inject_Z (-1))]>
              (ex_details "Invalid Move: not a word" true)).
Proof.
  assert (_after_game ex_render ex_hook ex_one_env_stepped
          = inr (tt, ex_one_after_game)) as Hgame by reflexivity.
  destruct (after_game_logs_rewards ex_render ex_hook _ _ _ Hgame)
    as (rewards & e'' & details & added & Hclose & Hlog & _ & Hdet & Hin & _).
  exists details, added. split; [exact Hlog | split; [exact Hdet |]].
  assert (0 ∈ rewarded_keys (players_by_id ex_one_env_stepped)) as Hkey
    by (vm_compute; apply list_elem_of_here).
  destruct (Hin 0 Hkey) as (dk & r & Hdk & Hr & ->).
  injection Hclose as <- _.
  vm_compute in Hdk, Hr.
  injection Hdk as <-. injection Hr as <-. reflexivity.
Defined.

Lemma step_done_without_last_actor_raises_witness :
  step ex_render ex_hook "move" ex_one = inl (KeyError "None").
Proof.
  eapply (step_done_without_last_actor_raises ex_render ex_hook ex_one "move"
            None _ 0%nat);
    vm_compute; reflexivity.
Defined.

Lemma observation_needs_cursor_and_log_witness :
  observation ex_prompt 2 (ClemObservationWrapper_init ex_two_env 2)
  = inl (KeyError "2").
Proof.
  apply (proj2 (observation_needs_cursor_and_log ex_prompt ex_two_env 2 2)).
  intros [Hrange _]. lia.
Defined.


Lemma single_player_metrics_by_reward_witness :
  sdict_get (SinglePlayerMaster_prepare_metrics "Aborted" "Success" "Lose"
               (Some 0%Q)) "Success"
  = Some (flag (reward_is (Some 0%Q) 1)).
Proof.
  apply (single_player_metrics_by_reward "Aborted" "Success" "Lose" (Some 0%Q));
    discriminate.
Defined.

Lemma init_metrics_agrees_with_master_witness :
  sdict_get (init_metrics "Aborted" "Success" "Lose" "Main Score"
               (Some (inject_Z 1))) "Success"
  = MInt <$> sdict_get (SinglePlayerMaster_prepare_metrics
                          "Aborted" "Success" "Lose" (Some (inject_Z 1)))
               "Success".
Proof.
  apply (proj1 (init_metrics_agrees_with_master
                  "Aborted" "Success" "Lose" "Main Score" (Some (inject_Z 1)))).
  discriminate.
Defined.

Lemma single_player_bench_score_witness :
  SinglePlayerScorer_compute_episode_scores "Aborted" "Success" "Lose"
    (λ key, logged_value key (interactions ex_mine_finished))
  = inr (ScoreTimes100 0%Q).
Proof.
  eapply (single_player_bench_score ex_render "Aborted" "Success" "Lose"
           ex_mine_before_last_step ex_mine_finished "move" None _ _ _ 0%Q
           (λ key, logged_value key (interactions ex_mine_finished)));
    try discriminate; try reflexivity.
  - intros Hin. vm_compute in Hin.
    repeat (apply elem_of_cons in Hin as [Hin|Hin]; [discriminate Hin |]).
    by apply elem_of_nil in Hin.
  - intros key v Hv. exact Hv.
Defined.

Lemma two_player_outcome_logged_witness :
  logged_value "Aborted" (interactions ex_two_scored)
    = Some (LVal (PyInt (flag (truthy (PyBool false))))) ∧
  logged_value "Lose" (interactions ex_two_scored)
    = Some (LVal (PyInt (flag (truthy (PyBool false))))) ∧
  logged_value "Success" (interactions ex_two_scored)
    = Some (LVal (PyInt (flag (negb (truthy (PyBool false)))))).
Proof.
  eapply (two_player_outcome_logged ex_render "Aborted" "Success" "Lose"
            ex_two_before_last_step ex_two_scored "move"
            (Some "game over") _ _ _ 0 (ex_details "Player 0 wins" false)
            (PyBool false));
    try discriminate; reflexivity.
Defined.

Lemma minesweeper_opening_move_witness :
  env_calls ex_mine_opened = [CallStep "[4 4]"; CallReset 1 7] ∧
  current_round ex_mine_opened = 1%nat ∧
  played_in_round ex_mine_opened = ∅.
Proof.
  assert (setup ex_mine_env ["model-a"] None 7 = inr (tt, ex_mine)) as Hsetup
    by reflexivity.
  assert (MinesweeperMaster_on_before_game ex_prompt ex_render ex_single_hook
            8 8 ex_mine = inr (tt, ex_mine_opened)) as Hopen by reflexivity.
  destruct (minesweeper_opening_move ex_prompt ex_render ex_single_hook
              ex_mine_env "model-a" None 7 tt ex_mine ex_mine_opened 8 8 tt
              Hsetup Hopen)
    as (spec & log & ctx & _ & _ & _ & Hcalls & _ & _ & _ & _ & Hround & _).
  split; [exact Hcalls |]. apply Hround; reflexivity.
Defined.

Lemma generate_instances_ids_and_seeds_witness :
  length (TextArenaInstanceGenerator_generate_instances 2
            [("entry_point", CfgStr ex_wordle)] SEED) = 2%nat.
Proof.
  apply (generate_instances_ids_and_seeds 2
           [("entry_point", CfgStr ex_wordle)] SEED).
  apply NoDup_singleton.
Defined.

Lemma on_generate_edge_cases_witness :
  on_generate ex_registry SEED (Some ex_wordle) (Some "ta_wordle") (ExpList [])
    None None = inr [].
Proof.
  apply (proj2 (on_generate_edge_cases ex_registry SEED (Some "ta_wordle")
                  ExpNone None None) ex_wordle).
Defined.

Lemma on_generate_from_registry_witness :
  ∃ generated,
    on_generate ex_registry SEED (Some ex_wordle) (Some "ta_wordle")
      (ExpList ["Wordle-v0"]) (Some 2%Z) None = inr generated ∧
    ∀ e, e ∈ generated → exp_name e ∈ ["Wordle-v0"].
Proof.
  destruct (on_generate_from_registry ex_registry SEED ex_wordle
              (Some "ta_wordle") (ExpList ["Wordle-v0"]) (Some 2%Z) None
              (or_intror eq_refl))
    as (generated & Hgen & Helem & _).
  exists generated. split; [exact Hgen |].
  intros e (name & spec & _ & _ & Hlisted & ->)%Helem.
  exact (Hlisted _ eq_refl).
Defined.

Lemma generated_seeds_witness :
  Forall (λ e, length (game_instances e) = 2%nat) ex_generated.
Proof.
  apply Forall_forall. intros e He.
  assert (generate_instances ex_registry ex_game
          = inr ("in_wordle.json", ex_generated)) as Hgen by reflexivity.
  destruct (proj2 (generated_seeds ex_registry ex_game) _ _ Hgen) as [_ Hall].
  exact (proj1 (Hall e He)).
Defined.

Lemma possible_commands_found_witness :
  possible_commands ex_command_prompt = Some ["[guess]"; "[quit]"] ∧
  NoDup ["[guess]"; "[quit]"].
Proof.
  destruct (possible_commands_found ex_command_prompt)
    as (commands & Hrun & Hnd & _).
  assert (possible_commands ex_command_prompt = Some ["[guess]"; "[quit]"])
    as Hvalue by reflexivity.
  rewrite Hvalue in Hrun. injection Hrun as <-.
  split; [reflexivity | exact Hnd].
Defined.

Lemma battleship_cell_counts_witness :
  remaining_ship_cells (cell_counts_of 2 ex_board) = cells_unmarked ex_board.
Proof.
  apply (battleship_cell_counts 2 ex_board).
  - reflexivity.
  - repeat constructor.
Defined.

Lemma two_player_scores_witness :
  TwoPlayerScorer_compute_episode_scores ex_two_episode
  = inr ([("ta_reward", LReward (sc_rewards ex_two_env).1)], ScoreNaN).
Proof.
  eapply (two_player_scores ex_render "Aborted" "Success" "Lose"
            ex_two_before_last_step ex_two_scored "move" (Some "game over")
            _ (sc_rewards ex_two_env) _ ex_two_episode);
    try reflexivity.
  - intros Hin.
    repeat (apply elem_of_cons in Hin as [Hin|Hin]; [discriminate Hin |]).
    by apply elem_of_nil in Hin.
  - intros key v Hv. exact Hv.
Defined.

Lemma explicit_master_and_scorer_witness :
  TextArenaBenchmark_init
    {| spec_master := Some "MinesweeperMaster";
       spec_scorer := Some "SinglePlayerScorer";
       spec_players := Some 3%Z |}
  = inr {| master_class := MasterClass "MinesweeperMaster";
           scorer_class := ScorerClass "SinglePlayerScorer" |}.
Proof.
  exact (proj1 (explicit_master_and_scorer
                  {| spec_master := Some "MinesweeperMaster";
                     spec_scorer := Some "SinglePlayerScorer";
                     spec_players := Some 3%Z |}
                  "MinesweeperMaster" "SinglePlayerScorer" eq_refl eq_refl)).
Defined.

Lemma play_rounds_match_log_witness :
  ∃ k, (k ≤ 3)%nat ∧
       current_round ex_two_finished = (current_round ex_two + k)%nat ∧
       round_marks (interactions ex_two_finished)
       = (round_marks (interactions ex_two) + k)%nat.
Proof.
  assert (play ex_prompt ex_respond ex_render ex_hook 3 ex_two
          = inr (true, ex_two_finished)) as Hplay by reflexivity.
  exact (play_rounds_match_log ex_prompt ex_respond ex_render ex_hook
           3 ex_two ex_two_finished true Hplay).
Defined.

Lemma get_stats_counts_witness :
  ∃ status_counts total_counts,
    get_stats ex_game_info = inr (status_counts, total_counts) ∧
    total_counts !! "included" = Some 2%nat.
Proof.
  destruct (proj2 (get_stats_counts ex_game_info))
    as (status_counts & total_counts & Hstats & Htotal & _).
  { intros info Hin.
    repeat (apply elem_of_cons in Hin as [-> | Hin]; [by eexists |]).
    by apply elem_of_nil in Hin. }
  exists status_counts, total_counts. split; [exact Hstats |].
  apply (Htotal "included").
Defined.

Lemma play_log_append_only_witness :
  ∃ added,
    interactions ex_two_finished = (interactions ex_two ++ added)%list ∧
    game_ends added = 1%nat ∧
    last (interactions ex_two_finished) = Some LogGameEnd.
Proof.
  assert (play ex_prompt ex_respond ex_render ex_hook 3 ex_two
          = inr (true, ex_two_finished)) as Hplay by reflexivity.
  destruct (play_log_append_only ex_prompt ex_respond ex_render ex_hook
              3 ex_two ex_two_finished true Hplay)
    as (added & Hlog & Hends & Hlast).
  exists added. split; [exact Hlog |]. split; [exact Hends |].
  exact (Hlast eq_refl).
Defined.

Lemma observation_frame_witness :
  wrapped ex_w1 = wrapped ex_w0 ∧ new_events ex_w1 1 = new_events ex_w0 1.
Proof.
  assert (observation ex_prompt 0 ex_w0 = inr (ex_ctx0, ex_w1)) as Hobs
    by reflexivity.
  destruct (observation_frame ex_prompt ex_w0 ex_w1 0 ex_ctx0 Hobs)
    as (Hwrapped & _ & Hothers).
  split; [exact Hwrapped |].
  destruct (Hothers 1) as [_ Hnew]; [discriminate | exact Hnew].
Defined.
